(** * The JIT block cache of Source/Core/Core/PowerPC/JitCommon/JitCache.cpp

    A shallow embedding of [JitBaseBlockCache]: the block store, the fast
    dispatch table, the macro-range index, the valid-block bit set and the
    link graph, with the operations that allocate, finalize, look up, link,
    destroy and invalidate blocks. *)

From stdpp Require Import gmap list sorting.
From Stdlib Require Import ZArith Lia.

Open Scope Z_scope.

(** ** Machine integers *)

(** [u32] values are integers in [0, 2^32); arithmetic wraps. *)
Definition wrap (x : Z) : Z := x mod 2 ^ 32.

Definition is_u32 (x : Z) : Prop := 0 <= x < 2 ^ 32.

(** [~x] on a [u32]. *)
Definition u32_not (x : Z) : Z := wrap (Z.lnot x).

(** ** Results of operations that can go wrong

    [UB] stands for undefined behaviour of the C++ code (a dangling
    [JitBlock*] is dereferenced, the end iterator of a map is dereferenced);
    [OutOfFuel] is returned when a loop has used up its iteration budget. *)
Inductive Result (A : Type) : Type :=
  | Ok (a : A)
  | UB
  | OutOfFuel.
Arguments Ok {A} a.
Arguments UB {A}.
Arguments OutOfFuel {A}.

Definition bind {A B : Type} (r : Result A) (k : A -> Result B) : Result B :=
  match r with
  | Ok a => k a
  | UB => UB
  | OutOfFuel => OutOfFuel
  end.

Notation "'do' x <- r ; k" := (bind r (fun x => k))
  (at level 10, x name, r at level 100, k at level 200).

(** ** Data model *)

(** [PowerPC::TranslateResult], as used by the cache. *)
Record TranslateResult := {
  valid : bool;
  translated : bool;
  from_bat : bool;
  address : Z
}.

(** The fields [address] and [translated] under names that the parameters
    and locals of the functions below do not hide. *)
Definition result_address (t : TranslateResult) : Z := address t.
Definition result_translated (t : TranslateResult) : bool := translated t.

(** The processor state the cache reads: [PC], [MSR.Hex] and the address
    translation currently in force, [PowerPC::JitCache_TranslateAddress]. *)
Record Machine := {
  PC : Z;
  MSR_Hex : Z;
  JitCache_TranslateAddress : Z -> TranslateResult
}.

(** A [JitBlock*] is the identity of a node of [block_map]; [nullptr] is
    [None]. *)
Abbreviation ptr := nat (only parsing).

(** [JitBlock::LinkData]. [exitTarget] models the branch site that
    [WriteLinkBlock] rewrites: [Some d] when the exit jumps straight into
    block [d], [None] when it goes through the dispatcher. *)
Record LinkData := {
  exitAddress : Z;
  linkStatus : bool;
  exitTarget : option ptr
}.

Record JitBlock := {
  effectiveAddress : Z;
  physicalAddress : Z;
  msrBits : Z;
  physical_addresses : gset Z;
  checkedEntry : Z;
  normalEntry : Z;
  codeSize : Z;
  linkData : list LinkData;
  fast_block_map_index : Z
}.

Definition set_linkData (l : list LinkData) (b : JitBlock) : JitBlock :=
  {| effectiveAddress := effectiveAddress b; physicalAddress := physicalAddress b;
     msrBits := msrBits b; physical_addresses := physical_addresses b;
     checkedEntry := checkedEntry b; normalEntry := normalEntry b;
     codeSize := codeSize b; linkData := l;
     fast_block_map_index := fast_block_map_index b |}.

Definition set_fast_block_map_index (i : Z) (b : JitBlock) : JitBlock :=
  {| effectiveAddress := effectiveAddress b; physicalAddress := physicalAddress b;
     msrBits := msrBits b; physical_addresses := physical_addresses b;
     checkedEntry := checkedEntry b; normalEntry := normalEntry b;
     codeSize := codeSize b; linkData := linkData b;
     fast_block_map_index := i |}.

Definition set_physical_addresses (f : gset Z) (b : JitBlock) : JitBlock :=
  {| effectiveAddress := effectiveAddress b; physicalAddress := physicalAddress b;
     msrBits := msrBits b; physical_addresses := f;
     checkedEntry := checkedEntry b; normalEntry := normalEntry b;
     codeSize := codeSize b; linkData := linkData b;
     fast_block_map_index := fast_block_map_index b |}.

(** Calls that leave the cache, recorded in program order. *)
Inductive Event :=
  | EvErasePhysicalRange (address length : Z)
  | EvEraseWord (i : Z).

(** The members of [JitBaseBlockCache], together with the two address sets
    of [m_jit.js] that invalidation clears.

    [block_map] is the [std::multimap<u32, JitBlock>]: its entries in
    iteration order, each with its key and the address of its node; [nodes]
    holds the [JitBlock] stored in each node and [next_node] is the address
    the next node gets. *)
Record Cache := {
  block_map : list (Z * ptr);
  nodes : gmap ptr JitBlock;
  next_node : ptr;
  links_to : gmap Z (gset ptr);
  block_range_map : gmap Z (gset ptr);
  valid_block : gset Z;
  fast_block_map : gmap Z ptr;
  fifoWriteAddresses : gset Z;
  pairedQuantizeAddresses : gset Z;
  trace : list Event
}.

Definition set_block_map (f : list (Z * ptr) -> list (Z * ptr)) (s : Cache) : Cache :=
  {| block_map := f (block_map s); nodes := nodes s; next_node := next_node s;
     links_to := links_to s; block_range_map := block_range_map s;
     valid_block := valid_block s; fast_block_map := fast_block_map s;
     fifoWriteAddresses := fifoWriteAddresses s;
     pairedQuantizeAddresses := pairedQuantizeAddresses s; trace := trace s |}.

Definition set_nodes (f : gmap ptr JitBlock -> gmap ptr JitBlock) (s : Cache) : Cache :=
  {| block_map := block_map s; nodes := f (nodes s); next_node := next_node s;
     links_to := links_to s; block_range_map := block_range_map s;
     valid_block := valid_block s; fast_block_map := fast_block_map s;
     fifoWriteAddresses := fifoWriteAddresses s;
     pairedQuantizeAddresses := pairedQuantizeAddresses s; trace := trace s |}.

Definition set_next_node (n : ptr) (s : Cache) : Cache :=
  {| block_map := block_map s; nodes := nodes s; next_node := n;
     links_to := links_to s; block_range_map := block_range_map s;
     valid_block := valid_block s; fast_block_map := fast_block_map s;
     fifoWriteAddresses := fifoWriteAddresses s;
     pairedQuantizeAddresses := pairedQuantizeAddresses s; trace := trace s |}.

Definition set_links_to (f : gmap Z (gset ptr) -> gmap Z (gset ptr)) (s : Cache) : Cache :=
  {| block_map := block_map s; nodes := nodes s; next_node := next_node s;
     links_to := f (links_to s); block_range_map := block_range_map s;
     valid_block := valid_block s; fast_block_map := fast_block_map s;
     fifoWriteAddresses := fifoWriteAddresses s;
     pairedQuantizeAddresses := pairedQuantizeAddresses s; trace := trace s |}.

Definition set_block_range_map (f : gmap Z (gset ptr) -> gmap Z (gset ptr)) (s : Cache) : Cache :=
  {| block_map := block_map s; nodes := nodes s; next_node := next_node s;
     links_to := links_to s; block_range_map := f (block_range_map s);
     valid_block := valid_block s; fast_block_map := fast_block_map s;
     fifoWriteAddresses := fifoWriteAddresses s;
     pairedQuantizeAddresses := pairedQuantizeAddresses s; trace := trace s |}.

Definition set_valid_block (f : gset Z -> gset Z) (s : Cache) : Cache :=
  {| block_map := block_map s; nodes := nodes s; next_node := next_node s;
     links_to := links_to s; block_range_map := block_range_map s;
     valid_block := f (valid_block s); fast_block_map := fast_block_map s;
     fifoWriteAddresses := fifoWriteAddresses s;
     pairedQuantizeAddresses := pairedQuantizeAddresses s; trace := trace s |}.

Definition set_fast_block_map (f : gmap Z ptr -> gmap Z ptr) (s : Cache) : Cache :=
  {| block_map := block_map s; nodes := nodes s; next_node := next_node s;
     links_to := links_to s; block_range_map := block_range_map s;
     valid_block := valid_block s; fast_block_map := f (fast_block_map s);
     fifoWriteAddresses := fifoWriteAddresses s;
     pairedQuantizeAddresses := pairedQuantizeAddresses s; trace := trace s |}.

Definition set_js (fifo paired : gset Z) (s : Cache) : Cache :=
  {| block_map := block_map s; nodes := nodes s; next_node := next_node s;
     links_to := links_to s; block_range_map := block_range_map s;
     valid_block := valid_block s; fast_block_map := fast_block_map s;
     fifoWriteAddresses := fifo; pairedQuantizeAddresses := paired;
     trace := trace s |}.

Definition emit (e : Event) (s : Cache) : Cache :=
  {| block_map := block_map s; nodes := nodes s; next_node := next_node s;
     links_to := links_to s; block_range_map := block_range_map s;
     valid_block := valid_block s; fast_block_map := fast_block_map s;
     fifoWriteAddresses := fifoWriteAddresses s;
     pairedQuantizeAddresses := pairedQuantizeAddresses s;
     trace := trace s ++ [e] |}.

(** A freshly constructed cache: every container empty. *)
Definition empty_cache : Cache :=
  {| block_map := []; nodes := ∅; next_node := O; links_to := ∅;
     block_range_map := ∅; valid_block := ∅; fast_block_map := ∅;
     fifoWriteAddresses := ∅; pairedQuantizeAddresses := ∅; trace := [] |}.

(** ** Ordered containers *)

(** Iteration over a [std::set<u32>] goes in increasing order. *)
Definition ascending (s : gset Z) : list Z := merge_sort Z.le (elements s).

(** Iteration over a [std::set<JitBlock*>] goes in the order of the node
    addresses. *)
Definition by_address (s : gset ptr) : list ptr := merge_sort Nat.le (elements s).

(** [lower_bound]: the first element not less than [x], [None] for the end
    iterator. *)
Definition lower_bound (s : gset Z) (x : Z) : option Z :=
  head (filter (fun y => x <= y) (ascending s)).

(** [std::multimap::emplace]: the new entry goes after the entries whose key
    is not greater. *)
Fixpoint multimap_emplace (k : Z) (p : ptr) (l : list (Z * ptr)) : list (Z * ptr) :=
  match l with
  | [] => [(k, p)]
  | e :: l' => if bool_decide (e.1 <= k) then e :: multimap_emplace k p l'
               else (k, p) :: e :: l'
  end.

(** [m[k].insert(p)] and [m[k].erase(p)] on a [std::map<u32, std::set<JitBlock*>>];
    [operator[]] creates the bucket when it is missing. *)
Definition bucket (m : gmap Z (gset ptr)) (k : Z) : gset ptr := default ∅ (m !! k).

Definition bucket_insert (k : Z) (p : ptr) (m : gmap Z (gset ptr)) : gmap Z (gset ptr) :=
  <[k := {[p]} ∪ bucket m k]> m.

Definition bucket_erase (k : Z) (p : ptr) (m : gmap Z (gset ptr)) : gmap Z (gset ptr) :=
  <[k := bucket m k ∖ {[p]}]> m.

(** ** The operations of [JitBaseBlockCache] *)

(** The constants and the [MSR] bit field that the headers declare. *)
Class Constants := {
  JIT_CACHE_MSR_MASK : Z;
  FAST_BLOCK_MAP_MASK : Z;
  BLOCK_RANGE_MAP_ELEMENTS : Z;
  BAT_INDEX_SHIFT : Z;
  HW_PAGE_INDEX_SHIFT : Z;
  (** [UReg_MSR(msr).IR]: instruction address translation is on. *)
  UReg_MSR_IR : Z -> bool
}.

Section JitCache.

Context `{Constants}.

Definition range_mask : Z := u32_not (BLOCK_RANGE_MAP_ELEMENTS - 1).

Definition FastLookupIndexForAddress (address : Z) : Z :=
  Z.land (Z.shiftr address 2) FAST_BLOCK_MAP_MASK.

(** [JitBlock::OverlapsPhysicalRange] *)
Definition OverlapsPhysicalRange (b : JitBlock) (address length : Z) : bool :=
  negb (bool_decide (lower_bound (physical_addresses b) address =
                     lower_bound (physical_addresses b) (wrap (address + length)))).

(** The scan of [GetBlockFromStartAddress] over [equal_range(key)]. *)
Fixpoint scan_equal_range (nd : gmap ptr JitBlock) (key addr msrm : Z)
    (l : list (Z * ptr)) : option ptr :=
  match l with
  | [] => None
  | (k, p) :: l' =>
      if bool_decide (k = key) then
        match nd !! p with
        | Some b =>
            if bool_decide (effectiveAddress b = addr) && bool_decide (msrBits b = msrm)
            then Some p
            else scan_equal_range nd key addr msrm l'
        | None => scan_equal_range nd key addr msrm l'
        end
      else scan_equal_range nd key addr msrm l'
  end.

Definition GetBlockFromStartAddress (m : Machine) (addr msr : Z) (s : Cache)
    : option ptr :=
  let lookup_at translated_addr :=
    scan_equal_range (nodes s) translated_addr addr (Z.land msr JIT_CACHE_MSR_MASK)
      (block_map s) in
  if UReg_MSR_IR msr then
    let translated := JitCache_TranslateAddress m addr in
    if negb (valid translated) then None
    else lookup_at (address translated)
  else lookup_at addr.

(** [AllocateBlock]; the fields that [JitBlock()] leaves to the code
    generator start at zero. *)
Definition AllocateBlock (m : Machine) (em_address : Z) (s : Cache)
    : option ptr * Cache :=
  let physical_address := address (JitCache_TranslateAddress m em_address) in
  let p := next_node s in
  let b := {| effectiveAddress := em_address;
              physicalAddress := physical_address;
              msrBits := Z.land (MSR_Hex m) JIT_CACHE_MSR_MASK;
              physical_addresses := ∅;
              checkedEntry := 0; normalEntry := 0; codeSize := 0;
              linkData := [];
              fast_block_map_index := 0 |} in
  (Some p,
   set_next_node (S p)
     (set_nodes (insert p b)
        (set_block_map (multimap_emplace physical_address p) s))).

(** [WriteLinkBlock(e, dest)] rewrites the branch of exit [e]. *)
Definition WriteLinkBlock (e : LinkData) (dest : option ptr) : LinkData :=
  {| exitAddress := exitAddress e; linkStatus := linkStatus e; exitTarget := dest |}.

Definition set_linkStatus (v : bool) (e : LinkData) : LinkData :=
  {| exitAddress := exitAddress e; linkStatus := v; exitTarget := exitTarget e |}.

(** The body of the loop of [LinkBlockExits] for one exit. *)
Definition link_exit (m : Machine) (s : Cache) (msr : Z) (e : LinkData) : LinkData :=
  if negb (linkStatus e) then
    match GetBlockFromStartAddress m (exitAddress e) msr s with
    | Some destinationBlock =>
        set_linkStatus true (WriteLinkBlock e (Some destinationBlock))
    | None => e
    end
  else e.

Definition LinkBlockExits (m : Machine) (p : ptr) (s : Cache) : Result Cache :=
  match nodes s !! p with
  | None => UB
  | Some block =>
      Ok (set_nodes
            (insert p (set_linkData
                         (map (link_exit m s (msrBits block)) (linkData block)) block))
            s)
  end.

(** The loop of [LinkBlock] over [it->second]. *)
Fixpoint link_sources (m : Machine) (msr : Z) (l : list ptr) (s : Cache)
    : Result Cache :=
  match l with
  | [] => Ok s
  | b2 :: l' =>
      match nodes s !! b2 with
      | None => UB
      | Some blk2 =>
          if bool_decide (msr = msrBits blk2) then
            do s1 <- LinkBlockExits m b2 s; link_sources m msr l' s1
          else link_sources m msr l' s
      end
  end.

Definition LinkBlock (m : Machine) (p : ptr) (s : Cache) : Result Cache :=
  do s1 <- LinkBlockExits m p s;
  match nodes s1 !! p with
  | None => UB
  | Some block =>
      match links_to s1 !! effectiveAddress block with
      | None => Ok s1
      | Some srcs => link_sources m (msrBits block) (by_address srcs) s1
      end
  end.

(** The body of the inner loop of [UnlinkBlock] for one exit of a source
    block. *)
Definition unlink_exit (target : Z) (e : LinkData) : LinkData :=
  if bool_decide (exitAddress e = target) then
    set_linkStatus false (WriteLinkBlock e None)
  else e.

(** The loop of [UnlinkBlock] over [it->second]. *)
Fixpoint unlink_sources (target msr : Z) (l : list ptr) (s : Cache) : Result Cache :=
  match l with
  | [] => Ok s
  | sourceBlock :: l' =>
      match nodes s !! sourceBlock with
      | None => UB
      | Some src =>
          if bool_decide (msrBits src <> msr) then unlink_sources target msr l' s
          else
            unlink_sources target msr l'
              (set_nodes
                 (insert sourceBlock
                    (set_linkData (map (unlink_exit target) (linkData src)) src))
                 s)
      end
  end.

Definition UnlinkBlock (p : ptr) (s : Cache) : Result Cache :=
  match nodes s !! p with
  | None => UB
  | Some block =>
      let s1 :=
        set_nodes
          (insert p (set_linkData
                       (map (fun e => WriteLinkBlock e None) (linkData block)) block))
          s in
      match links_to s1 !! effectiveAddress block with
      | None => Ok s1
      | Some srcs =>
          unlink_sources (effectiveAddress block) (msrBits block) (by_address srcs) s1
      end
  end.

(** The body of the loop "Delete linking addresses" of [DestroyBlock]. *)
Definition links_to_erase (p : ptr) (lt : gmap Z (gset ptr)) (e : LinkData)
    : gmap Z (gset ptr) :=
  match lt !! exitAddress e with
  | None => lt
  | Some srcs =>
      let srcs' := srcs ∖ {[p]} in
      if bool_decide (srcs' = ∅) then delete (exitAddress e) lt
      else <[exitAddress e := srcs']> lt
  end.

(** [WriteDestroyBlock] of the base class does nothing. *)
Definition WriteDestroyBlock (p : ptr) (s : Cache) : Cache := s.

Definition DestroyBlock (p : ptr) (s : Cache) : Result Cache :=
  match nodes s !! p with
  | None => UB
  | Some block =>
      let s1 :=
        if bool_decide (fast_block_map s !! fast_block_map_index block = Some p)
        then set_fast_block_map (delete (fast_block_map_index block)) s
        else s in
      do s2 <- UnlinkBlock p s1;
      match nodes s2 !! p with
      | None => UB
      | Some block2 =>
          Ok (WriteDestroyBlock p
                (set_links_to
                   (fun lt => foldl (links_to_erase p) lt (linkData block2)) s2))
      end
  end.

Definition MoveBlockIntoFastCache (m : Machine) (addr msr : Z) (s : Cache)
    : Result (option ptr * Cache) :=
  match GetBlockFromStartAddress m addr msr s with
  | None => Ok (None, s)
  | Some p =>
      match nodes s !! p with
      | None => UB
      | Some block =>
          let s1 :=
            if bool_decide (fast_block_map s !! fast_block_map_index block = Some p)
            then set_fast_block_map (delete (fast_block_map_index block)) s
            else s in
          let index := FastLookupIndexForAddress addr in
          Ok (Some p,
              set_nodes (insert p (set_fast_block_map_index index block))
                (set_fast_block_map (insert index p) s1))
      end
  end.

(** [Dispatch]; a null result is [None]. *)
Definition Dispatch (m : Machine) (s : Cache) : Result (option Z * Cache) :=
  let msr := Z.land (MSR_Hex m) JIT_CACHE_MSR_MASK in
  let slow :=
    do r <- MoveBlockIntoFastCache m (PC m) msr s;
    match r.1 with
    | None => Ok (None, r.2)
    | Some p =>
        match nodes r.2 !! p with
        | None => UB
        | Some block => Ok (Some (normalEntry block), r.2)
        end
    end in
  match fast_block_map s !! FastLookupIndexForAddress (PC m) with
  | None => slow
  | Some p =>
      match nodes s !! p with
      | None => UB
      | Some block =>
          if bool_decide (effectiveAddress block <> PC m)
             || bool_decide (msrBits block <> msr)
          then slow
          else Ok (Some (normalEntry block), s)
      end
  end.

(** The body of the loop of [FinalizeBlock] over [physical_addresses]. *)
Definition register_address (p : ptr) (s : Cache) (addr : Z) : Cache :=
  set_block_range_map (bucket_insert (Z.land addr range_mask) p)
    (set_valid_block (union {[addr / 32]}) s).

(** [FinalizeBlock]. The call of [JitRegister::Register] that ends it only
    reports the block to a profiler and is left out. *)
Definition FinalizeBlock (m : Machine) (p : ptr) (block_link : bool)
    (footprint : gset Z) (s : Cache) : Result Cache :=
  match nodes s !! p with
  | None => UB
  | Some block =>
      let index := FastLookupIndexForAddress (effectiveAddress block) in
      let block1 :=
        set_physical_addresses footprint (set_fast_block_map_index index block) in
      let s1 := set_nodes (insert p block1) (set_fast_block_map (insert index p) s) in
      let s2 := foldl (register_address p) s1 (ascending footprint) in
      if block_link then
        LinkBlock m p
          (set_links_to
             (fun lt => foldl (fun lt e => bucket_insert (exitAddress e) p lt) lt
                          (linkData block1))
             s2)
      else Ok s2
  end.

(** The loop of [ErasePhysicalRange] that takes an overlapping block out of
    the other macro blocks. *)
Definition erase_other_slots (p : ptr) (first : Z) (s : Cache) (addr : Z) : Cache :=
  if bool_decide (Z.land addr range_mask <> first)
  then set_block_range_map (bucket_erase (Z.land addr range_mask) p) s
  else s.

(** The search of [block_map.equal_range(block->physicalAddress)] for the
    node at address [p], which is erased when found. *)
Definition erase_node (key : Z) (p : ptr) (s : Cache) : Cache :=
  if bool_decide ((key, p) ∈ block_map s)
  then set_nodes (delete p)
         (set_block_map (filter (fun e => e <> (key, p))) s)
  else s.

(** The loop of [ErasePhysicalRange] over the blocks of the macro block with
    key [first]; [l] is what is left of the bucket to visit. *)
Fixpoint erase_in_bucket (address length first : Z) (l : list ptr) (s : Cache)
    : Result Cache :=
  match l with
  | [] => Ok s
  | p :: l' =>
      match nodes s !! p with
      | None => UB
      | Some block =>
          if OverlapsPhysicalRange block address length then
            let s1 := foldl (erase_other_slots p first) s
                        (ascending (physical_addresses block)) in
            do s2 <- DestroyBlock p s1;
            match nodes s2 !! p with
            | None => UB
            | Some block2 =>
                let s3 := erase_node (physicalAddress block2) p s2 in
                let s4 := set_block_range_map
                            (fun rm => <[first := bucket rm first ∖ {[p]}]> rm) s3 in
                erase_in_bucket address length first l' s4
            end
          else erase_in_bucket address length first l' s
      end
  end.

(** The loop of [ErasePhysicalRange] over the macro blocks, from iterator
    [start] until it meets [finish]; an iterator is the key it points at,
    [None] for [block_range_map.end()]. *)
Fixpoint erase_macro_blocks (fuel : nat) (address length : Z)
    (start finish : option Z) (s : Cache) : Result Cache :=
  if bool_decide (start = finish) then Ok s
  else
    match fuel with
    | O => OutOfFuel
    | S fuel' =>
        match start with
        | None => UB
        | Some first =>
            match block_range_map s !! first with
            | None => UB
            | Some blocks =>
                do s1 <- erase_in_bucket address length first (by_address blocks) s;
                let s2 :=
                  if bool_decide (bucket (block_range_map s1) first = ∅)
                  then set_block_range_map (delete first) s1
                  else s1 in
                erase_macro_blocks fuel' address length
                  (lower_bound (dom (block_range_map s2)) (first + 1)) finish s2
            end
        end
    end.

(** The number of macro blocks the loop of [ErasePhysicalRange] can visit:
    those present at the start and those [operator[]] can add. *)
Definition erase_fuel (s : Cache) : nat :=
  S (size (block_range_map s)
     + map_fold (fun _ b n => (size (physical_addresses b) + n)%nat) O (nodes s)).

Definition ErasePhysicalRange (address length : Z) (s : Cache) : Result Cache :=
  let s0 := emit (EvErasePhysicalRange address length) s in
  let start := lower_bound (dom (block_range_map s0)) (Z.land address range_mask) in
  let finish := lower_bound (dom (block_range_map s0)) (wrap (address + length)) in
  erase_macro_blocks (erase_fuel s0) address length start finish s0.

(** The loop [for (u32 i = address; i < address + length; i += 4)] of
    [InvalidateICacheInternal]; [bound] is [address + length]. *)
Fixpoint erase_words (fuel : nat) (i bound : Z) (s : Cache) : Result Cache :=
  if bool_decide (i < bound) then
    match fuel with
    | O => OutOfFuel
    | S fuel' =>
        erase_words fuel' (wrap (i + 4)) bound
          (emit (EvEraseWord i)
             (set_js (fifoWriteAddresses s ∖ {[i]})
                     (pairedQuantizeAddresses s ∖ {[i]}) s))
    end
  else Ok s.

Definition InvalidateICacheInternal (physical_address address length : Z)
    (forced : bool) (s : Cache) : Result Cache :=
  let single_line :=
    bool_decide (length = 32) && bool_decide (Z.land physical_address 0x1f = 0) in
  let destroy_block :=
    if single_line then bool_decide (physical_address / 32 ∈ valid_block s)
    else true in
  let s1 :=
    if single_line then
      if destroy_block then set_valid_block (fun v => v ∖ {[physical_address / 32]}) s
      else s
    else if bool_decide (length > 32) then
      let covered_block_start := wrap (physical_address + 0x1f) / 32 in
      let covered_block_end := wrap (physical_address + length) / 32 in
      set_valid_block
        (fun v => foldl (fun v i => v ∖ {[i]}) v
                    (seqZ covered_block_start (covered_block_end - covered_block_start)))
        s
    else s in
  if destroy_block then
    do s2 <- ErasePhysicalRange physical_address length s1;
    if negb forced then
      erase_words (Z.to_nat length) address (wrap (address + length)) s2
    else Ok s2
  else Ok s1.

Definition InvalidateICacheLine (m : Machine) (address : Z) (s : Cache)
    : Result Cache :=
  let cache_line_address := Z.land address (u32_not 0x1f) in
  let translated := JitCache_TranslateAddress m cache_line_address in
  if valid translated
  then InvalidateICacheInternal (result_address translated) cache_line_address 32 false s
  else Ok s.

(** The statement [if (translated.valid) InvalidateICacheInternal(...)] that
    [InvalidateICache] runs on each piece of the range. *)
Definition invalidate_chunk (forced : bool) (translated : TranslateResult)
    (address length : Z) (s : Cache) : Result Cache :=
  if valid translated
  then InvalidateICacheInternal (result_address translated) address length forced s
  else Ok s.

(** The locals of the loop of [InvalidateICache]: the [shift] of the
    translation unit of [address], its [mask], the test that the range ends
    in another unit than it starts in, and [length_this_page]. *)
Definition page_shift (translated : TranslateResult) : Z :=
  let address_from_bat :=
    valid translated && result_translated translated && from_bat translated in
  if address_from_bat then BAT_INDEX_SHIFT else HW_PAGE_INDEX_SHIFT.

Definition page_mask (shift : Z) : Z := u32_not (wrap (wrap (Z.shiftl 1 shift) - 1)).

Definition same_page (shift address length : Z) : bool :=
  let mask := page_mask shift in
  let first_address := address in
  let last_address := wrap (address + wrap (length - 1)) in
  bool_decide (Z.land first_address mask = Z.land last_address mask).

Definition length_this_page (shift address : Z) : Z :=
  let mask := page_mask shift in
  let first_address := address in
  let end_of_page := Z.land (wrap (first_address + wrap (Z.shiftl 1 shift))) mask in
  wrap (end_of_page - first_address).

(** The loop of [InvalidateICache]; [visit] is what it does with each piece
    it cuts off. *)
Fixpoint InvalidateICache_loop {A : Type}
    (visit : TranslateResult -> Z -> Z -> A -> Result A)
    (fuel : nat) (m : Machine) (address length : Z) (s : A) : Result A :=
  if bool_decide (length > 0) then
    match fuel with
    | O => OutOfFuel
    | S fuel' =>
        let translated := JitCache_TranslateAddress m address in
        let shift := page_shift translated in
        if same_page shift address length then
          visit translated address length s
        else
          let length_this_page := length_this_page shift address in
          do s1 <- visit translated address length_this_page s;
          InvalidateICache_loop visit fuel' m (wrap (address + length_this_page))
            (wrap (length - length_this_page)) s1
    end
  else Ok s.

(** [visit] run on a list of pieces, one after the other. *)
Fixpoint visit_chunks {A : Type}
    (visit : TranslateResult -> Z -> Z -> A -> Result A)
    (m : Machine) (chunks : list (Z * Z)) (s : A) : Result A :=
  match chunks with
  | [] => Ok s
  | (address, length) :: rest =>
      do s1 <- visit (JitCache_TranslateAddress m address) address length s;
      visit_chunks visit m rest s1
  end.

Definition InvalidateICache (m : Machine) (initial_address initial_length : Z)
    (forced : bool) (s : Cache) : Result Cache :=
  InvalidateICache_loop (invalidate_chunk forced) (Z.to_nat initial_length) m
    initial_address initial_length s.

(** The pieces [InvalidateICache] cuts a range into, each with its first
    address and its length: the loop run with a [visit] that only takes
    note of its arguments. *)
Definition InvalidateICache_chunks (m : Machine) (initial_address initial_length : Z)
    : Result (list (Z * Z)) :=
  InvalidateICache_loop (fun _ address length acc => Ok (acc ++ [(address, length)]))
    (Z.to_nat initial_length) m initial_address initial_length [].

(** The loop of [Clear] over [block_map]. *)
Fixpoint destroy_all (l : list (Z * ptr)) (s : Cache) : Result Cache :=
  match l with
  | [] => Ok s
  | e :: l' => do s1 <- DestroyBlock e.2 s; destroy_all l' s1
  end.

Definition Clear (s : Cache) : Result Cache :=
  do s1 <- destroy_all (block_map s) (set_js ∅ ∅ s);
  Ok {| block_map := []; nodes := ∅; next_node := next_node s1;
        links_to := ∅; block_range_map := ∅; valid_block := ∅;
        fast_block_map := ∅;
        fifoWriteAddresses := fifoWriteAddresses s1;
        pairedQuantizeAddresses := pairedQuantizeAddresses s1;
        trace := trace s1 |}.

(** Modelled from the spec: the code generator, which is not part of the
    cache, fills in the block that [AllocateBlock] returned: the two entry
    points, the code size and the exits, none of them linked yet. *)
Definition emit_code (p : ptr) (checked normal size : Z) (exits : list Z)
    (s : Cache) : Result Cache :=
  match nodes s !! p with
  | None => UB
  | Some b =>
      Ok (set_nodes
            (insert p
               {| effectiveAddress := effectiveAddress b;
                  physicalAddress := physicalAddress b;
                  msrBits := msrBits b;
                  physical_addresses := physical_addresses b;
                  checkedEntry := checked; normalEntry := normal; codeSize := size;
                  linkData :=
                    map (fun a => {| exitAddress := a; linkStatus := false;
                                     exitTarget := None |}) exits;
                  fast_block_map_index := fast_block_map_index b |})
            s)
  end.

(** Modelled from the spec: the JIT that owns the cache, which is not part
    of the cache, notes in the two sets of [m_jit.js] the addresses whose
    accesses it has compiled in a special way (the external hot-path caches
    of the spec). *)
Definition note_addresses (fifo paired : gset Z) (s : Cache) : Cache :=
  set_js (fifoWriteAddresses s ∪ fifo) (pairedQuantizeAddresses s ∪ paired) s.

(** ** Reachable states

    One step is one call of the owner of the cache. The code generator runs
    on a block that is in no bucket of [links_to], and a block is finalized
    once, while its footprint is still empty, with a footprint of [u32]
    addresses. A call that runs into undefined behaviour or does not return
    is no step. Between two calls the owner may note addresses in the sets
    of [m_jit.js]. *)
Inductive step (s : Cache) : Cache -> Prop :=
  | step_Clear s' :
      Clear s = Ok s' -> step s s'
  | step_AllocateBlock m em_address :
      step s (AllocateBlock m em_address s).2
  | step_emit_code p checked normal size exits s' :
      (forall a, p ∉ bucket (links_to s) a) ->
      emit_code p checked normal size exits s = Ok s' -> step s s'
  | step_FinalizeBlock m p b block_link footprint s' :
      nodes s !! p = Some b -> physical_addresses b = ∅ ->
      (forall a, a ∈ footprint -> is_u32 a) ->
      FinalizeBlock m p block_link footprint s = Ok s' -> step s s'
  | step_Dispatch m r s' :
      Dispatch m s = Ok (r, s') -> step s s'
  | step_InvalidateICacheLine m a s' :
      InvalidateICacheLine m a s = Ok s' -> step s s'
  | step_InvalidateICache m a l forced s' :
      InvalidateICache m a l forced s = Ok s' -> step s s'
  | step_ErasePhysicalRange a l s' :
      ErasePhysicalRange a l s = Ok s' -> step s s'
  | step_note_addresses fifo paired :
      step s (note_addresses fifo paired s).

Inductive reachable : Cache -> Prop :=
  | reachable_init : reachable empty_cache
  | reachable_step s s' : reachable s -> step s s' -> reachable s'.

(** ** The consistency of the indices *)

(** Block [p] is in the bucket of [links_to] of each of its exits. *)
Definition registered (s : Cache) (p : ptr) (b : JitBlock) : Prop :=
  forall e, e ∈ linkData b -> p ∈ bucket (links_to s) (exitAddress e).

Record wf (s : Cache) : Prop := {
  wf_nodup : NoDup (block_map s).*2;
  wf_store : forall k p,
    (k, p) ∈ block_map s <-> exists b, nodes s !! p = Some b /\ physicalAddress b = k;
  wf_fresh : forall p, is_Some (nodes s !! p) -> (p < next_node s)%nat;
  wf_fast : forall i p, fast_block_map s !! i = Some p ->
    exists b, nodes s !! p = Some b /\ fast_block_map_index b = i /\
              i = FastLookupIndexForAddress (effectiveAddress b);
  wf_links : forall a p, p ∈ bucket (links_to s) a ->
    exists b, nodes s !! p = Some b /\ a ∈ exitAddress <$> linkData b /\
              registered s p b;
  wf_status : forall p b e, nodes s !! p = Some b -> e ∈ linkData b ->
    linkStatus e = true -> p ∈ bucket (links_to s) (exitAddress e);
  wf_target : forall p b e d, nodes s !! p = Some b -> e ∈ linkData b ->
    exitTarget e = Some d ->
    linkStatus e = true /\
    exists bd, nodes s !! d = Some bd /\ effectiveAddress bd = exitAddress e /\
               msrBits bd = msrBits b;
  wf_range : forall k p, p ∈ bucket (block_range_map s) k ->
    exists b, nodes s !! p = Some b /\
              exists addr, addr ∈ physical_addresses b /\ Z.land addr range_mask = k;
  wf_footprint : forall p b addr, nodes s !! p = Some b ->
    addr ∈ physical_addresses b ->
    is_u32 addr /\ p ∈ bucket (block_range_map s) (Z.land addr range_mask);
  wf_msr : forall p b, nodes s !! p = Some b ->
    Z.land (msrBits b) JIT_CACHE_MSR_MASK = msrBits b
}.

(** ** Destruction seen from outside

    [shrunk D s s'] relates a state to a later one from which the blocks of
    [D] have been taken out: they are gone from the store and from every
    index, and the blocks that stay are as they were, except that some of
    their exits have been unlinked; no exit that is still patched jumps
    into a block of [D]. The valid-block set, the sets of [m_jit.js] and
    the trace are left open. *)
Definition exit_unlinked (D : gset ptr) (e1 e2 : LinkData) : Prop :=
  exitAddress e2 = exitAddress e1 /\
  (linkStatus e2 = true -> linkStatus e1 = true) /\
  (forall d, exitTarget e2 = Some d -> e2 = e1 /\ d ∉ D).

Definition block_unlinked (D : gset ptr) (b1 b2 : JitBlock) : Prop :=
  b2 = set_linkData (linkData b2) b1 /\
  Forall2 (exit_unlinked D) (linkData b1) (linkData b2).

Record shrunk (D : gset ptr) (s s' : Cache) : Prop := {
  shrunk_nodes : forall q,
    if decide (q ∈ D) then nodes s' !! q = None
    else option_Forall2 (block_unlinked D) (nodes s !! q) (nodes s' !! q);
  shrunk_sublist : block_map s' `sublist_of` block_map s;
  shrunk_block_map : forall e, e ∈ block_map s' <-> e ∈ block_map s /\ e.2 ∉ D;
  shrunk_next : next_node s' = next_node s;
  shrunk_fast : forall i q,
    fast_block_map s' !! i = Some q <-> fast_block_map s !! i = Some q /\ q ∉ D;
  shrunk_links : forall a q,
    q ∈ bucket (links_to s') a <-> q ∈ bucket (links_to s) a /\ q ∉ D;
  shrunk_range : forall k q,
    q ∈ bucket (block_range_map s') k <-> q ∈ bucket (block_range_map s) k /\ q ∉ D
}.

(** ** Vocabulary of the properties *)

(** Block [b] is the one [Find] and [Dispatch] look for at [addr] under
    [msr]. *)
Definition matches (b : JitBlock) (addr msr : Z) : Prop :=
  effectiveAddress b = addr /\ msrBits b = Z.land msr JIT_CACHE_MSR_MASK.

(** The footprint of [b] has an address in [[a, a + len)]. *)
Definition footprint_overlaps (b : JitBlock) (a len : Z) : Prop :=
  exists x, x ∈ physical_addresses b /\ a <= x < a + len.

(** The pieces [chunks] follow one another from [address] on, none is
    empty, and together they are [length] bytes long. *)
Fixpoint partitions (address length : Z) (chunks : list (Z * Z)) : Prop :=
  match chunks with
  | [] => length = 0
  | (a, l) :: rest =>
      a = address /\ 0 < l <= length /\
      partitions (wrap (address + l)) (length - l) rest
  end.

(** The word addresses [address], [address + 4], ... below
    [address + length]. *)
Definition word_addresses (address length : Z) : list Z :=
  (fun k => address + 4 * k) <$> seqZ 0 ((length + 3) / 4).

(** Every bucket of [links_to] under an exit address of a block holds the
    block exactly when that exit is linked. *)
Definition links_iff_linked (s : Cache) : Prop :=
  forall p b e, nodes s !! p = Some b -> e ∈ linkData b ->
    (p ∈ bucket (links_to s) (exitAddress e) <-> linkStatus e = true).

(** Every block whose slot index was set by an installation still finds
    itself in that slot. *)
Definition fast_slot_points_back (s : Cache) : Prop :=
  forall p b, nodes s !! p = Some b -> fast_block_map_index b <> 0 ->
    fast_block_map s !! fast_block_map_index b = Some p.

(** [b] is stored under the key that [GetBlockFromStartAddress] searches
    for [addr] under the mode [msr]: the translated address when the mode
    has instruction translation on and the translation succeeds, [addr]
    itself when it is off. *)
Definition stored_at_lookup_key (m : Machine) (addr msr : Z) (b : JitBlock) : Prop :=
  if UReg_MSR_IR msr
  then valid (JitCache_TranslateAddress m addr) = true /\
       address (JitCache_TranslateAddress m addr) = physicalAddress b
  else addr = physicalAddress b.

(** Whenever exactly one live block is compiled for [PC] and the mode of
    the machine, [Dispatch] returns its [normalEntry]. *)
Definition Dispatch_finds_match (m : Machine) (s : Cache) : Prop :=
  forall p b, nodes s !! p = Some b -> matches b (PC m) (MSR_Hex m) ->
    (forall p' b', nodes s !! p' = Some b' -> matches b' (PC m) (MSR_Hex m) ->
       p' = p) ->
    exists s', Dispatch m s = Ok (Some (normalEntry b), s').

End JitCache.

(** ** Concrete instances *)

(** The values Dolphin gives the constants; [IR] is bit 5 of [MSR]. *)
Definition dolphin : Constants :=
  {| JIT_CACHE_MSR_MASK := 0x30;
     FAST_BLOCK_MAP_MASK := 0xFFFF;
     BLOCK_RANGE_MAP_ELEMENTS := 0x100;
     BAT_INDEX_SHIFT := 17;
     HW_PAGE_INDEX_SHIFT := 12;
     UReg_MSR_IR := fun msr => Z.testbit msr 5 |}.

(** An address translation that maps every address to itself through a BAT,
    and one that maps nothing. *)
Definition identity_translation (a : Z) : TranslateResult :=
  {| valid := true; translated := true; from_bat := true; address := a |}.

Definition no_translation (a : Z) : TranslateResult :=
  {| valid := false; translated := false; from_bat := false; address := 0 |}.

Definition machine (pc msr : Z) : Machine :=
  {| PC := pc; MSR_Hex := msr; JitCache_TranslateAddress := identity_translation |}.

Definition unmapped_machine (pc msr : Z) : Machine :=
  {| PC := pc; MSR_Hex := msr; JitCache_TranslateAddress := no_translation |}.

(** The state of a run that went well, the empty cache otherwise. *)
Definition state_of (r : Result Cache) : Cache :=
  match r with
  | Ok s => s
  | _ => empty_cache
  end.

(** A run of the owner of the cache: a block is allocated at [em_address],
    the code generator fills it in with [exits], and it is finalized. *)
Definition compile_block (msr em_address normal : Z) (exits : list Z)
    (block_link : bool) (footprint : gset Z) (s : Cache) : Cache :=
  let m := machine em_address msr in
  let p := next_node s in
  let s1 := (AllocateBlock (H := dolphin) m em_address s).2 in
  let s2 := state_of (emit_code p (normal - 16) normal 64 exits s1) in
  state_of (FinalizeBlock (H := dolphin) m p block_link footprint s2).

(** One block at 0x1000, compiled with instruction and data translation
    on. *)
Definition one_block : Cache :=
  compile_block 0x30 0x1000 0x7010 [] true {[0x1000; 0x1004]} empty_cache.

(** The same address compiled a second time, under another mode. *)
Definition two_modes : Cache :=
  compile_block 0x10 0x1000 0x8010 [] true {[0x1000]} one_block.

(** A block whose only exit leads to 0x2000, where nothing is compiled. *)
Definition dangling_exit : Cache :=
  compile_block 0x30 0x1000 0x7010 [0x2000] true {[0x1000]} empty_cache.

(** Block 0 at 0x2000, then block 1 at 0x1000 with an exit to 0x2000. *)
Definition linked_pair : Cache :=
  compile_block 0x30 0x1000 0x7010 [0x2000] true {[0x1000]}
    (compile_block 0x30 0x2000 0x8010 [] true {[0x2000]} empty_cache).

(** An empty cache whose owner has noted 0x1000 as a FIFO write address. *)
Definition noted_address : Cache := set_js {[0x1000]} ∅ empty_cache.

(** [one_block], then a block at 0x41000, which has the slot of 0x1000 in
    the fast map and takes it over. *)
Definition evicted_block : Cache :=
  compile_block 0x30 0x41000 0x8010 [] true {[0x41000]} one_block.

(** [one_block] after its owner has noted 0x1000 and 0x1004 as FIFO write
    addresses and 0x1004 as a paired-quantize address. *)
Definition noted_block : Cache :=
  note_addresses {[0x1000; 0x1004]} {[0x1004]} one_block.

(** ** The rest of the interface *)

(** [Init], [Shutdown] and [Reset]. The calls of [JitRegister] that [Init]
    and [Shutdown] make only talk to a profiler and are left out. *)
Definition Init (s : Cache) : Result Cache := Clear s.

Definition Shutdown (s : Cache) : Result Cache := Ok s.

Definition Reset (s : Cache) : Result Cache :=
  do s1 <- Shutdown s; Init s1.

(** [RunOnBlocks(f)]: [f] is called on the block of each entry of
    [block_map], in iteration order; [acc] is the state [f] keeps between
    its calls. *)
Fixpoint run_on_blocks {A : Type} (f : JitBlock -> A -> A) (nd : gmap ptr JitBlock)
    (l : list (Z * ptr)) (acc : A) : Result A :=
  match l with
  | [] => Ok acc
  | e :: l' =>
      match nd !! e.2 with
      | None => UB
      | Some b => run_on_blocks f nd l' (f b acc)
      end
  end.

Definition RunOnBlocks {A : Type} (f : JitBlock -> A -> A) (s : Cache) (acc : A)
    : Result A :=
  run_on_blocks f (nodes s) (block_map s) acc.

(** ** Vocabulary of the further properties *)

(** The entries of [block_map] come in the order of their keys. *)
Definition key_ordered (l : list (Z * ptr)) : Prop :=
  StronglySorted (fun e1 e2 => e1.1 <= e2.1) l.

(** The valid-block set has the bit of every cache line in which a block
    has code. *)
Definition valid_block_covers (s : Cache) : Prop :=
  forall p b addr, nodes s !! p = Some b -> addr ∈ physical_addresses b ->
    addr / 32 ∈ valid_block s.

(** No block of [s] has code in [[a, a + len)]. *)
Definition range_clear (s : Cache) (a len : Z) : Prop :=
  forall p b, nodes s !! p = Some b -> ~ footprint_overlaps b a len.

(** [b'] is [b] with some of its exits linked or unlinked: only [linkData]
    differs, and the exits lead where they led. *)
Definition relinked_block (b b' : JitBlock) : Prop :=
  b' = set_linkData (linkData b') b /\
  exitAddress <$> linkData b' = exitAddress <$> linkData b.

(** [s'] is [s] with some exits of some blocks linked or unlinked: nothing
    but the blocks differs, and they only as [relinked_block] allows. *)
Definition relinked (s s' : Cache) : Prop :=
  s' = set_nodes (fun _ => nodes s') s /\
  forall q, option_Forall2 relinked_block (nodes s !! q) (nodes s' !! q).

Section Relinking.

Context `{Constants}.

(** Block [b] after the loop of [LinkBlockExits] has run over its exits in
    cache [s]. *)
Definition relink_exits (m : Machine) (s : Cache) (b : JitBlock) : JitBlock :=
  set_linkData (map (link_exit m s (msrBits b)) (linkData b)) b.

End Relinking.

Section Units.

Context `{Constants}.

(** The pieces [chunks] are cut at the boundaries of the translation units.
    The unit of an address is the aligned block of [2 ^ shift] bytes it
    lies in, where [shift] is the one [InvalidateICache] takes for the
    translation of the address (a BAT block or a page). Every piece but the
    last is not empty and ends where the unit of its first address ends;
    the last byte of the last piece is in the unit of its first byte. *)
Fixpoint cut_at_units (m : Machine) (chunks : list (Z * Z)) : Prop :=
  match chunks with
  | [] => True
  | (a, l) :: rest =>
      let unit := 2 ^ page_shift (JitCache_TranslateAddress m a) in
      match rest with
      | [] => wrap (a + l - 1) / unit = a / unit
      | _ :: _ => 0 < l <= unit /\ (a + l) mod unit = 0
      end /\
      cut_at_units m rest
  end.

End Units.

(** A map of buckets that holds no empty bucket. *)
Definition no_empty_bucket (lt : gmap Z (gset ptr)) : Prop :=
  forall a X, lt !! a = Some X -> X <> ∅.

(** ** Further concrete caches *)

(** A block at 0x1000 that has been allocated and filled in by the code
    generator with one exit to 0x2000, and is not finalized yet. *)
Definition allocated_block : Cache :=
  state_of
    (emit_code 0%nat 0x7000 0x7010 64 [0x2000]
       (AllocateBlock (H := dolphin) (machine 0x1000 0x30) 0x1000 empty_cache).2).

(** One block whose code is in the last cache line of the address space. *)
Definition top_line_block : Cache :=
  compile_block 0x30 0xFFFFFFE0 0x7010 [] true {[0xFFFFFFE0]} empty_cache.

(** [dangling_exit], then a block at 0x2000 that is finalized without
    [block_link]: the exit of block 0 to 0x2000 could be linked, and is
    not. *)
Definition unlinked_pair : Cache :=
  compile_block 0x30 0x2000 0x8010 [] false {[0x2000]} dangling_exit.

(** [dangling_exit], then a block at 0x2000 that has been allocated and
    filled in with one exit to 0x1000, and is not finalized yet: block 0
    waits for 0x2000 to be compiled. *)
Definition waiting_source : Cache :=
  state_of
    (emit_code 1%nat 0x8000 0x8010 64 [0x1000]
       (AllocateBlock (H := dolphin) (machine 0x2000 0x30) 0x2000 dangling_exit).2).


(** * Properties *)

(** ** Ordered containers *)

Lemma elem_of_ascending (s : gset Z) (x : Z) : x ∈ ascending s <-> x ∈ s.
Proof.
  unfold ascending. rewrite merge_sort_Permutation. apply elem_of_elements.
Qed.

Lemma elem_of_by_address (s : gset nat) (x : nat) : x ∈ by_address s <-> x ∈ s.
Proof.
  unfold by_address. rewrite merge_sort_Permutation. apply elem_of_elements.
Qed.

Lemma head_filter_sorted (x : Z) (l : list Z) :
  StronglySorted Z.le l ->
  match head (filter (fun y => x <= y) l) with
  | Some y => y ∈ l /\ x <= y /\ forall z, z ∈ l -> x <= z -> y <= z
  | None => forall z, z ∈ l -> z < x
  end.
Proof.
  induction 1 as [|a l Hs IH Hall]; simpl.
  - intros z Hz. inversion Hz.
  - rewrite filter_cons. destruct (decide (x <= a)) as [Hxa|Hxa]; simpl.
    + split; [left|split; [done|]]. intros z Hz _.
      apply elem_of_cons in Hz as [->|Hz]; [lia|].
      rewrite Forall_forall in Hall. by apply Hall.
    + destruct (head (filter (fun y => x <= y) l)) as [y|].
      * destruct IH as (Hy & Hxy & Hmin). split; [by right|split; [done|]].
        intros z Hz Hxz. apply elem_of_cons in Hz as [->|Hz]; [lia|]. by apply Hmin.
      * intros z Hz. apply elem_of_cons in Hz as [->|Hz]; [lia|]. by apply IH.
Qed.

Lemma lower_bound_spec (s : gset Z) (x : Z) :
  match lower_bound s x with
  | Some y => y ∈ s /\ x <= y /\ forall z, z ∈ s -> x <= z -> y <= z
  | None => forall z, z ∈ s -> z < x
  end.
Proof.
  unfold lower_bound.
  pose proof (head_filter_sorted x (ascending s)) as Hh.
  assert (StronglySorted Z.le (ascending s)) as Hs
    by (apply StronglySorted_merge_sort; apply _).
  specialize (Hh Hs).
  destruct (head _) as [y|].
  - destruct Hh as (Hy & Hxy & Hmin). rewrite elem_of_ascending in Hy.
    split; [done|split; [done|]]. intros z Hz. apply Hmin. by apply elem_of_ascending.
  - intros z Hz. apply Hh. by apply elem_of_ascending.
Qed.

Lemma lower_bound_Some (s : gset Z) (x y : Z) :
  lower_bound s x = Some y <->
  y ∈ s /\ x <= y /\ forall z, z ∈ s -> x <= z -> y <= z.
Proof.
  pose proof (lower_bound_spec s x) as Hs. split.
  - intros Heq. by rewrite Heq in Hs.
  - intros (Hy & Hxy & Hmin). destruct (lower_bound s x) as [y'|].
    + destruct Hs as (Hy' & Hxy' & Hmin'). f_equal.
      specialize (Hmin y' Hy' Hxy'). specialize (Hmin' y Hy Hxy). lia.
    + specialize (Hs y Hy). lia.
Qed.

Lemma lower_bound_None (s : gset Z) (x : Z) :
  lower_bound s x = None <-> forall z, z ∈ s -> z < x.
Proof.
  pose proof (lower_bound_spec s x) as Hs. split.
  - intros Heq. by rewrite Heq in Hs.
  - intros Hall. destruct (lower_bound s x) as [y|]; [|done].
    destruct Hs as (Hy & Hxy & _). specialize (Hall y Hy). lia.
Qed.

(** [lower_bound(a) != lower_bound(b)], for [a <= b], says that the set has
    an element in [[a, b)]. *)
Lemma lower_bound_differ (s : gset Z) (a b : Z) :
  a <= b ->
  lower_bound s a <> lower_bound s b <-> exists x, x ∈ s /\ a <= x < b.
Proof.
  intros Hab.
  pose proof (lower_bound_spec s a) as Ha. pose proof (lower_bound_spec s b) as Hb.
  split.
  - intros Hne. destruct (lower_bound s a) as [ya|] eqn:Ea.
    + destruct Ha as (Hya & Haya & Hmina). destruct (decide (ya < b)) as [?|Hge].
      * exists ya. split; [done|lia].
      * exfalso. apply Hne. symmetry. apply lower_bound_Some.
        split; [done|split; [lia|]]. intros z Hz Hbz. apply Hmina; [done|lia].
    + exfalso. apply Hne. symmetry. apply lower_bound_None.
      intros z Hz. specialize (Ha z Hz). lia.
  - intros (x & Hx & Hax) Heq. destruct (lower_bound s a) as [ya|] eqn:Ea.
    + destruct Ha as (Hya & Haya & Hmina). rewrite <- Heq in Hb.
      destruct Hb as (_ & Hbya & _). specialize (Hmina x Hx). lia.
    + specialize (Ha x Hx). lia.
Qed.

(** ** Lookup *)

Section Lookup.

Context `{Constants}.

Lemma scan_equal_range_Some nd key addr msrm l p :
  scan_equal_range nd key addr msrm l = Some p ->
  (key, p) ∈ l /\
  exists b, nd !! p = Some b /\ effectiveAddress b = addr /\ msrBits b = msrm.
Proof.
  induction l as [|[k q] l IH]; simpl; [done|].
  case_bool_decide as Hk.
  - destruct (nd !! q) as [b|] eqn:Hq.
    + destruct (bool_decide (effectiveAddress b = addr)) eqn:He;
        destruct (bool_decide (msrBits b = msrm)) eqn:Hm; simpl;
        try (intros Hs; destruct (IH Hs) as [Hin Hb]; split; [by right|done]).
      intros [= <-]. apply bool_decide_eq_true in He, Hm. subst k.
      split; [left|]. eauto.
    + intros Hs. destruct (IH Hs) as [Hin Hb]. split; [by right|done].
  - intros Hs. destruct (IH Hs) as [Hin Hb]. split; [by right|done].
Qed.

Lemma scan_equal_range_None nd key addr msrm l p b :
  scan_equal_range nd key addr msrm l = None ->
  (key, p) ∈ l -> nd !! p = Some b ->
  ~ (effectiveAddress b = addr /\ msrBits b = msrm).
Proof.
  induction l as [|[k q] l IH]; simpl; intros Hs Hin Hb.
  - inversion Hin.
  - apply elem_of_cons in Hin as [[= <- <-]|Hin].
    + rewrite bool_decide_true in Hs by done. rewrite Hb in Hs.
      intros [He Hm]. rewrite !bool_decide_true in Hs by done. done.
    + apply IH; [|done..].
      case_bool_decide; [|done]. destruct (nd !! q) as [b'|]; [|done].
      destruct (_ && _); [done|done].
Qed.

(** The key under which [GetBlockFromStartAddress] searches, when it
    searches at all. *)
Lemma GetBlockFromStartAddress_Some m addr msr s p :
  GetBlockFromStartAddress m addr msr s = Some p ->
  exists b, nodes s !! p = Some b /\ matches b addr msr /\
    ((UReg_MSR_IR msr = true /\ valid (JitCache_TranslateAddress m addr) = true /\
      (address (JitCache_TranslateAddress m addr), p) ∈ block_map s) \/
     (UReg_MSR_IR msr = false /\ (addr, p) ∈ block_map s)).
Proof.
  unfold GetBlockFromStartAddress, matches.
  destruct (UReg_MSR_IR msr).
  - destruct (valid (JitCache_TranslateAddress m addr)); simpl; [|done].
    intros Hs. apply scan_equal_range_Some in Hs as (Hin & b & Hb & He & Hm).
    exists b. split; [done|]. split; [done|]. left. done.
  - intros Hs. apply scan_equal_range_Some in Hs as (Hin & b & Hb & He & Hm).
    exists b. split; [done|]. split; [done|]. right. done.
Qed.

Lemma GetBlockFromStartAddress_unmapped m addr msr s :
  UReg_MSR_IR msr = true -> valid (JitCache_TranslateAddress m addr) = false ->
  GetBlockFromStartAddress m addr msr s = None.
Proof. unfold GetBlockFromStartAddress. by intros -> ->. Qed.

Lemma elem_of_multimap_emplace k p l e :
  e ∈ multimap_emplace k p l <-> e = (k, p) \/ e ∈ l.
Proof.
  induction l as [|e' l IH]; simpl.
  - rewrite list_elem_of_singleton. split; [by left|]. intros [?|Hin]; [done|inversion Hin].
  - case_bool_decide; rewrite !elem_of_cons; [rewrite IH|]; tauto.
Qed.

Lemma length_multimap_emplace k p l :
  length (multimap_emplace k p l) = S (length l).
Proof.
  induction l as [|e' l IH]; simpl; [done|]. case_bool_decide; simpl; congruence.
Qed.

(** C2, as the code has it: [AllocateBlock] does not look at the [valid]
    flag of the translation. Whatever the translation says, it adds a node
    keyed by the [address] field of the result, stamped with the effective
    address and the masked [MSR], and returns it; the entries that were
    there stay. *)
Theorem AllocateBlock_always_inserts m em_address s :
  let physical_address := address (JitCache_TranslateAddress m em_address) in
  let r := AllocateBlock m em_address s in
  r.1 = Some (next_node s) /\
  (forall e, e ∈ block_map r.2 <-> e = (physical_address, next_node s) \/ e ∈ block_map s) /\
  length (block_map r.2) = S (length (block_map s)) /\
  exists b, nodes r.2 !! next_node s = Some b /\
    effectiveAddress b = em_address /\ physicalAddress b = physical_address /\
    msrBits b = Z.land (MSR_Hex m) JIT_CACHE_MSR_MASK /\ linkData b = [].
Proof.
  simpl. split; [done|]. split; [|split].
  - intros e. apply elem_of_multimap_emplace.
  - apply length_multimap_emplace.
  - eexists. split; [apply lookup_insert_eq|]. done.
Qed.

End Lookup.

(** ** Invalidation of one piece of a range *)

Section Invalidation.

Context `{Constants}.

(** C7: when the piece is one aligned cache line whose bit in the valid-block
    set is clear, [InvalidateICacheInternal] returns the cache as it found
    it. Nothing is added to the trace, so [ErasePhysicalRange] is not
    entered and no address is erased from the sets of [m_jit.js]; the nodes
    stay, so no block is destroyed. [InvalidateICacheLine] takes this path
    whenever the line it is given translates to such a line. *)
Theorem InvalidateICacheInternal_clear_line physical_address address forced s :
  Z.land physical_address 0x1f = 0 ->
  physical_address / 32 ∉ valid_block s ->
  InvalidateICacheInternal physical_address address 32 forced s = Ok s /\
  forall m a,
    let t := JitCache_TranslateAddress m (Z.land a (u32_not 0x1f)) in
    valid t = true -> result_address t = physical_address ->
    InvalidateICacheLine m a s = Ok s.
Proof.
  intros Hal Hbit.
  assert (forall a' f', InvalidateICacheInternal physical_address a' 32 f' s = Ok s) as Hi.
  { intros a' f'. unfold InvalidateICacheInternal.
    rewrite (bool_decide_true (32 = 32)) by done.
    rewrite (bool_decide_true (Z.land physical_address 31 = 0)) by done.
    cbn [andb]. by rewrite bool_decide_false by done. }
  split; [apply Hi|]. intros m a t Hv Ha. unfold InvalidateICacheLine.
  fold t. rewrite Hv, Ha. apply Hi.
Qed.

End Invalidation.


(** ** Arithmetic on [u32] *)

Lemma wrap_small x : is_u32 x -> wrap x = x.
Proof. intros Hx. apply Z.mod_small. exact Hx. Qed.

Lemma wrap_is_u32 x : is_u32 (wrap x).
Proof. apply Z.mod_pos_bound. reflexivity. Qed.

Lemma wrap_above x : 2 ^ 32 <= x < 2 * 2 ^ 32 -> wrap x = x - 2 ^ 32.
Proof.
  intros Hx. unfold wrap. symmetry. apply (Z.mod_unique x (2 ^ 32) 1); lia.
Qed.

Lemma wrap_below x : - 2 ^ 32 <= x < 0 -> wrap x = x + 2 ^ 32.
Proof.
  intros Hx. unfold wrap. symmetry. apply (Z.mod_unique x (2 ^ 32) (-1)); lia.
Qed.

(** [x & ~(2^k - 1)] rounds [x] down to a multiple of [2^k]. *)
Lemma land_align k x :
  0 <= k <= 32 -> is_u32 x ->
  Z.land x (u32_not (2 ^ k - 1)) = x - x mod 2 ^ k.
Proof.
  intros Hk Hx. unfold u32_not, wrap.
  replace (2 ^ k - 1) with (Z.ones k) by (rewrite Z.ones_equiv; lia).
  rewrite <- (Z.land_ones _ 32) by lia.
  rewrite (Z.land_comm (Z.lnot _)), Z.land_assoc, (Z.land_ones x 32) by lia.
  rewrite (Z.mod_small x) by exact Hx.
  rewrite <- Z.ldiff_land, Z.ldiff_ones_r by lia.
  rewrite Z.shiftr_div_pow2, Z.shiftl_mul_pow2 by lia.
  rewrite Z.mod_eq by lia. lia.
Qed.

Lemma floor_unique P q x :
  0 < P -> P * q <= x < P * (q + 1) -> x - x mod P = P * q.
Proof.
  intros HP Hx. rewrite <- (Z.mod_unique x P q (x - P * q)); lia.
Qed.

Lemma pow2_split shift : 0 <= shift <= 32 -> 2 ^ 32 = 2 ^ shift * 2 ^ (32 - shift).
Proof. intros Hs. rewrite <- Z.pow_add_r by lia. f_equal. lia. Qed.

Section Splitting.

Context `{Constants}.

Lemma page_mask_align shift x :
  0 <= shift < 32 -> is_u32 x ->
  Z.land x (page_mask shift) = x - x mod 2 ^ shift.
Proof.
  intros Hs Hx. unfold page_mask. rewrite Z.shiftl_1_l.
  assert (0 < 2 ^ shift < 2 ^ 32) as HP.
  { split; [apply Z.pow_pos_nonneg; lia|apply Z.pow_lt_mono_r; lia]. }
  rewrite (wrap_small (2 ^ shift)) by (unfold is_u32; lia).
  rewrite (wrap_small (2 ^ shift - 1)) by (unfold is_u32; lia).
  apply land_align; [lia|done].
Qed.

(** The piece cut off at a unit boundary runs from [address] to the end of
    its unit. *)
Lemma length_this_page_eq shift address :
  0 <= shift < 32 -> is_u32 address ->
  length_this_page shift address = 2 ^ shift - address mod 2 ^ shift.
Proof.
  intros Hs Ha. unfold length_this_page. rewrite Z.shiftl_1_l.
  pose proof (pow2_split shift ltac:(lia)) as H32.
  set (P := 2 ^ shift) in *. set (Q := 2 ^ (32 - shift)) in *.
  assert (0 < P) as HP by (apply Z.pow_pos_nonneg; lia).
  assert (0 < Q) as HQ by (apply Z.pow_pos_nonneg; lia).
  assert (P < 2 ^ 32) as HP32 by (apply Z.pow_lt_mono_r; lia).
  rewrite (wrap_small P) by (unfold is_u32; lia).
  pose proof (Z.div_mod address P ltac:(lia)) as Hdm.
  pose proof (Z.mod_pos_bound address P HP) as Hr.
  set (q := address / P) in *. set (r := address mod P) in *.
  unfold is_u32 in Ha.
  assert (q < Q) as HqQ by nia.
  assert (0 <= q) as Hq0 by nia.
  rewrite page_mask_align by (done || apply wrap_is_u32).
  destruct (decide (address + P < 2 ^ 32)) as [Hlt|Hge].
  - rewrite (wrap_small (address + P)) by (unfold is_u32; lia).
    rewrite (floor_unique P (q + 1)) by lia.
    rewrite wrap_small; [lia|unfold is_u32; lia].
  - rewrite (wrap_above (address + P)) by lia.
    assert (q = Q - 1) as Hq by nia.
    rewrite (floor_unique P 0) by nia.
    rewrite wrap_below by lia. nia.
Qed.

(** The step of the range-splitting loop: when the range ends in another
    unit than it starts in, the piece cut off is not empty and is shorter
    than the range. *)
Lemma length_this_page_bounds shift address length :
  0 <= shift < 32 -> is_u32 address -> is_u32 length -> 0 < length ->
  same_page shift address length = false ->
  0 < length_this_page shift address < length.
Proof.
  intros Hs Ha Hl Hpos Hsame.
  rewrite length_this_page_eq by done.
  unfold same_page in Hsame. apply bool_decide_eq_false in Hsame.
  pose proof (pow2_split shift ltac:(lia)) as H32.
  set (P := 2 ^ shift) in *. set (Q := 2 ^ (32 - shift)) in *.
  assert (0 < P) as HP by (apply Z.pow_pos_nonneg; lia).
  assert (0 < Q) as HQ by (apply Z.pow_pos_nonneg; lia).
  pose proof (Z.div_mod address P ltac:(lia)) as Hdm.
  pose proof (Z.mod_pos_bound address P HP) as Hr.
  set (q := address / P) in *. set (r := address mod P) in *.
  unfold is_u32 in Ha, Hl.
  assert (q < Q) as HqQ by nia.
  split; [lia|].
  destruct (decide (length <= P - r)) as [Hle|]; [|lia].
  exfalso. apply Hsame.
  rewrite (wrap_small (length - 1)) by (unfold is_u32; lia).
  assert (address + (length - 1) < 2 ^ 32) as Hno by nia.
  rewrite (wrap_small (address + (length - 1))) by (unfold is_u32; lia).
  rewrite !page_mask_align by (done || unfold is_u32; lia).
  fold P. rewrite (floor_unique P q address), (floor_unique P q) by lia. done.
Qed.

Lemma page_shift_range t :
  0 <= BAT_INDEX_SHIFT < 32 -> 0 <= HW_PAGE_INDEX_SHIFT < 32 ->
  0 <= page_shift t < 32.
Proof. intros Hb Hp. unfold page_shift. by destruct (_ && _). Qed.

(** The loop with a [visit] that only takes note of the pieces: enough fuel
    gives the list, and the list cuts the range up. *)
Lemma InvalidateICache_loop_chunks fuel m address length acc :
  0 <= BAT_INDEX_SHIFT < 32 -> 0 <= HW_PAGE_INDEX_SHIFT < 32 ->
  is_u32 address -> is_u32 length -> (Z.to_nat length <= fuel)%nat ->
  exists chunks,
    InvalidateICache_loop (fun _ a l acc => Ok (acc ++ [(a, l)])) fuel m address length acc
      = Ok (acc ++ chunks) /\
    partitions address length chunks.
Proof.
  intros Hb Hp. revert address length acc.
  induction fuel as [|fuel IH]; intros address length acc Ha Hl Hfuel.
  - assert (length = 0) as -> by (unfold is_u32 in Hl; lia).
    exists []. simpl. by rewrite app_nil_r.
  - cbn [InvalidateICache_loop]. case_bool_decide as Hpos.
    + set (shift := page_shift (JitCache_TranslateAddress m address)).
      assert (0 <= shift < 32) as Hs by by apply page_shift_range.
      destruct (same_page shift address length) eqn:Hsame.
      * exists [(address, length)]. split; [done|]. simpl.
        split; [done|]. split; [lia|]. lia.
      * pose proof (length_this_page_bounds shift address length Hs Ha Hl
                      ltac:(lia) Hsame) as Hltp.
        set (ltp := length_this_page shift address) in *.
        cbn [bind].
        unfold is_u32 in Hl.
        rewrite (wrap_small (length - ltp)) by (unfold is_u32; lia).
        destruct (IH (wrap (address + ltp)) (length - ltp) (acc ++ [(address, ltp)]))
          as (chunks & Hrun & Hpart);
          [apply wrap_is_u32|unfold is_u32; lia|lia|].
        exists ((address, ltp) :: chunks). split.
        -- rewrite Hrun. by rewrite <- app_assoc.
        -- simpl. split; [done|]. split; [lia|done].
    + exists []. rewrite app_nil_r. split; [done|]. simpl. unfold is_u32 in Hl. lia.
Qed.

(** Whatever [visit] does with the pieces, the loop runs it on the pieces of
    that list, in order. *)
Lemma InvalidateICache_loop_visit {A : Type}
    (visit : TranslateResult -> Z -> Z -> A -> Result A) fuel m :
  forall address length acc chunks (s : A),
  InvalidateICache_loop (fun _ a l acc => Ok (acc ++ [(a, l)])) fuel m address length acc
    = Ok (acc ++ chunks) ->
  InvalidateICache_loop visit fuel m address length s = visit_chunks visit m chunks s.
Proof.
  induction fuel as [|fuel IH]; intros address length acc chunks s.
  - cbn [InvalidateICache_loop]. case_bool_decide; [done|].
    intros [= Heq]. rewrite <- (app_nil_r acc) in Heq at 1.
    apply app_inv_head in Heq as <-. done.
  - cbn [InvalidateICache_loop]. case_bool_decide.
    + destruct (same_page _ _ _).
      * intros [= Heq]. apply app_inv_head in Heq as <-. simpl.
        by destruct (visit _ _ _ _).
      * cbn [bind]. intros Hrun.
        set (ltp := length_this_page _ _) in *.
        assert (exists rest, chunks = (address, ltp) :: rest) as [rest ->].
        { clear IH. revert Hrun.
          generalize (wrap (address + ltp)) (wrap (length - ltp)).
          intros a' l' Hrun.
          assert (forall f a l (acc0 : list (Z * Z)) r,
                    InvalidateICache_loop (fun _ a l acc => Ok (acc ++ [(a, l)]))
                      f m a l acc0 = Ok r -> exists ext, r = acc0 ++ ext) as Hext.
          { clear. induction f as [|f IHf]; intros a l acc0 r;
              cbn [InvalidateICache_loop]; case_bool_decide; try done.
            - intros [= <-]. exists []. by rewrite app_nil_r.
            - destruct (same_page _ _ _).
              + intros [= <-]. eauto.
              + cbn [bind]. intros Hr. apply IHf in Hr as [ext ->].
                rewrite <- app_assoc. eauto.
            - intros [= <-]. exists []. by rewrite app_nil_r. }
          destruct (Hext _ _ _ _ _ Hrun) as [ext Hext'].
          rewrite <- app_assoc in Hext'. apply app_inv_head in Hext'.
          simpl in Hext'. eauto. }
        simpl. destruct (visit _ address ltp s) as [s1| |]; cbn [bind]; [|done..].
        apply (IH _ _ (acc ++ [(address, ltp)])).
        rewrite Hrun. by rewrite <- app_assoc.
    + intros [= Heq]. rewrite <- (app_nil_r acc) in Heq at 1.
      apply app_inv_head in Heq as <-. done.
Qed.

End Splitting.


(** ** Buckets *)

Lemma bucket_insert_key (m : gmap Z (gset nat)) k k' X :
  bucket (<[k := X]> m) k' = if decide (k = k') then X else bucket m k'.
Proof.
  unfold bucket. rewrite lookup_insert. by destruct (decide (k = k')).
Qed.

Lemma bucket_delete (m : gmap Z (gset nat)) k k' :
  bucket (delete k m) k' = if decide (k = k') then ∅ else bucket m k'.
Proof.
  unfold bucket. rewrite lookup_delete. by destruct (decide (k = k')).
Qed.

Lemma elem_of_bucket_insert (m : gmap Z (gset nat)) k p k' q :
  q ∈ bucket (bucket_insert k p m) k' <-> (k = k' /\ q = p) \/ q ∈ bucket m k'.
Proof.
  unfold bucket_insert. rewrite bucket_insert_key.
  destruct (decide (k = k')) as [->|]; set_solver.
Qed.

Lemma elem_of_bucket_erase (m : gmap Z (gset nat)) k p k' q :
  q ∈ bucket (bucket_erase k p m) k' <-> q ∈ bucket m k' /\ ~ (k = k' /\ q = p).
Proof.
  unfold bucket_erase. rewrite bucket_insert_key.
  destruct (decide (k = k')) as [->|]; set_solver.
Qed.

Lemma elem_of_bucket_Some (m : gmap Z (gset nat)) k q :
  q ∈ bucket m k -> is_Some (m !! k).
Proof.
  unfold bucket. destruct (m !! k); [eauto|]. simpl. set_solver.
Qed.

Lemma elem_of_links_to_erase p lt e a q :
  q ∈ bucket (links_to_erase p lt e) a <->
  q ∈ bucket lt a /\ ~ (a = exitAddress e /\ q = p).
Proof.
  unfold links_to_erase. destruct (lt !! exitAddress e) as [srcs|] eqn:Hl.
  - case_bool_decide as He.
    + rewrite bucket_delete. destruct (decide (exitAddress e = a)) as [<-|].
      * unfold bucket. rewrite Hl. simpl. set_solver.
      * naive_solver.
    + rewrite bucket_insert_key. destruct (decide (exitAddress e = a)) as [<-|].
      * unfold bucket. rewrite Hl. simpl. set_solver.
      * naive_solver.
  - split; [|naive_solver]. intros Hq. split; [done|]. intros [-> ->].
    unfold bucket in Hq. rewrite Hl in Hq. simpl in Hq. set_solver.
Qed.

Lemma elem_of_foldl_links_to_erase p l lt a q :
  q ∈ bucket (foldl (links_to_erase p) lt l) a <->
  q ∈ bucket lt a /\ ~ (a ∈ exitAddress <$> l /\ q = p).
Proof.
  revert lt. induction l as [|e l IH]; intros lt; simpl.
  - split; [|naive_solver]. intros Hq. split; [done|]. intros [Hin _]. inversion Hin.
  - rewrite IH, elem_of_links_to_erase, elem_of_cons. naive_solver.
Qed.

Lemma elem_of_foldl_bucket_insert p (l : list LinkData) lt a q :
  q ∈ bucket (foldl (fun lt e => bucket_insert (exitAddress e) p lt) lt l) a <->
  (a ∈ exitAddress <$> l /\ q = p) \/ q ∈ bucket lt a.
Proof.
  revert lt. induction l as [|e l IH]; intros lt; simpl.
  - split; [by right|]. intros [[Hin _]|?]; [inversion Hin|done].
  - rewrite IH, elem_of_bucket_insert, elem_of_cons. naive_solver.
Qed.

(** ** Taking blocks out preserves the consistency of the indices *)

Section Shrinking.

Context `{Constants}.

Lemma exit_unlinked_refl D e : exitTarget e = None -> exit_unlinked D e e.
Proof. intros He. split; [done|]. split; [done|]. intros d. by rewrite He. Qed.

Lemma block_unlinked_static D b1 b2 :
  block_unlinked D b1 b2 ->
  effectiveAddress b2 = effectiveAddress b1 /\
  physicalAddress b2 = physicalAddress b1 /\
  msrBits b2 = msrBits b1 /\
  physical_addresses b2 = physical_addresses b1 /\
  normalEntry b2 = normalEntry b1 /\
  checkedEntry b2 = checkedEntry b1 /\
  fast_block_map_index b2 = fast_block_map_index b1 /\
  exitAddress <$> linkData b2 = exitAddress <$> linkData b1.
Proof.
  intros [Hb Hf]. repeat (split; [by rewrite Hb|]).
  clear Hb. induction Hf as [|e1 e2 l1 l2 (He & _) _ IH]; [done|].
  rewrite !fmap_cons. by rewrite He, IH.
Qed.

Lemma block_unlinked_exit D b1 b2 e2 :
  block_unlinked D b1 b2 -> e2 ∈ linkData b2 ->
  exists e1, e1 ∈ linkData b1 /\ exit_unlinked D e1 e2.
Proof.
  intros [_ Hf] He. apply list_elem_of_lookup in He as [i Hi].
  destruct (Forall2_lookup_r _ _ _ _ _ Hf Hi) as (e1 & H1 & Hr).
  exists e1. split; [|done]. apply list_elem_of_lookup. eauto.
Qed.

Lemma shrunk_node_Some D s s' q b2 :
  shrunk D s s' -> nodes s' !! q = Some b2 ->
  (q ∉ D) /\ exists b1, nodes s !! q = Some b1 /\ block_unlinked D b1 b2.
Proof.
  intros Hs Hq. pose proof (shrunk_nodes _ _ _ Hs q) as Hn.
  destruct (decide (q ∈ D)); [congruence|]. split; [done|].
  rewrite Hq in Hn. inversion Hn; subst. eauto.
Qed.

Lemma shrunk_node_stays D s s' q b1 :
  shrunk D s s' -> nodes s !! q = Some b1 -> q ∉ D ->
  exists b2, nodes s' !! q = Some b2 /\ block_unlinked D b1 b2.
Proof.
  intros Hs Hq HD. pose proof (shrunk_nodes _ _ _ Hs q) as Hn.
  destruct (decide (q ∈ D)); [done|].
  rewrite Hq in Hn. inversion Hn; subst. eauto.
Qed.

Lemma wf_shrunk D s s' : wf s -> shrunk D s s' -> wf s'.
Proof.
  intros Hwf Hs. split.
  - eapply sublist_NoDup; [apply (wf_nodup _ Hwf)|].
    apply fmap_sublist, (shrunk_sublist _ _ _ Hs).
  - intros k p. rewrite (shrunk_block_map _ _ _ Hs), (wf_store _ Hwf). simpl. split.
    + intros [(b1 & Hb1 & Hk) HD].
      destruct (shrunk_node_stays _ _ _ _ _ Hs Hb1 HD) as (b2 & Hb2 & Hu).
      exists b2. split; [done|]. apply block_unlinked_static in Hu. naive_solver.
    + intros (b2 & Hb2 & Hk).
      destruct (shrunk_node_Some _ _ _ _ _ Hs Hb2) as (HD & b1 & Hb1 & Hu).
      split; [|done]. exists b1. split; [done|].
      apply block_unlinked_static in Hu. naive_solver.
  - intros p [b2 Hb2].
    destruct (shrunk_node_Some _ _ _ _ _ Hs Hb2) as (HD & b1 & Hb1 & Hu).
    rewrite (shrunk_next _ _ _ Hs). apply (wf_fresh _ Hwf). eauto.
  - intros i p Hf. apply (shrunk_fast _ _ _ Hs) in Hf as [Hf HD].
    destruct (wf_fast _ Hwf _ _ Hf) as (b1 & Hb1 & Hi & Hidx).
    destruct (shrunk_node_stays _ _ _ _ _ Hs Hb1 HD) as (b2 & Hb2 & Hu).
    exists b2. split; [done|]. apply block_unlinked_static in Hu.
    destruct Hu as (-> & _ & _ & _ & _ & _ & -> & _). done.
  - intros a p Hp. apply (shrunk_links _ _ _ Hs) in Hp as [Hp HD].
    destruct (wf_links _ Hwf _ _ Hp) as (b1 & Hb1 & Ha & Hreg).
    destruct (shrunk_node_stays _ _ _ _ _ Hs Hb1 HD) as (b2 & Hb2 & Hu).
    exists b2. split; [done|]. split.
    + apply block_unlinked_static in Hu.
      destruct Hu as (_ & _ & _ & _ & _ & _ & _ & ->). done.
    + intros e2 He2. destruct (block_unlinked_exit _ _ _ _ Hu He2) as (e1 & He1 & Hr).
      apply (shrunk_links _ _ _ Hs). split; [|done].
      destruct Hr as (-> & _). by apply Hreg.
  - intros p b2 e2 Hb2 He2 Hst.
    destruct (shrunk_node_Some _ _ _ _ _ Hs Hb2) as (HD & b1 & Hb1 & Hu).
    destruct (block_unlinked_exit _ _ _ _ Hu He2) as (e1 & He1 & Hr).
    apply (shrunk_links _ _ _ Hs). split; [|done].
    destruct Hr as (-> & Hst1 & _). apply (wf_status _ Hwf _ _ _ Hb1 He1). auto.
  - intros p b2 e2 d Hb2 He2 Ht.
    destruct (shrunk_node_Some _ _ _ _ _ Hs Hb2) as (HD & b1 & Hb1 & Hu).
    destruct (block_unlinked_exit _ _ _ _ Hu He2) as (e1 & He1 & Hr).
    destruct Hr as (_ & _ & Htg). destruct (Htg d Ht) as [-> HdD].
    destruct (wf_target _ Hwf _ _ _ _ Hb1 He1 Ht) as (Hst & bd & Hbd & Hea & Hmsr).
    split; [done|].
    destruct (shrunk_node_stays _ _ _ _ _ Hs Hbd HdD) as (bd2 & Hbd2 & Hud).
    exists bd2. split; [done|].
    apply block_unlinked_static in Hu, Hud. naive_solver congruence.
  - intros k p Hp. apply (shrunk_range _ _ _ Hs) in Hp as [Hp HD].
    destruct (wf_range _ Hwf _ _ Hp) as (b1 & Hb1 & addr & Ha & Hk).
    destruct (shrunk_node_stays _ _ _ _ _ Hs Hb1 HD) as (b2 & Hb2 & Hu).
    exists b2. split; [done|]. exists addr. apply block_unlinked_static in Hu.
    destruct Hu as (_ & _ & _ & -> & _). done.
  - intros p b2 addr Hb2 Ha.
    destruct (shrunk_node_Some _ _ _ _ _ Hs Hb2) as (HD & b1 & Hb1 & Hu).
    pose proof (block_unlinked_static _ _ _ Hu) as (_ & _ & _ & Hfp & _).
    rewrite Hfp in Ha. destruct (wf_footprint _ Hwf _ _ _ Hb1 Ha) as [Hu32 Hin].
    split; [done|]. apply (shrunk_range _ _ _ Hs). done.
  - intros p b2 Hb2.
    destruct (shrunk_node_Some _ _ _ _ _ Hs Hb2) as (HD & b1 & Hb1 & Hu).
    apply block_unlinked_static in Hu. destruct Hu as (_ & _ & -> & _).
    by apply (wf_msr _ Hwf p).
Qed.

Lemma exit_unlinked_trans D1 D2 e1 e2 e3 :
  exit_unlinked D1 e1 e2 -> exit_unlinked D2 e2 e3 -> exit_unlinked (D1 ∪ D2) e1 e3.
Proof.
  intros (Ha1 & Hs1 & Ht1) (Ha2 & Hs2 & Ht2). split; [congruence|]. split; [auto|].
  intros d Hd. destruct (Ht2 d Hd) as [-> Hd2]. destruct (Ht1 d Hd) as [-> Hd1].
  split; [done|]. set_solver.
Qed.

Lemma block_unlinked_trans D1 D2 b1 b2 b3 :
  block_unlinked D1 b1 b2 -> block_unlinked D2 b2 b3 ->
  block_unlinked (D1 ∪ D2) b1 b3.
Proof.
  intros [H12 Hf12] [H23 Hf23]. split.
  - rewrite H23, H12. done.
  - eapply Forall2_trans; [|exact Hf12|exact Hf23].
    intros e1 e2 e3. apply exit_unlinked_trans.
Qed.

Lemma shrunk_trans D1 D2 s1 s2 s3 :
  shrunk D1 s1 s2 -> shrunk D2 s2 s3 -> shrunk (D1 ∪ D2) s1 s3.
Proof.
  intros H12 H23. split.
  - intros q. pose proof (shrunk_nodes _ _ _ H12 q) as Hn1.
    pose proof (shrunk_nodes _ _ _ H23 q) as Hn2.
    destruct (decide (q ∈ D1 ∪ D2)) as [Hin|Hnin].
    + destruct (decide (q ∈ D2)); [done|]. destruct (decide (q ∈ D1)); [|set_solver].
      rewrite Hn1 in Hn2. by inversion Hn2.
    + destruct (decide (q ∈ D1)); [set_solver|]. destruct (decide (q ∈ D2)); [set_solver|].
      destruct Hn1; inversion Hn2; subst; constructor.
      by eapply block_unlinked_trans.
  - etrans; [apply (shrunk_sublist _ _ _ H23)|apply (shrunk_sublist _ _ _ H12)].
  - intros e. rewrite (shrunk_block_map _ _ _ H23), (shrunk_block_map _ _ _ H12).
    set_solver.
  - rewrite (shrunk_next _ _ _ H23). apply (shrunk_next _ _ _ H12).
  - intros i q. rewrite (shrunk_fast _ _ _ H23), (shrunk_fast _ _ _ H12). set_solver.
  - intros a q. rewrite (shrunk_links _ _ _ H23), (shrunk_links _ _ _ H12). set_solver.
  - intros k q. rewrite (shrunk_range _ _ _ H23), (shrunk_range _ _ _ H12). set_solver.
Qed.

End Shrinking.


(** ** Linking preserves the consistency of the indices *)

Section Linking.

Context `{Constants}.

(** A node is replaced by one with the same addresses, mode, footprint and
    slot index; its exits keep their addresses if the block is in a bucket
    of [links_to]. *)
Lemma wf_update_node s q b b' :
  wf s -> nodes s !! q = Some b ->
  effectiveAddress b' = effectiveAddress b ->
  physicalAddress b' = physicalAddress b ->
  msrBits b' = msrBits b ->
  physical_addresses b' = physical_addresses b ->
  fast_block_map_index b' = fast_block_map_index b ->
  (forall a, q ∈ bucket (links_to s) a ->
     exitAddress <$> linkData b' = exitAddress <$> linkData b) ->
  (forall e, e ∈ linkData b' -> linkStatus e = true ->
     q ∈ bucket (links_to s) (exitAddress e)) ->
  (forall e d, e ∈ linkData b' -> exitTarget e = Some d ->
     linkStatus e = true /\
     exists bd, nodes s !! d = Some bd /\ effectiveAddress bd = exitAddress e /\
                msrBits bd = msrBits b) ->
  wf (set_nodes (insert q b') s).
Proof.
  intros Hwf Hq Hea Hpa Hmsr Hfp Hidx Haddr Hst Htg.
  assert (forall p b0, nodes (set_nodes (insert q b') s) !! p = Some b0 ->
            (p = q /\ b0 = b') \/ (p <> q /\ nodes s !! p = Some b0))
    as Hcase.
  { intros p b0. cbn. rewrite lookup_insert_Some. naive_solver. }
  assert (forall d bd, nodes s !! d = Some bd ->
            exists bd', nodes (set_nodes (insert q b') s) !! d = Some bd' /\
              effectiveAddress bd' = effectiveAddress bd /\ msrBits bd' = msrBits bd /\
              physicalAddress bd' = physicalAddress bd /\
              fast_block_map_index bd' = fast_block_map_index bd /\
              physical_addresses bd' = physical_addresses bd /\
              ((exists a, d ∈ bucket (links_to s) a) ->
               exitAddress <$> linkData bd' = exitAddress <$> linkData bd)) as Hlive.
  { intros d bd Hd. cbn. destruct (decide (d = q)) as [->|Hne].
    - rewrite lookup_insert_eq. eexists. split; [done|]. simplify_eq.
      repeat (split; [done|]). intros [a Ha]. by apply (Haddr a).
    - rewrite lookup_insert_ne by done. eauto 10. }
  split.
  - apply (wf_nodup _ Hwf).
  - intros k p. cbn [block_map set_nodes]. rewrite (wf_store _ Hwf). split.
    + intros (b0 & Hb0 & Hk). destruct (Hlive _ _ Hb0) as (b0' & Hb0' & Hs).
      exists b0'. split; [done|]. naive_solver congruence.
    + intros (b0 & Hb0 & Hk). destruct (Hcase _ _ Hb0) as [[-> ->]|[Hne Hb1]]; eauto.
      exists b. split; [done|]. congruence.
  - intros p [b0 Hb0]. cbn [next_node set_nodes]. apply (wf_fresh _ Hwf).
    destruct (Hcase _ _ Hb0) as [[-> ->]|[Hne Hb1]]; eauto.
  - intros i p Hf. destruct (wf_fast _ Hwf _ _ Hf) as (b0 & Hb0 & Hi & Hix).
    destruct (Hlive _ _ Hb0) as (b0' & Hb0' & Hs). exists b0'.
    split; [done|]. naive_solver congruence.
  - intros a p Hp. destruct (wf_links _ Hwf _ _ Hp) as (b0 & Hb0 & Ha & Hreg).
    destruct (Hlive _ _ Hb0) as (b0' & Hb0' & Hs). exists b0'. split; [done|].
    destruct Hs as (_ & _ & _ & _ & _ & Hex). specialize (Hex ltac:(eauto)).
    split; [by rewrite Hex|].
    intros e He. cbn [links_to set_nodes].
    assert (exitAddress e ∈ exitAddress <$> linkData b0) as Hin
      by (rewrite <- Hex; by apply list_elem_of_fmap_2).
    apply list_elem_of_fmap in Hin as (e0 & -> & He0). by apply Hreg.
  - intros p b0 e Hb0 He Hste.
    destruct (Hcase _ _ Hb0) as [[-> ->]|[Hne Hb1]].
    + by apply Hst.
    + by apply (wf_status _ Hwf p b0).
  - intros p b0 e d Hb0 He Ht.
    destruct (Hcase _ _ Hb0) as [[-> ->]|[Hne Hb1]].
    + destruct (Htg _ _ He Ht) as (Hste & bd & Hbd & Hea' & Hmsr'). split; [done|].
      destruct (Hlive _ _ Hbd) as (bd' & Hbd' & Hs). exists bd'.
      split; [done|]. naive_solver congruence.
    + destruct (wf_target _ Hwf _ _ _ _ Hb1 He Ht) as (Hste & bd & Hbd & Hea' & Hmsr').
      split; [done|].
      destruct (Hlive _ _ Hbd) as (bd' & Hbd' & Hs). exists bd'.
      split; [done|]. naive_solver congruence.
  - intros k p Hp. destruct (wf_range _ Hwf _ _ Hp) as (b0 & Hb0 & addr & Ha & Hk).
    destruct (Hlive _ _ Hb0) as (b0' & Hb0' & Hs). exists b0'. split; [done|].
    exists addr. destruct Hs as (_ & _ & _ & _ & -> & _). done.
  - intros p b0 addr Hb0 Ha.
    destruct (Hcase _ _ Hb0) as [[-> ->]|[Hne Hb1]].
    + rewrite Hfp in Ha. by apply (wf_footprint _ Hwf q b).
    + by apply (wf_footprint _ Hwf p b0).
  - intros p b0 Hb0.
    destruct (Hcase _ _ Hb0) as [[-> ->]|[Hne Hb1]].
    + rewrite Hmsr. by apply (wf_msr _ Hwf q b).
    + by apply (wf_msr _ Hwf p b0).
Qed.

(** A node whose exits change state, but not address. *)
Lemma wf_set_linkData s q b l' :
  wf s -> nodes s !! q = Some b ->
  exitAddress <$> l' = exitAddress <$> linkData b ->
  (forall e, e ∈ l' -> linkStatus e = true ->
     q ∈ bucket (links_to s) (exitAddress e)) ->
  (forall e d, e ∈ l' -> exitTarget e = Some d ->
     linkStatus e = true /\
     exists bd, nodes s !! d = Some bd /\ effectiveAddress bd = exitAddress e /\
                msrBits bd = msrBits b) ->
  wf (set_nodes (insert q (set_linkData l' b)) s).
Proof.
  intros Hwf Hq Haddr Hst Htg. by apply (wf_update_node s q b).
Qed.

Lemma link_exit_address m s msr e : exitAddress (link_exit m s msr e) = exitAddress e.
Proof.
  unfold link_exit. destruct (negb (linkStatus e)); [|done].
  by destruct (GetBlockFromStartAddress m (exitAddress e) msr s).
Qed.

Lemma LinkBlockExits_wf m s q b :
  wf s -> nodes s !! q = Some b -> registered s q b ->
  exists s', LinkBlockExits m q s = Ok s' /\ wf s' /\
    links_to s' = links_to s /\
    forall p bp, nodes s !! p = Some bp ->
      exists bp', nodes s' !! p = Some bp' /\ msrBits bp' = msrBits bp /\
                  effectiveAddress bp' = effectiveAddress bp /\
                  exitAddress <$> linkData bp' = exitAddress <$> linkData bp.
Proof.
  intros Hwf Hq Hreg. unfold LinkBlockExits. rewrite Hq. eexists. split; [done|].
  split; [|split; [done|]].
  - apply wf_set_linkData; [done..| | |].
    + rewrite <- list_fmap_compose. apply list_fmap_ext. intros i e _. simpl.
      apply link_exit_address.
    + intros e' He' _. apply list_elem_of_fmap in He' as (e & -> & He).
      rewrite link_exit_address. by apply Hreg.
    + intros e' d He' Ht. apply list_elem_of_fmap in He' as (e & -> & He).
      unfold link_exit in *. destruct (linkStatus e) eqn:Hste; simpl in *.
      * destruct (wf_target _ Hwf _ _ _ _ Hq He Ht) as (_ & Hd). done.
      * destruct (GetBlockFromStartAddress m (exitAddress e) (msrBits b) s)
          as [dest|] eqn:Hget; simpl in *.
        -- injection Ht as <-. split; [done|].
           apply GetBlockFromStartAddress_Some in Hget as (bd & Hbd & [Hea Hm] & _).
           exists bd. split; [done|]. split; [done|].
           rewrite Hm. by apply (wf_msr _ Hwf q b).
        -- destruct (wf_target _ Hwf _ _ _ _ Hq He Ht) as (Hst' & _). congruence.
  - intros p bp Hp. cbn. destruct (decide (p = q)) as [->|Hne].
    + rewrite lookup_insert_eq. eexists. split; [done|]. simplify_eq. simpl.
      split; [done|]. split; [done|].
      rewrite <- list_fmap_compose. apply list_fmap_ext. intros i e _. simpl.
      apply link_exit_address.
    + rewrite lookup_insert_ne by done. eauto.
Qed.

Lemma link_sources_wf m msr l s :
  wf s -> (forall q, q ∈ l -> exists a, q ∈ bucket (links_to s) a) ->
  exists s', link_sources m msr l s = Ok s' /\ wf s' /\ links_to s' = links_to s /\
    forall p bp, nodes s !! p = Some bp ->
      exists bp', nodes s' !! p = Some bp' /\ msrBits bp' = msrBits bp /\
                  effectiveAddress bp' = effectiveAddress bp /\
                  exitAddress <$> linkData bp' = exitAddress <$> linkData bp.
Proof.
  revert s. induction l as [|q l IH]; intros s Hwf Hl; simpl; [eauto 10|].
  destruct (Hl q) as [a Ha]; [left|].
  destruct (wf_links _ Hwf _ _ Ha) as (bq & Hq & _ & Hreg). rewrite Hq.
  case_bool_decide.
  - destruct (LinkBlockExits_wf m s q bq Hwf Hq Hreg) as (s1 & -> & Hwf1 & Hl1 & Hlive1).
    cbn [bind]. destruct (IH s1 Hwf1) as (s' & -> & Hwf' & Hl' & Hlive').
    { intros q' Hq'. rewrite Hl1. apply Hl. by right. }
    exists s'. split; [done|]. split; [done|]. split; [congruence|].
    intros p bp Hp. destruct (Hlive1 _ _ Hp) as (bp1 & Hp1 & Hm1 & He1 & Hx1).
    destruct (Hlive' _ _ Hp1) as (bp' & Hp' & Hm' & He' & Hx').
    exists bp'. split; [done|]. split; [congruence|]. split; congruence.
  - apply IH; [done|]. intros q' Hq'. apply Hl. by right.
Qed.

Lemma LinkBlock_wf m s p b :
  wf s -> nodes s !! p = Some b -> registered s p b ->
  exists s', LinkBlock m p s = Ok s' /\ wf s' /\ links_to s' = links_to s /\
    forall q bq, nodes s !! q = Some bq ->
      exists bq', nodes s' !! q = Some bq' /\ msrBits bq' = msrBits bq /\
                  effectiveAddress bq' = effectiveAddress bq /\
                  exitAddress <$> linkData bq' = exitAddress <$> linkData bq.
Proof.
  intros Hwf Hp Hreg. unfold LinkBlock.
  destruct (LinkBlockExits_wf m s p b Hwf Hp Hreg) as (s1 & -> & Hwf1 & Hl1 & Hlive).
  cbn [bind]. destruct (Hlive _ _ Hp) as (b1 & -> & _).
  destruct (links_to s1 !! effectiveAddress b1) as [srcs|] eqn:Hs.
  - destruct (link_sources_wf m (msrBits b1) (by_address srcs) s1 Hwf1)
      as (s' & -> & Hwf' & Hl' & Hlive').
    { intros q Hq. apply elem_of_by_address in Hq. exists (effectiveAddress b1).
      unfold bucket. by rewrite Hs. }
    exists s'. split; [done|]. split; [done|]. split; [congruence|].
    intros q bq Hq. destruct (Hlive _ _ Hq) as (bq1 & Hq1 & Hm1 & He1 & Hx1).
    destruct (Hlive' _ _ Hq1) as (bq' & Hq' & Hm' & He' & Hx').
    exists bq'. split; [done|]. split; [congruence|]. split; congruence.
  - eauto 10.
Qed.

End Linking.


(** ** Unlinking and destroying *)

Section Unlinking.

Context `{Constants}.

Lemma unlink_exit_idemp target e :
  unlink_exit target (unlink_exit target e) = unlink_exit target e.
Proof.
  unfold unlink_exit. destruct (decide (exitAddress e = target)) as [He|He].
  - rewrite (bool_decide_true _ He). simpl. by rewrite (bool_decide_true _ He).
  - rewrite (bool_decide_false _ He). by rewrite (bool_decide_false _ He).
Qed.

Lemma unlink_exit_unlinked target e : exit_unlinked ∅ e (unlink_exit target e).
Proof.
  unfold unlink_exit. case_bool_decide; split; simpl; done.
Qed.

Lemma set_nodes_set_nodes f g s :
  set_nodes f (set_nodes g s) = set_nodes (fun n => f (g n)) s.
Proof. done. Qed.

(** What the loop of [UnlinkBlock] over the sources leaves in each node. *)
Lemma unlink_sources_nodes target msr l s :
  (forall q, q ∈ l -> is_Some (nodes s !! q)) ->
  exists s', unlink_sources target msr l s = Ok s' /\
    s' = set_nodes (fun _ => nodes s') s /\
    forall q, nodes s' !! q =
      (fun bq => if decide (q ∈ l /\ msrBits bq = msr)
                 then set_linkData (map (unlink_exit target) (linkData bq)) bq
                 else bq) <$> nodes s !! q.
Proof.
  revert s. induction l as [|q0 l IH]; intros s Hl.
  - exists s. split; [done|]. split; [by destruct s|]. intros q.
    by destruct (nodes s !! q) as [bq|].
  - cbn [unlink_sources]. destruct (Hl q0) as [src Hsrc]; [left|]. rewrite Hsrc.
    case_bool_decide as Hm.
    + destruct (IH s) as (s' & -> & Hfr & Hn); [intros q Hq; apply Hl; by right|].
      exists s'. split; [done|]. split; [done|]. intros q. rewrite Hn.
      destruct (nodes s !! q) as [bq|] eqn:Hq; [|done]. simpl. f_equal.
      destruct (decide (q ∈ l /\ msrBits bq = msr)) as [[Hin Hmq]|Hn1];
        destruct (decide (q ∈ q0 :: l /\ msrBits bq = msr)) as [[Hin' Hmq']|Hn2];
        try done.
      * exfalso. apply Hn2. split; [by right|done].
      * apply elem_of_cons in Hin' as [->|Hin']; [|exfalso; apply Hn1; done].
        rewrite Hsrc in Hq. injection Hq as ->. done.
    + destruct (IH (set_nodes
                     (insert q0 (set_linkData (map (unlink_exit target) (linkData src)) src))
                     s)) as (s' & -> & Hfr & Hn).
      { intros q Hq. cbn. destruct (decide (q = q0)) as [->|Hne].
        - rewrite lookup_insert_eq. eauto.
        - rewrite lookup_insert_ne by done. apply Hl. by right. }
      exists s'. split; [done|]. split.
      { rewrite Hfr at 1. by rewrite set_nodes_set_nodes. }
      intros q. rewrite Hn. cbn. destruct (decide (q = q0)) as [->|Hne].
      * rewrite lookup_insert_eq, Hsrc. simpl. f_equal.
        destruct (decide (q0 ∈ q0 :: l /\ msrBits src = msr)) as [_|Hno];
          [|exfalso; apply Hno; split; [left|done]].
        case_decide; [|done]. unfold set_linkData. simpl. f_equal.
        rewrite <- list_fmap_compose. apply list_fmap_ext. intros i e _. simpl.
        apply unlink_exit_idemp.
      * rewrite lookup_insert_ne by done.
        destruct (nodes s !! q) as [bq|] eqn:Hq; [|done]. simpl. f_equal.
        destruct (decide (q ∈ l /\ msrBits bq = msr)) as [[Hin Hmq]|Hn1];
          destruct (decide (q ∈ q0 :: l /\ msrBits bq = msr)) as [[Hin' Hmq']|Hn2];
          try done.
        -- exfalso. apply Hn2. split; [by right|done].
        -- apply elem_of_cons in Hin' as [->|Hin']; [done|]. exfalso. by apply Hn1.
Qed.

(** [UnlinkBlock] returns when the block and the blocks registered under
    its address are live. It only touches the exits: those of the block go
    back to the dispatcher, with their [linkStatus] as it was; those of the
    registered sources with the [msrBits] of the block that lead to its
    address are unlinked. *)
Lemma UnlinkBlock_spec s p b :
  nodes s !! p = Some b ->
  (forall q, q ∈ bucket (links_to s) (effectiveAddress b) -> is_Some (nodes s !! q)) ->
  exists s2, UnlinkBlock p s = Ok s2 /\
    s2 = set_nodes (fun _ => nodes s2) s /\
    (forall q, option_Forall2 (block_unlinked ∅) (nodes s !! q) (nodes s2 !! q)) /\
    (forall b2 e, nodes s2 !! p = Some b2 -> e ∈ linkData b2 -> exitTarget e = None) /\
    (forall q b2 e, q ∈ bucket (links_to s) (effectiveAddress b) ->
       nodes s2 !! q = Some b2 -> msrBits b2 = msrBits b -> e ∈ linkData b2 ->
       exitAddress e = effectiveAddress b ->
       linkStatus e = false /\ exitTarget e = None) /\
    (forall q bq, nodes s !! q = Some bq -> q <> p ->
       ~ (q ∈ bucket (links_to s) (effectiveAddress b) /\ msrBits bq = msrBits b) ->
       nodes s2 !! q = Some bq) /\
    (forall b2, nodes s2 !! p = Some b2 ->
       ~ (p ∈ bucket (links_to s) (effectiveAddress b)) ->
       linkStatus <$> linkData b2 = linkStatus <$> linkData b).
Proof.
  intros Hp Hsrc. unfold UnlinkBlock. rewrite Hp.
  set (b1 := set_linkData (map (fun e => WriteLinkBlock e None) (linkData b)) b).
  set (s1 := set_nodes (insert p b1) s).
  cbn [links_to set_nodes s1].
  assert (block_unlinked ∅ b b1) as Hb1.
  { split; [done|]. simpl. apply Forall2_fmap_r, Forall_Forall2_diag, Forall_forall.
    intros e _. split; [done|]. split; [done|]. simpl. done. }
  destruct (unlink_sources_nodes (effectiveAddress b) (msrBits b)
              (by_address (bucket (links_to s) (effectiveAddress b))) s1)
    as (s2 & Hrun & Hfr & Hn).
  { intros q Hq. apply elem_of_by_address in Hq. cbn.
    destruct (decide (q = p)) as [->|Hne].
    - rewrite lookup_insert_eq. eauto.
    - rewrite lookup_insert_ne by done. by apply Hsrc. }
  assert (forall q, nodes s2 !! q =
            (fun bq => if decide (q ∈ bucket (links_to s) (effectiveAddress b) /\
                                   msrBits bq = msrBits b)
                       then set_linkData
                              (map (unlink_exit (effectiveAddress b)) (linkData bq)) bq
                       else bq) <$> nodes s1 !! q) as Hn'.
  { intros q. rewrite Hn. destruct (nodes s1 !! q) as [bq|]; [|done]. simpl. f_equal.
    destruct (decide (q ∈ by_address _ /\ _)) as [[Hin ?]|Hn1];
      destruct (decide (q ∈ bucket _ _ /\ _)) as [[Hin' ?]|Hn2]; try done.
    - exfalso. apply Hn2. by rewrite <- elem_of_by_address.
    - exfalso. apply Hn1. by rewrite elem_of_by_address. }
  clear Hn.
  assert (exists s2, match links_to s !! effectiveAddress b with
                     | Some srcs =>
                         unlink_sources (effectiveAddress b) (msrBits b) (by_address srcs) s1
                     | None => Ok s1
                     end = Ok s2 /\ s2 = set_nodes (fun _ => nodes s2) s /\
            forall q, nodes s2 !! q =
            (fun bq => if decide (q ∈ bucket (links_to s) (effectiveAddress b) /\
                                   msrBits bq = msrBits b)
                       then set_linkData
                              (map (unlink_exit (effectiveAddress b)) (linkData bq)) bq
                       else bq) <$> nodes s1 !! q) as (s3 & Hrun3 & Hfr3 & Hn3).
  { unfold bucket in *. destruct (links_to s !! effectiveAddress b) as [srcs|] eqn:Hl.
    - simpl in *. exists s2. split; [done|]. split; [|done].
      rewrite Hfr at 1. unfold s1. by rewrite set_nodes_set_nodes.
    - exists s1. split; [done|]. split; [reflexivity|].
      intros q. destruct (nodes s1 !! q) as [bq|]; [|done]. simpl. f_equal. }
  clear s2 Hrun Hfr Hn'. exists s3. split; [done|]. split; [done|].
  assert (forall q, nodes s1 !! q = (fun bq => if decide (q = p) then b1 else bq) <$> nodes s !! q)
    as Hn1.
  { intros q. unfold s1. cbn. destruct (decide (q = p)) as [->|Hne].
    - by rewrite lookup_insert_eq, Hp.
    - rewrite lookup_insert_ne by done. by destruct (nodes s !! q). }
  assert (nodes s1 !! p = Some b1) as Hp1 by (unfold s1; cbn; apply lookup_insert_eq).
  assert (forall q, q <> p -> nodes s1 !! q = nodes s !! q) as Hq1.
  { intros q Hne. unfold s1. cbn. by rewrite lookup_insert_ne. }
  assert (forall e, e ∈ linkData b1 -> exitTarget e = None) as Hnone.
  { intros e' He'. simpl in He'. apply list_elem_of_fmap in He' as (e0 & -> & _). done. }
  split; [|split; [|split; [|split]]].
  - intros q. rewrite Hn3, Hn1. destruct (nodes s !! q) as [bq|] eqn:Hq; constructor.
    assert (block_unlinked ∅ bq (if decide (q = p) then b1 else bq)) as Hstep1.
    { destruct (decide (q = p)) as [->|]; [by simplify_eq|].
      split; [by destruct bq|]. apply Forall_Forall2_diag, Forall_forall.
      intros e _. split; [done|]. split; [done|]. intros d _. split; [done|set_solver]. }
    destruct (decide (_ /\ _)); [|done].
    replace (∅ : gset nat) with ((∅ : gset nat) ∪ ∅) by set_solver.
    eapply block_unlinked_trans; [exact Hstep1|].
    split; [done|]. simpl. apply Forall2_fmap_r, Forall_Forall2_diag, Forall_forall.
    intros e _. apply unlink_exit_unlinked.
  - intros b2 e Hb2 He. rewrite Hn3, Hp1 in Hb2. simpl in Hb2. injection Hb2 as <-.
    case_decide; [|by apply Hnone].
    simpl in He. apply list_elem_of_fmap in He as (e0 & -> & He0).
    unfold unlink_exit. case_bool_decide; [done|]. apply Hnone. exact He0.
  - intros q b2 e Hq Hb2 Hm He Hea. rewrite Hn3 in Hb2.
    destruct (nodes s1 !! q) as [bq|] eqn:Hbq; [|done]. simpl in Hb2.
    injection Hb2 as <-.
    case_decide as Hd.
    + simpl in He. apply list_elem_of_fmap in He as (e0 & -> & He0).
      unfold unlink_exit in *. case_bool_decide as Hc; [done|]. done.
    + exfalso. apply Hd. split; [done|]. done.
  - intros q bq Hq Hne Hno. rewrite Hn3, Hq1, Hq by done. simpl. f_equal.
    by rewrite decide_False.
  - intros b2 Hb2 Hno. rewrite Hn3, Hp1 in Hb2. simpl in Hb2.
    rewrite decide_False in Hb2 by tauto.
    injection Hb2 as <-. simpl. rewrite <- list_fmap_compose.
    apply list_fmap_ext. done.
Qed.

End Unlinking.


Section Destroying.

Context `{Constants}.

(** [DestroyBlock] returns when the block and the blocks in [links_to] are
    live. It leaves the store and the range index alone, takes the block
    out of its slot of the fast map if it is there and out of the buckets of
    [links_to] of its exits, and unlinks as [UnlinkBlock] does. *)
Lemma DestroyBlock_live s p b :
  nodes s !! p = Some b ->
  (forall a q, q ∈ bucket (links_to s) a -> is_Some (nodes s !! q)) ->
  exists s3, DestroyBlock p s = Ok s3 /\
    (block_map s3 = block_map s /\ next_node s3 = next_node s /\
     block_range_map s3 = block_range_map s /\ valid_block s3 = valid_block s /\
     fifoWriteAddresses s3 = fifoWriteAddresses s /\
     pairedQuantizeAddresses s3 = pairedQuantizeAddresses s /\ trace s3 = trace s) /\
    (forall q, option_Forall2 (block_unlinked ∅) (nodes s !! q) (nodes s3 !! q)) /\
    (forall i q, fast_block_map s3 !! i = Some q <->
       fast_block_map s !! i = Some q /\ ~ (i = fast_block_map_index b /\ q = p)) /\
    (forall a q, q ∈ bucket (links_to s3) a <->
       q ∈ bucket (links_to s) a /\ ~ (a ∈ exitAddress <$> linkData b /\ q = p)) /\
    (forall q b2 e, q ∈ bucket (links_to s) (effectiveAddress b) ->
       nodes s3 !! q = Some b2 -> msrBits b2 = msrBits b -> e ∈ linkData b2 ->
       exitAddress e = effectiveAddress b ->
       linkStatus e = false /\ exitTarget e = None) /\
    (forall b2 e, nodes s3 !! p = Some b2 -> e ∈ linkData b2 -> exitTarget e = None).
Proof.
  intros Hp Hlive. unfold DestroyBlock. rewrite Hp.
  set (s1 := if bool_decide (fast_block_map s !! fast_block_map_index b = Some p)
             then set_fast_block_map (delete (fast_block_map_index b)) s else s).
  assert (nodes s1 = nodes s /\ links_to s1 = links_to s /\
          block_map s1 = block_map s /\ next_node s1 = next_node s /\
          block_range_map s1 = block_range_map s /\ valid_block s1 = valid_block s /\
          fifoWriteAddresses s1 = fifoWriteAddresses s /\
          pairedQuantizeAddresses s1 = pairedQuantizeAddresses s /\ trace s1 = trace s)
    as (Hn1 & Hl1 & Hfr1).
  { unfold s1. by case_bool_decide. }
  assert (forall i q, fast_block_map s1 !! i = Some q <->
            fast_block_map s !! i = Some q /\ ~ (i = fast_block_map_index b /\ q = p))
    as Hfast.
  { intros i q. unfold s1. case_bool_decide as Hc; cbn.
    - rewrite lookup_delete_Some. split.
      + intros [Hne Hq]. split; [done|]. intros [-> _]. done.
      + intros [Hq Hno]. split; [|done]. intros <-. apply Hno. split; [done|]. congruence.
    - split; [|tauto]. intros Hq. split; [done|]. intros [-> ->]. done. }
  destruct (UnlinkBlock_spec s1 p b) as (s2 & -> & Hfr2 & Hrel & Hown & Hsrc & _).
  { by rewrite Hn1. }
  { intros q. rewrite Hl1, Hn1. apply Hlive. }
  cbn [bind].
  pose proof (Hrel p) as Hrp. rewrite Hn1, Hp in Hrp.
  inversion Hrp as [b0 block2 Hu Hb0 Hb2|]; subst. symmetry in Hb2.
  eexists. split; [done|]. unfold WriteDestroyBlock.
  pose proof (block_unlinked_static _ _ _ Hu) as (_ & _ & _ & _ & _ & _ & _ & Hex).
  split.
  { rewrite Hfr2. cbn. destruct Hfr1 as (? & ? & ? & ? & ? & ? & ?). done. }
  split; [|split; [|split; [|split]]].
  - intros q. cbn. rewrite <- Hn1. apply Hrel.
  - intros i q. rewrite Hfr2. cbn. apply Hfast.
  - intros a q. cbn. rewrite elem_of_foldl_links_to_erase, Hex.
    rewrite Hfr2. cbn. by rewrite Hl1.
  - intros q b2 e Hq. cbn. apply Hsrc. by rewrite Hl1.
  - intros b2 e. cbn. apply Hown.
Qed.

Lemma Forall2_exit_unlinked_strengthen p l1 l2 :
  Forall2 (exit_unlinked ∅) l1 l2 ->
  (forall e, e ∈ l2 -> exitTarget e <> Some p) ->
  Forall2 (exit_unlinked {[p]}) l1 l2.
Proof.
  induction 1 as [|e1 e2 l1 l2 (Ha & Hs & Ht) _ IH]; intros Hno; constructor.
  - split; [done|]. split; [done|]. intros d Hd. destruct (Ht d Hd) as [-> _].
    split; [done|]. intros ->%elem_of_singleton. apply (Hno e1); [left|done].
  - apply IH. intros e He. apply Hno. by right.
Qed.

(** In a consistent cache, [DestroyBlock] leaves no trace of the block
    outside the store and the range index: no slot of the fast map, no
    bucket of [links_to] and no patched exit refers to it any more. [s] may
    differ from the consistent [s0] in its range index. *)
Lemma DestroyBlock_spec s0 s p b :
  wf s0 -> nodes s = nodes s0 -> links_to s = links_to s0 ->
  fast_block_map s = fast_block_map s0 ->
  nodes s !! p = Some b ->
  exists s3, DestroyBlock p s = Ok s3 /\
    (block_map s3 = block_map s /\ next_node s3 = next_node s /\
     block_range_map s3 = block_range_map s /\ valid_block s3 = valid_block s /\
     fifoWriteAddresses s3 = fifoWriteAddresses s /\
     pairedQuantizeAddresses s3 = pairedQuantizeAddresses s /\ trace s3 = trace s) /\
    (forall q, option_Forall2 (block_unlinked {[p]}) (nodes s !! q) (nodes s3 !! q)) /\
    (forall i q, fast_block_map s3 !! i = Some q <->
       fast_block_map s !! i = Some q /\ q <> p) /\
    (forall a q, q ∈ bucket (links_to s3) a <-> q ∈ bucket (links_to s) a /\ q <> p).
Proof.
  intros Hwf Hn Hl Hf Hp.
  destruct (DestroyBlock_live s p b Hp) as (s3 & Hrun & Hfr & Hrel & Hfast & Hlinks & Hsrc & Hown).
  { intros a q. rewrite Hl, Hn. intros Hq.
    destruct (wf_links _ Hwf _ _ Hq) as (bq & -> & _). eauto. }
  exists s3. split; [done|]. split; [done|]. split; [|split].
  - intros q. specialize (Hrel q).
    destruct (nodes s !! q) as [bq1|] eqn:Hq1;
      destruct (nodes s3 !! q) as [bq2|] eqn:Hq2;
      inversion Hrel as [? ? Hu|]; subst; constructor.
    destruct Hu as [Hst Hfa]. split; [done|].
    apply Forall2_exit_unlinked_strengthen; [done|].
    intros e2 He2 Ht.
    assert (exists e1, e1 ∈ linkData bq1 /\ exit_unlinked ∅ e1 e2) as (e1 & He1 & _ & _ & Htg).
    { apply (block_unlinked_exit ∅ bq1 bq2); [by split|done]. }
    destruct (Htg p Ht) as [-> _].
    rewrite Hn in Hq1, Hp.
    destruct (wf_target _ Hwf _ _ _ _ Hq1 He1 Ht) as (Hste & bp & Hbp & Hea & Hm).
    assert (bp = b) as -> by congruence.
    pose proof (wf_status _ Hwf _ _ _ Hq1 He1 Hste) as Hreg.
    rewrite <- Hea, <- Hl in Hreg.
    destruct (Hsrc q bq2 e1 Hreg Hq2) as [_ Hnone]; [|done|done|congruence].
    rewrite Hst. simpl. congruence.
  - intros i q. rewrite Hfast. split; [|naive_solver].
    intros [Hq Hno]. split; [done|]. intros ->. apply Hno. split; [|done].
    rewrite Hf in Hq. destruct (wf_fast _ Hwf _ _ Hq) as (bp & Hbp & Hi & _).
    rewrite Hn in Hp. congruence.
  - intros a q. rewrite Hlinks. split; [|naive_solver].
    intros [Hq Hno]. split; [done|]. intros ->. apply Hno. split; [|done].
    rewrite Hl in Hq. destruct (wf_links _ Hwf _ _ Hq) as (bp & Hbp & Ha & _).
    rewrite Hn in Hp. congruence.
Qed.

End Destroying.


(** ** Allocation, code generation, finalization and dispatch *)

Section Installing.

Context `{Constants}.

Lemma multimap_emplace_Permutation k p l : multimap_emplace k p l ≡ₚ (k, p) :: l.
Proof.
  induction l as [|e l IH]; simpl; [done|].
  case_bool_decide; [|done]. rewrite IH. apply perm_swap.
Qed.

Lemma AllocateBlock_wf m em_address s : wf s -> wf (AllocateBlock m em_address s).2.
Proof.
  intros Hwf. unfold AllocateBlock. cbn [snd].
  set (p := next_node s). set (k := address (JitCache_TranslateAddress m em_address)).
  set (b := Build_JitBlock _ _ _ _ _ _ _ _ _).
  assert (nodes s !! p = None) as Hfresh.
  { destruct (nodes s !! p) eqn:Hp; [|done].
    pose proof (wf_fresh _ Hwf p ltac:(eauto)). unfold p in *. lia. }
  assert (forall q bq, nodes s !! q = Some bq -> q <> p) as Hne by (intros q bq ? ->; congruence).
  assert (forall q bq, nodes s !! q = Some bq -> <[p:=b]> (nodes s) !! q = Some bq) as Hold.
  { intros q bq Hq. rewrite lookup_insert_ne; [done|]. intros <-. congruence. }
  assert (forall q bq, <[p:=b]> (nodes s) !! q = Some bq ->
            (q = p /\ bq = b) \/ (q <> p /\ nodes s !! q = Some bq)) as Hcase.
  { intros q bq. rewrite lookup_insert_Some. naive_solver. }
  split; cbn.
  - rewrite multimap_emplace_Permutation. rewrite fmap_cons. apply NoDup_cons.
    split; [|apply (wf_nodup _ Hwf)]. intros Hin.
    apply list_elem_of_fmap in Hin as ([k' p'] & Hp' & Hin). simpl in Hp'. subst p'.
    apply (wf_store _ Hwf) in Hin as (b' & Hb' & _). congruence.
  - intros k' q. rewrite elem_of_multimap_emplace, (wf_store _ Hwf). split.
    + intros [[= -> ->]|(bq & Hq & Hk)].
      * exists b. split; [apply lookup_insert_eq|done].
      * exists bq. split; [by apply Hold|done].
    + intros (bq & Hq & Hk). destruct (Hcase _ _ Hq) as [[-> ->]|[_ Hq']].
      * left. by rewrite <- Hk.
      * right. eauto.
  - intros q [bq Hq]. destruct (Hcase _ _ Hq) as [[-> ->]|[_ Hq']]; [unfold p; lia|].
    pose proof (wf_fresh _ Hwf q ltac:(eauto)). lia.
  - intros i q Hf. destruct (wf_fast _ Hwf _ _ Hf) as (bq & Hq & Hi). eauto.
  - intros a q Hq. destruct (wf_links _ Hwf _ _ Hq) as (bq & Hbq & Hi). eauto.
  - intros q bq e Hq He Hst. destruct (Hcase _ _ Hq) as [[-> ->]|[_ Hq']].
    + inversion He.
    + by apply (wf_status _ Hwf q bq).
  - intros q bq e d Hq He Ht. destruct (Hcase _ _ Hq) as [[-> ->]|[_ Hq']].
    + inversion He.
    + destruct (wf_target _ Hwf _ _ _ _ Hq' He Ht) as (Hst & bd & Hbd & Hd).
      split; [done|]. exists bd. split; [by apply Hold|done].
  - intros k' q Hq. destruct (wf_range _ Hwf _ _ Hq) as (bq & Hbq & Hr). eauto.
  - intros q bq addr Hq Ha. destruct (Hcase _ _ Hq) as [[-> ->]|[_ Hq']].
    + simpl in Ha. set_solver.
    + by apply (wf_footprint _ Hwf q bq).
  - intros q bq Hq. destruct (Hcase _ _ Hq) as [[-> ->]|[_ Hq']].
    + simpl. by rewrite <- Z.land_assoc, Z.land_diag.
    + by apply (wf_msr _ Hwf q bq).
Qed.

Lemma emit_code_wf p checked normal size exits s s' :
  wf s -> (forall a, p ∉ bucket (links_to s) a) ->
  emit_code p checked normal size exits s = Ok s' -> wf s'.
Proof.
  intros Hwf Hun. unfold emit_code. destruct (nodes s !! p) as [b|] eqn:Hp; [|done].
  intros [= <-]. apply (wf_update_node s p b); try done.
  - intros a Ha. by destruct (Hun a).
  - intros e He. simpl in He. apply list_elem_of_fmap in He as (a & -> & _). done.
  - intros e d He. simpl in He. apply list_elem_of_fmap in He as (a & -> & _). done.
Qed.

(** Block [p] is put in its slot of the fast map and gets the index of the
    slot; [fm'] is the fast map after that. *)
Lemma wf_install s p b fm' :
  wf s -> nodes s !! p = Some b ->
  fm' !! FastLookupIndexForAddress (effectiveAddress b) = Some p ->
  (forall i q, i <> FastLookupIndexForAddress (effectiveAddress b) ->
     fm' !! i = Some q -> fast_block_map s !! i = Some q) ->
  wf (set_nodes
        (insert p (set_fast_block_map_index
                     (FastLookupIndexForAddress (effectiveAddress b)) b))
        (set_fast_block_map (fun _ => fm') s)).
Proof.
  intros Hwf Hp Hslot Hother.
  set (index := FastLookupIndexForAddress (effectiveAddress b)) in *.
  set (b' := set_fast_block_map_index index b).
  assert (forall q bq, <[p:=b']> (nodes s) !! q = Some bq ->
            (q = p /\ bq = b') \/ (q <> p /\ nodes s !! q = Some bq)) as Hcase.
  { intros q bq. rewrite lookup_insert_Some. naive_solver. }
  assert (forall d bd, nodes s !! d = Some bd ->
            exists bd', <[p:=b']> (nodes s) !! d = Some bd' /\
              effectiveAddress bd' = effectiveAddress bd /\
              physicalAddress bd' = physicalAddress bd /\
              msrBits bd' = msrBits bd /\ linkData bd' = linkData bd /\
              physical_addresses bd' = physical_addresses bd) as Hlive.
  { intros d bd Hd. destruct (decide (d = p)) as [->|Hne].
    - rewrite lookup_insert_eq. eexists. split; [done|]. by simplify_eq.
    - rewrite lookup_insert_ne by done. exists bd. done. }
  split; cbn.
  - apply (wf_nodup _ Hwf).
  - intros k q. rewrite (wf_store _ Hwf). split.
    + intros (bq & Hq & Hk). destruct (Hlive _ _ Hq) as (bq' & Hq' & Hs).
      exists bq'. split; [done|]. naive_solver congruence.
    + intros (bq & Hq & Hk). destruct (Hcase _ _ Hq) as [[-> ->]|[_ Hq']]; eauto.
  - intros q [bq Hq]. apply (wf_fresh _ Hwf).
    destruct (Hcase _ _ Hq) as [[-> ->]|[_ Hq']]; eauto.
  - intros i q Hf. destruct (decide (i = index)) as [->|Hne].
    + rewrite Hslot in Hf. injection Hf as <-. exists b'.
      split; [apply lookup_insert_eq|]. done.
    + apply Hother in Hf; [|done].
      destruct (wf_fast _ Hwf _ _ Hf) as (bq & Hq & Hi & Hidx).
      assert (q <> p) as Hqp.
      { intros ->. apply Hne. rewrite Hidx. unfold index. congruence. }
      exists bq. rewrite lookup_insert_ne by done. done.
  - intros a q Hq. destruct (wf_links _ Hwf _ _ Hq) as (bq & Hbq & Ha & Hreg).
    destruct (Hlive _ _ Hbq) as (bq' & Hq' & _ & _ & _ & Hld & _).
    exists bq'. split; [done|]. unfold registered. rewrite Hld. done.
  - intros q bq e Hq He Hst. destruct (Hcase _ _ Hq) as [[-> ->]|[_ Hq']].
    + by apply (wf_status _ Hwf p b).
    + by apply (wf_status _ Hwf q bq).
  - intros q bq e d Hq He Ht.
    assert (exists bq0, nodes s !! q = Some bq0 /\ e ∈ linkData bq0 /\
                        msrBits bq0 = msrBits bq) as (bq0 & Hq0 & He0 & Hm0).
    { destruct (Hcase _ _ Hq) as [[-> ->]|[_ Hq']]; eauto. }
    destruct (wf_target _ Hwf _ _ _ _ Hq0 He0 Ht) as (Hst & bd & Hbd & Hea & Hmsr).
    split; [done|]. destruct (Hlive _ _ Hbd) as (bd' & Hd' & Hs).
    exists bd'. split; [done|]. naive_solver congruence.
  - intros k q Hq. destruct (wf_range _ Hwf _ _ Hq) as (bq & Hbq & Hr).
    destruct (Hlive _ _ Hbq) as (bq' & Hq' & _ & _ & _ & _ & Hfp).
    exists bq'. split; [done|]. by rewrite Hfp.
  - intros q bq addr Hq Ha. destruct (Hcase _ _ Hq) as [[-> ->]|[_ Hq']].
    + by apply (wf_footprint _ Hwf p b).
    + by apply (wf_footprint _ Hwf q bq).
  - intros q bq Hq. destruct (Hcase _ _ Hq) as [[-> ->]|[_ Hq']].
    + by apply (wf_msr _ Hwf p b).
    + by apply (wf_msr _ Hwf q bq).
Qed.

(** What the loop of [FinalizeBlock] over the footprint does to the range
    index; it touches nothing else but [valid_block]. *)
Lemma foldl_register_address p l s :
  let s' := foldl (register_address p) s l in
  (block_map s' = block_map s /\ nodes s' = nodes s /\ next_node s' = next_node s /\
   links_to s' = links_to s /\ fast_block_map s' = fast_block_map s) /\
  forall k q, q ∈ bucket (block_range_map s') k <->
    (q = p /\ exists addr, addr ∈ l /\ Z.land addr range_mask = k) \/
    q ∈ bucket (block_range_map s) k.
Proof.
  revert s. induction l as [|a l IH]; intros s; simpl.
  - split; [done|]. intros k q. split; [by right|].
    intros [(_ & addr & Hin & _)|?]; [inversion Hin|done].
  - destruct (IH (register_address p s a)) as [Hfr Hrm]. split; [exact Hfr|].
    intros k q. rewrite Hrm. cbn. rewrite elem_of_bucket_insert.
    setoid_rewrite elem_of_cons. naive_solver.
Qed.

(** A block without a footprint is given one and is entered in the range
    index. *)
Lemma wf_register s p b footprint :
  wf s -> nodes s !! p = Some b -> physical_addresses b = ∅ ->
  (forall a, a ∈ footprint -> is_u32 a) ->
  wf (foldl (register_address p)
        (set_nodes (insert p (set_physical_addresses footprint b)) s)
        (ascending footprint)).
Proof.
  intros Hwf Hp Hempty Hu32.
  set (b' := set_physical_addresses footprint b).
  set (s1 := set_nodes (insert p b') s).
  destruct (foldl_register_address p (ascending footprint) s1) as [Hfr Hrm].
  set (s2 := foldl (register_address p) s1 (ascending footprint)) in *.
  destruct Hfr as (Hbm & Hn & Hnx & Hl & Hf).
  assert (forall q bq, nodes s2 !! q = Some bq ->
            (q = p /\ bq = b') \/ (q <> p /\ nodes s !! q = Some bq)) as Hcase.
  { intros q bq. rewrite Hn. cbn. rewrite lookup_insert_Some. naive_solver. }
  assert (forall d bd, nodes s !! d = Some bd ->
            exists bd', nodes s2 !! d = Some bd' /\
              effectiveAddress bd' = effectiveAddress bd /\
              physicalAddress bd' = physicalAddress bd /\
              msrBits bd' = msrBits bd /\ linkData bd' = linkData bd /\
              fast_block_map_index bd' = fast_block_map_index bd) as Hlive.
  { intros d bd Hd. rewrite Hn. cbn. destruct (decide (d = p)) as [->|Hne].
    - rewrite lookup_insert_eq. eexists. split; [done|]. by simplify_eq.
    - rewrite lookup_insert_ne by done. exists bd. done. }
  split.
  - rewrite Hbm. apply (wf_nodup _ Hwf).
  - intros k q. rewrite Hbm. cbn. rewrite (wf_store _ Hwf). split.
    + intros (bq & Hq & Hk). destruct (Hlive _ _ Hq) as (bq' & Hq' & Hs).
      exists bq'. split; [done|]. naive_solver congruence.
    + intros (bq & Hq & Hk). destruct (Hcase _ _ Hq) as [[-> ->]|[_ Hq']]; eauto.
  - intros q [bq Hq]. rewrite Hnx. apply (wf_fresh _ Hwf).
    destruct (Hcase _ _ Hq) as [[-> ->]|[_ Hq']]; eauto.
  - intros i q. rewrite Hf. cbn. intros Hfq.
    destruct (wf_fast _ Hwf _ _ Hfq) as (bq & Hq & Hi).
    destruct (Hlive _ _ Hq) as (bq' & Hq' & Hs).
    exists bq'. split; [done|]. naive_solver congruence.
  - intros a q. rewrite Hl. cbn. intros Hq.
    destruct (wf_links _ Hwf _ _ Hq) as (bq & Hbq & Ha & Hreg).
    destruct (Hlive _ _ Hbq) as (bq' & Hq' & _ & _ & _ & Hld & _).
    exists bq'. split; [done|]. unfold registered. rewrite Hld, Hl. done.
  - intros q bq e Hq He Hst. rewrite Hl. cbn.
    destruct (Hcase _ _ Hq) as [[-> ->]|[_ Hq']].
    + by apply (wf_status _ Hwf p b).
    + by apply (wf_status _ Hwf q bq).
  - intros q bq e d Hq He Ht.
    assert (exists bq0, nodes s !! q = Some bq0 /\ e ∈ linkData bq0 /\
                        msrBits bq0 = msrBits bq) as (bq0 & Hq0 & He0 & Hm0).
    { destruct (Hcase _ _ Hq) as [[-> ->]|[_ Hq']]; eauto. }
    destruct (wf_target _ Hwf _ _ _ _ Hq0 He0 Ht) as (Hst & bd & Hbd & Hea & Hmsr).
    split; [done|]. destruct (Hlive _ _ Hbd) as (bd' & Hd' & Hs).
    exists bd'. split; [done|]. naive_solver congruence.
  - intros k q. rewrite Hrm. intros [(-> & addr & Ha & Hk)|Hq].
    + exists b'. split; [rewrite Hn; apply lookup_insert_eq|].
      exists addr. split; [|done]. simpl. by apply elem_of_ascending.
    + destruct (wf_range _ Hwf _ _ Hq) as (bq & Hbq & addr & Ha & Hk).
      assert (q <> p) as Hne by (intros ->; simplify_eq; set_solver).
      exists bq. split; [|eauto]. rewrite Hn. cbn. by rewrite lookup_insert_ne.
  - intros q bq addr Hq Ha. rewrite Hrm.
    destruct (Hcase _ _ Hq) as [[-> ->]|[_ Hq']].
    + simpl in Ha. split; [by apply Hu32|]. left. split; [done|].
      exists addr. split; [|done]. by apply elem_of_ascending.
    + destruct (wf_footprint _ Hwf q bq addr Hq' Ha) as [? ?]. split; [done|]. by right.
  - intros q bq Hq. destruct (Hcase _ _ Hq) as [[-> ->]|[_ Hq']].
    + by apply (wf_msr _ Hwf p b).
    + by apply (wf_msr _ Hwf q bq).
Qed.

(** A block is entered in [links_to] under each of its exits. *)
Lemma wf_register_links s p b :
  wf s -> nodes s !! p = Some b ->
  let s' := set_links_to
              (fun lt => foldl (fun lt e => bucket_insert (exitAddress e) p lt) lt
                           (linkData b)) s in
  wf s' /\ registered s' p b.
Proof.
  intros Hwf Hp s'.
  assert (forall a q, q ∈ bucket (links_to s') a <->
            (a ∈ exitAddress <$> linkData b /\ q = p) \/ q ∈ bucket (links_to s) a) as Hl.
  { intros a q. unfold s'. cbn. apply elem_of_foldl_bucket_insert. }
  assert (registered s' p b) as Hreg.
  { intros e He. apply Hl. left. split; [|done]. by apply list_elem_of_fmap_2. }
  split; [|done]. split; try apply Hwf.
  - intros a q Hq. apply Hl in Hq as [[Ha ->]|Hq].
    + exists b. done.
    + destruct (wf_links _ Hwf _ _ Hq) as (bq & Hbq & Ha & Hr). exists bq.
      split; [done|]. split; [done|]. intros e He. apply Hl. right. by apply Hr.
  - intros q bq e Hq He Hst. apply Hl. right. by apply (wf_status _ Hwf q bq).
Qed.

(** [FinalizeBlock] returns on a consistent cache, and leaves it
    consistent. *)
Lemma FinalizeBlock_total m p b block_link footprint s :
  wf s -> nodes s !! p = Some b -> physical_addresses b = ∅ ->
  (forall a, a ∈ footprint -> is_u32 a) ->
  exists s', FinalizeBlock m p block_link footprint s = Ok s' /\ wf s'.
Proof.
  intros Hwf Hp Hempty Hu32. unfold FinalizeBlock. rewrite Hp.
  set (index := FastLookupIndexForAddress (effectiveAddress b)).
  set (bA := set_fast_block_map_index index b).
  set (sA := set_nodes (insert p bA) (set_fast_block_map (insert index p) s)).
  assert (wf sA) as HwfA.
  { apply (wf_install s p b (<[index:=p]> (fast_block_map s))); [done..| |].
    - apply lookup_insert_eq.
    - intros i q Hne. by rewrite lookup_insert_ne. }
  assert (nodes sA !! p = Some bA) as HpA by apply lookup_insert_eq.
  pose proof (wf_register sA p bA footprint HwfA HpA Hempty Hu32) as Hwf2.
  assert (set_nodes (insert p (set_physical_addresses footprint bA)) sA =
          set_nodes (insert p (set_physical_addresses footprint bA))
            (set_fast_block_map (insert index p) s)) as Heq.
  { unfold sA. rewrite set_nodes_set_nodes. destruct s; cbn. unfold set_nodes; cbn.
    f_equal. apply insert_insert_eq. }
  rewrite Heq in Hwf2. clear Heq.
  set (s2 := foldl _ _ _) in *.
  assert (nodes s2 !! p = Some (set_physical_addresses footprint bA)) as Hp2.
  { destruct (foldl_register_address p (ascending footprint)
                (set_nodes (insert p (set_physical_addresses footprint bA))
                   (set_fast_block_map (insert index p) s))) as [(_ & Hn & _) _].
    fold s2 in Hn. rewrite Hn. apply lookup_insert_eq. }
  destruct block_link.
  - destruct (wf_register_links s2 p _ Hwf2 Hp2) as [Hwf3 Hreg].
    cbn [linkData set_physical_addresses] in *.
    destruct (LinkBlock_wf m _ p _ Hwf3 Hp2 Hreg) as (s3 & Hrun3 & Hwf4 & _).
    eauto.
  - eauto.
Qed.

Lemma FinalizeBlock_wf m p b block_link footprint s s' :
  wf s -> nodes s !! p = Some b -> physical_addresses b = ∅ ->
  (forall a, a ∈ footprint -> is_u32 a) ->
  FinalizeBlock m p block_link footprint s = Ok s' -> wf s'.
Proof.
  intros Hwf Hp Hempty Hu32 Hrun.
  destruct (FinalizeBlock_total m p b block_link footprint s Hwf Hp Hempty Hu32)
    as (s'' & Hrun' & Hwf'). congruence.
Qed.

Lemma MoveBlockIntoFastCache_wf m addr msr s r s' :
  wf s -> MoveBlockIntoFastCache m addr msr s = Ok (r, s') -> wf s'.
Proof.
  intros Hwf. unfold MoveBlockIntoFastCache.
  destruct (GetBlockFromStartAddress m addr msr s) as [p|] eqn:Hget; [|by intros [= <- <-]].
  apply GetBlockFromStartAddress_Some in Hget as (b & Hp & [Hea Hm] & _).
  rewrite Hp. intros [= <- <-]. rewrite <- Hea.
  set (s1 := if bool_decide _ then _ else s).
  assert (nodes s1 = nodes s /\ s1 = set_fast_block_map (fun _ => fast_block_map s1) s /\
          forall i q, fast_block_map s1 !! i = Some q -> fast_block_map s !! i = Some q)
    as (Hn1 & Hfr1 & Hf1).
  { unfold s1. case_bool_decide; (split; [done|split; [by destruct s|]]); [|done].
    intros i q. cbn. rewrite lookup_delete_Some. tauto. }
  rewrite Hfr1. replace (set_fast_block_map _ (set_fast_block_map _ s)) with
    (set_fast_block_map
       (fun _ => <[FastLookupIndexForAddress (effectiveAddress b):=p]> (fast_block_map s1)) s)
    by done.
  apply wf_install; [done..| |].
  - apply lookup_insert_eq.
  - intros i q Hne. rewrite lookup_insert_ne by done. apply Hf1.
Qed.

Lemma Dispatch_wf m s r s' : wf s -> Dispatch m s = Ok (r, s') -> wf s'.
Proof.
  intros Hwf. unfold Dispatch.
  set (slow := bind _ _).
  assert (slow = Ok (r, s') -> wf s') as Hslow.
  { unfold slow.
    destruct (MoveBlockIntoFastCache m (PC m) _ s) as [[r1 s1]| |] eqn:Hmv; [|done..].
    cbn [bind fst snd]. apply MoveBlockIntoFastCache_wf in Hmv; [|done].
    destruct r1 as [p|]; [|by intros [= <- <-]].
    destruct (nodes s1 !! p); [|done]. by intros [= <- <-]. }
  destruct (fast_block_map s !! _) as [p|]; [|done].
  destruct (nodes s !! p) as [block|]; [|done].
  destruct (_ || _); [done|]. by intros [= <- <-].
Qed.

End Installing.


(** ** Erasing the blocks of one macro block *)

Section ErasingBucket.

Context `{Constants}.

Lemma block_unlinked_refl b : block_unlinked ∅ b b.
Proof.
  split; [by destruct b|]. apply Forall_Forall2_diag, Forall_forall.
  intros e _. split; [done|]. split; [done|]. intros d _. split; [done|set_solver].
Qed.

(** Two states with the same store and the same indices, up to how the
    range index spells its buckets (an empty bucket or none). *)
Lemma shrunk_same_indices s s' :
  block_map s' = block_map s -> nodes s' = nodes s -> next_node s' = next_node s ->
  fast_block_map s' = fast_block_map s -> links_to s' = links_to s ->
  (forall k, bucket (block_range_map s') k = bucket (block_range_map s) k) ->
  shrunk ∅ s s'.
Proof.
  intros Hbm Hn Hnx Hf Hl Hb. split.
  - intros q. rewrite decide_False by set_solver. rewrite Hn.
    destruct (nodes s !! q); constructor. apply block_unlinked_refl.
  - by rewrite Hbm.
  - rewrite Hbm. set_solver.
  - done.
  - rewrite Hf. set_solver.
  - rewrite Hl. set_solver.
  - intros k q. rewrite Hb. set_solver.
Qed.

Lemma shrunk_same_buckets s s' :
  s' = set_block_range_map (fun _ => block_range_map s') s ->
  (forall k, bucket (block_range_map s') k = bucket (block_range_map s) k) ->
  shrunk ∅ s s'.
Proof. intros -> Hb. by apply shrunk_same_indices. Qed.

Lemma shrunk_refl s : shrunk ∅ s s.
Proof. apply shrunk_same_buckets; [by destruct s|done]. Qed.

(** What the loop that takes a block out of the other macro blocks does to
    the range index; it touches nothing else. *)
Lemma foldl_erase_other_slots p first l s :
  let s' := foldl (erase_other_slots p first) s l in
  s' = set_block_range_map (fun _ => block_range_map s') s /\
  (forall k q, q ∈ bucket (block_range_map s') k <->
     q ∈ bucket (block_range_map s) k /\
     ~ (q = p /\ k <> first /\ exists addr, addr ∈ l /\ Z.land addr range_mask = k)) /\
  (forall k, is_Some (block_range_map s' !! k) <->
     is_Some (block_range_map s !! k) \/
     (k <> first /\ exists addr, addr ∈ l /\ Z.land addr range_mask = k)).
Proof.
  revert s. induction l as [|a l IH]; intros s; simpl.
  - split; [by destruct s|]. split.
    + intros k q. split; [|tauto]. intros Hq. split; [done|].
      intros (_ & _ & addr & Hin & _). inversion Hin.
    + intros k. split; [tauto|]. intros [?|(_ & addr & Hin & _)]; [done|inversion Hin].
  - destruct (IH (erase_other_slots p first s a)) as (Hfr & Hb & Hd).
    split; [|split].
    + rewrite Hfr at 1. unfold erase_other_slots. by case_bool_decide.
    + intros k q. rewrite Hb. unfold erase_other_slots. case_bool_decide as Hne; cbn.
      * rewrite elem_of_bucket_erase. setoid_rewrite elem_of_cons. naive_solver.
      * setoid_rewrite elem_of_cons. naive_solver.
    + intros k. rewrite Hd. unfold erase_other_slots. case_bool_decide as Hne; cbn.
      * unfold bucket_erase. rewrite lookup_insert_is_Some.
        setoid_rewrite elem_of_cons.
        destruct (decide (Z.land a range_mask = k)); naive_solver.
      * setoid_rewrite elem_of_cons. naive_solver.
Qed.

(** One overlapping block of the macro block [first] is taken out of the
    range index, destroyed and erased from the store. *)
Lemma erase_block_shrunk s p b first :
  wf s -> nodes s !! p = Some b -> p ∈ bucket (block_range_map s) first ->
  exists s2 block2,
    DestroyBlock p (foldl (erase_other_slots p first) s
                      (ascending (physical_addresses b))) = Ok s2 /\
    nodes s2 !! p = Some block2 /\
    let s4 := set_block_range_map
                (fun rm => <[first := bucket rm first ∖ {[p]}]> rm)
                (erase_node (physicalAddress block2) p s2) in
    shrunk {[p]} s s4 /\
    dom (block_range_map s4) = dom (block_range_map s) /\
    valid_block s4 = valid_block s /\
    fifoWriteAddresses s4 = fifoWriteAddresses s /\
    pairedQuantizeAddresses s4 = pairedQuantizeAddresses s /\ trace s4 = trace s.
Proof.
  intros Hwf Hp Hin.
  destruct (foldl_erase_other_slots p first (ascending (physical_addresses b)) s)
    as (Hfr1 & Hb1 & Hd1).
  set (s1 := foldl _ _ _) in *.
  assert (nodes s1 = nodes s /\ links_to s1 = links_to s /\
          fast_block_map s1 = fast_block_map s /\ block_map s1 = block_map s /\
          next_node s1 = next_node s /\ valid_block s1 = valid_block s /\
          fifoWriteAddresses s1 = fifoWriteAddresses s /\
          pairedQuantizeAddresses s1 = pairedQuantizeAddresses s /\
          trace s1 = trace s) as (Hn1 & Hl1 & Hf1 & Hbm1 & Hnx1 & Hv1 & Hfi1 & Hpq1 & Htr1).
  { rewrite Hfr1. done. }
  destruct (DestroyBlock_spec s s1 p b Hwf Hn1 Hl1 Hf1) as
    (s2 & Hrun & (Hbm2 & Hnx2 & Hrm2 & Hv2 & Hfi2 & Hpq2 & Htr2) & Hrel & Hfast & Hlinks).
  { by rewrite Hn1. }
  pose proof (Hrel p) as Hrp. rewrite Hn1, Hp in Hrp.
  inversion Hrp as [b0 block2 Hu Hb0 Hb2|]; subst. symmetry in Hb2.
  exists s2, block2. split; [done|]. split; [done|].
  pose proof (block_unlinked_static _ _ _ Hu) as (_ & Hpa & _).
  assert ((physicalAddress block2, p) ∈ block_map s2) as Hentry.
  { rewrite Hbm2, Hbm1, Hpa. apply (wf_store _ Hwf). eauto. }
  unfold erase_node. rewrite bool_decide_true by done. cbn zeta.
  split; [split|]; cbn.
  - intros q. destruct (decide (q ∈ ({[p]} : gset nat))) as [->%elem_of_singleton|Hne].
    + apply lookup_delete_eq.
    + rewrite lookup_delete_ne by set_solver. rewrite <- Hn1. apply Hrel.
  - rewrite Hbm2, Hbm1. apply sublist_filter.
  - intros e. rewrite list_elem_of_filter, Hbm2, Hbm1. split.
    + intros [Hne He]. split; [done|]. destruct e as [k q]. simpl.
      intros ->%elem_of_singleton. apply Hne. f_equal.
      apply (wf_store _ Hwf) in He as (bq & Hq & <-). rewrite Hpa. congruence.
    + intros [He Hne]. split; [|done]. intros ->. simpl in Hne. set_solver.
  - by rewrite Hnx2.
  - intros i q. rewrite Hfast, Hf1. set_solver.
  - intros a q. rewrite Hlinks, Hl1. set_solver.
  - intros k q. rewrite bucket_insert_key. rewrite Hrm2.
    assert (q ∈ bucket (block_range_map s1) k ∖ {[p]} <->
            q ∈ bucket (block_range_map s) k /\ q ∉ ({[p]} : gset nat)) as Hgen.
    { rewrite elem_of_difference, Hb1. set_solver. }
    destruct (decide (first = k)) as [->|Hne]; [exact Hgen|].
    rewrite Hb1. split.
    + intros [Hq Hno]. split; [done|]. intros ->%elem_of_singleton. apply Hno.
      split; [done|]. split; [done|].
      destruct (wf_range _ Hwf _ _ Hq) as (bp & Hbp & addr & Ha & Hk).
      exists addr. split; [|done]. apply elem_of_ascending. congruence.
    + intros [Hq Hno]. split; [done|]. set_solver.
  - split; [|by rewrite Hv2, Hfi2, Hpq2, Htr2].
    rewrite dom_insert_L, Hrm2. apply set_eq. intros k.
    rewrite elem_of_union, elem_of_singleton, !elem_of_dom, Hd1. split.
    + intros [->|[?|(Hne & addr & Ha & Hk)]]; [|done|].
      * by apply (elem_of_bucket_Some _ _ p).
      * apply elem_of_ascending in Ha.
        destruct (wf_footprint _ Hwf _ _ _ Hp Ha) as [_ Hb]. rewrite Hk in Hb.
        by apply (elem_of_bucket_Some _ _ p).
    + tauto.
Qed.

Lemma Overlaps_unlinked D b1 b2 a len :
  block_unlinked D b1 b2 ->
  OverlapsPhysicalRange b2 a len = OverlapsPhysicalRange b1 a len.
Proof.
  intros Hu. apply block_unlinked_static in Hu as (_ & _ & _ & Hfp & _).
  unfold OverlapsPhysicalRange. by rewrite Hfp.
Qed.

(** The loop over the blocks of the macro block [first]: the blocks of [l]
    that overlap the range are taken out, the others stay. *)
Lemma erase_in_bucket_spec a len first l s :
  wf s -> NoDup l -> (forall q, q ∈ l -> q ∈ bucket (block_range_map s) first) ->
  exists s' (D : gset nat),
    erase_in_bucket a len first l s = Ok s' /\ shrunk D s s' /\
    (forall q, q ∈ D <-> q ∈ l /\ exists bq, nodes s !! q = Some bq /\
                                    OverlapsPhysicalRange bq a len = true) /\
    dom (block_range_map s') = dom (block_range_map s) /\
    valid_block s' = valid_block s /\
    fifoWriteAddresses s' = fifoWriteAddresses s /\
    pairedQuantizeAddresses s' = pairedQuantizeAddresses s /\ trace s' = trace s.
Proof.
  revert s. induction l as [|p l IH]; intros s Hwf Hnd Hl.
  - exists s, ∅. split; [done|]. split; [apply shrunk_refl|]. split; [|done].
    intros q. split; [set_solver|]. intros [Hin _]. inversion Hin.
  - apply NoDup_cons in Hnd as [Hpl Hnd]. cbn [erase_in_bucket].
    assert (p ∈ bucket (block_range_map s) first) as Hpin by (apply Hl; left).
    destruct (wf_range _ Hwf _ _ Hpin) as (b & Hp & _). rewrite Hp.
    destruct (OverlapsPhysicalRange b a len) eqn:Hov.
    + destruct (erase_block_shrunk s p b first Hwf Hp Hpin)
        as (s2 & block2 & -> & Hp2 & Hsh & Hdom & Hv & Hfi & Hpq & Htr).
      cbn [bind]. rewrite Hp2.
      set (s4 := set_block_range_map _ _) in *. cbn zeta in *.
      pose proof (wf_shrunk _ _ _ Hwf Hsh) as Hwf4.
      destruct (IH s4 Hwf4 Hnd) as (s' & D & -> & Hsh' & HD & Hdom' & Hv' & Hfi' & Hpq' & Htr').
      { intros q Hq. apply (shrunk_range _ _ _ Hsh). split; [apply Hl; by right|].
        intros ->%elem_of_singleton. done. }
      exists s', ({[p]} ∪ D). split; [done|]. split; [by eapply shrunk_trans|].
      split; [|by rewrite Hdom', Hv', Hfi', Hpq', Htr'].
      intros q. rewrite elem_of_union, elem_of_singleton, HD, elem_of_cons. split.
      * intros [->|(Hq & bq & Hbq & Hovq)]; [eauto|].
        split; [by right|].
        destruct (shrunk_node_Some _ _ _ _ _ Hsh Hbq) as (_ & bq0 & Hbq0 & Hu).
        exists bq0. split; [done|]. by rewrite <- (Overlaps_unlinked _ _ _ _ _ Hu).
      * intros ([->|Hq] & bq & Hbq & Hovq); [by left|]. right. split; [done|].
        assert (q ∉ ({[p]} : gset nat)) as Hne by (intros ->%elem_of_singleton; done).
        destruct (shrunk_node_stays _ _ _ _ _ Hsh Hbq Hne) as (bq4 & Hbq4 & Hu).
        exists bq4. split; [done|]. by rewrite (Overlaps_unlinked _ _ _ _ _ Hu).
    + destruct (IH s Hwf Hnd) as (s' & D & -> & Hsh' & HD & Hrest).
      { intros q Hq. apply Hl. by right. }
      exists s', D. split; [done|]. split; [done|]. split; [|done].
      intros q. rewrite HD, elem_of_cons. split; [naive_solver|].
      intros ([->|Hq] & bq & Hbq & Hovq); [congruence|eauto].
Qed.

End ErasingBucket.


(** ** Erasing a physical range *)

Lemma lower_bound_delete (X : gset Z) (x E : Z) :
  x < E -> lower_bound (X ∖ {[x]}) E = lower_bound X E.
Proof.
  intros Hx. pose proof (lower_bound_spec X E) as Hs.
  destruct (lower_bound X E) as [y|].
  - destruct Hs as (Hy & HEy & Hmin). apply lower_bound_Some.
    split; [set_solver by lia|]. split; [done|]. intros z Hz. apply Hmin. set_solver.
  - apply lower_bound_None. intros z Hz. apply Hs. set_solver.
Qed.

Lemma NoDup_by_address (X : gset nat) : NoDup (by_address X).
Proof.
  unfold by_address. rewrite merge_sort_Permutation. apply NoDup_elements.
Qed.

Section ErasingRange.

Context `{Constants}.

Lemma erase_macro_blocks_unfold fuel a len start finish s :
  erase_macro_blocks fuel a len start finish s =
  if bool_decide (start = finish) then Ok s
  else
    match fuel with
    | O => OutOfFuel
    | S fuel' =>
        match start with
        | None => UB
        | Some first =>
            match block_range_map s !! first with
            | None => UB
            | Some blocks =>
                do s1 <- erase_in_bucket a len first (by_address blocks) s;
                let s2 :=
                  if bool_decide (bucket (block_range_map s1) first = ∅)
                  then set_block_range_map (delete first) s1
                  else s1 in
                erase_macro_blocks fuel' a len
                  (lower_bound (dom (block_range_map s2)) (first + 1)) finish s2
            end
        end
    end.
Proof. by destruct fuel. Qed.

(** One round of the loop over the macro blocks, on the macro block
    [first]. *)
Lemma erase_round a len first blocks s :
  wf s -> block_range_map s !! first = Some blocks ->
  exists s1 (D : gset nat),
    erase_in_bucket a len first (by_address blocks) s = Ok s1 /\
    let s2 := if bool_decide (bucket (block_range_map s1) first = ∅)
              then set_block_range_map (delete first) s1 else s1 in
    shrunk D s s2 /\ wf s2 /\
    (forall q, q ∈ D <-> q ∈ blocks /\ exists bq, nodes s !! q = Some bq /\
                                        OverlapsPhysicalRange bq a len = true) /\
    (dom (block_range_map s2) = dom (block_range_map s) \/
     dom (block_range_map s2) = dom (block_range_map s) ∖ {[first]}) /\
    valid_block s2 = valid_block s /\
    fifoWriteAddresses s2 = fifoWriteAddresses s /\
    pairedQuantizeAddresses s2 = pairedQuantizeAddresses s /\ trace s2 = trace s.
Proof.
  intros Hwf Hfirst.
  destruct (erase_in_bucket_spec a len first (by_address blocks) s Hwf)
    as (s1 & D & Hrun & Hsh & HD & Hdom & Hfr).
  { apply NoDup_by_address. }
  { intros q Hq. apply elem_of_by_address in Hq. unfold bucket. by rewrite Hfirst. }
  exists s1, D. split; [done|]. cbn zeta.
  set (s2 := if bool_decide _ then _ else s1).
  assert (shrunk ∅ s1 s2) as Hsh2.
  { unfold s2. case_bool_decide as He; [|apply shrunk_refl].
    apply shrunk_same_buckets; [done|]. intros k. cbn. rewrite bucket_delete.
    destruct (decide (first = k)) as [<-|]; [by rewrite He|done]. }
  assert (shrunk D s s2) as Hsh3.
  { replace D with (D ∪ ∅) by set_solver. by eapply shrunk_trans. }
  split; [done|]. split; [by eapply wf_shrunk|]. split.
  { intros q. rewrite HD. by rewrite elem_of_by_address. }
  split.
  { unfold s2. case_bool_decide; [right|left]; cbn; [|done].
    by rewrite dom_delete_L, Hdom. }
  unfold s2. by case_bool_decide.
Qed.

(** Whenever the loop over the macro blocks returns, it has taken out
    blocks that overlap the range, and nothing else has changed. *)
Lemma erase_macro_blocks_shrunk fuel a len start finish s s' :
  wf s -> erase_macro_blocks fuel a len start finish s = Ok s' ->
  exists D : gset nat, shrunk D s s' /\
    (forall q, q ∈ D -> exists bq, nodes s !! q = Some bq /\
                                   OverlapsPhysicalRange bq a len = true) /\
    valid_block s' = valid_block s /\
    fifoWriteAddresses s' = fifoWriteAddresses s /\
    pairedQuantizeAddresses s' = pairedQuantizeAddresses s /\ trace s' = trace s.
Proof.
  revert start s. induction fuel as [|fuel IH]; intros start s Hwf;
    rewrite erase_macro_blocks_unfold; case_bool_decide as Hsf.
  - intros [= <-]. exists ∅. split; [apply shrunk_refl|]. split; [set_solver|done].
  - done.
  - intros [= <-]. exists ∅. split; [apply shrunk_refl|]. split; [set_solver|done].
  - destruct start as [first|]; [|done].
    destruct (block_range_map s !! first) as [blocks|] eqn:Hfirst; [|done].
    destruct (erase_round a len first blocks s Hwf Hfirst)
      as (s1 & D1 & -> & Hsh & Hwf2 & HD & _ & Hv & Hfi & Hpq & Htr).
    cbn [bind]. cbn zeta in *. set (s2 := if bool_decide _ then _ else s1) in *.
    intros Hrun. destruct (IH _ s2 Hwf2 Hrun) as (D2 & Hsh2 & HD2 & Hv2 & Hfi2 & Hpq2 & Htr2).
    exists (D1 ∪ D2). split; [by eapply shrunk_trans|].
    split; [|by rewrite Hv2, Hfi2, Hpq2, Htr2].
    intros q [Hq|Hq]%elem_of_union.
    + apply HD in Hq as [_ Hq]. done.
    + destruct (HD2 q Hq) as (bq & Hbq & Hov).
      destruct (shrunk_node_Some _ _ _ _ _ Hsh Hbq) as (_ & bq0 & Hbq0 & Hu).
      exists bq0. split; [done|]. by rewrite <- (Overlaps_unlinked _ _ _ _ _ Hu).
Qed.

(** When the loop starts at the first macro block from [c] on and is to
    stop at the first from [E] on, with [c <= E], it returns, and it leaves
    no block that overlaps the range in a macro block between [c] and
    [E]. *)
Lemma erase_macro_blocks_total fuel a len c E s :
  wf s -> c <= E ->
  (size (filter (fun k => (c <= k)%Z) (dom (block_range_map s))) <= fuel)%nat ->
  exists s',
    erase_macro_blocks fuel a len (lower_bound (dom (block_range_map s)) c)
      (lower_bound (dom (block_range_map s)) E) s = Ok s' /\
    forall k q bq, c <= k < E -> q ∈ bucket (block_range_map s') k ->
      nodes s' !! q = Some bq -> OverlapsPhysicalRange bq a len = false.
Proof.
  revert c s. induction fuel as [|fuel IH]; intros c s Hwf HcE Hfuel;
    rewrite erase_macro_blocks_unfold; case_bool_decide as Hsf.
  1,3: (exists s; split; [done|]; intros k q bq Hk Hq _; exfalso;
        apply elem_of_bucket_Some, elem_of_dom in Hq;
        assert (lower_bound (dom (block_range_map s)) c <>
                lower_bound (dom (block_range_map s)) E) as Hne
          by (apply lower_bound_differ; [done|]; exists k; split; [done|lia]);
        done).
  - exfalso. apply lower_bound_differ in Hsf as (x & Hx & Hcx); [|done].
    assert (x ∈ filter (fun k => c <= k) (dom (block_range_map s))) as Hin
      by (apply elem_of_filter; split; [lia|done]).
    assert (size (filter (fun k => c <= k) (dom (block_range_map s))) <> 0%nat) as Hnz.
    { intros Hz. apply size_empty_inv in Hz. set_solver. }
    lia.
  - pose proof Hsf as Hne. apply lower_bound_differ in Hne as (x & Hx & Hcx); [|done].
    pose proof (lower_bound_spec (dom (block_range_map s)) c) as Hlb.
    destruct (lower_bound (dom (block_range_map s)) c) as [first|] eqn:Hstart;
      [|specialize (Hlb x Hx); lia].
    destruct Hlb as (Hfdom & Hcf & Hmin).
    assert (first < E) as HfE by (specialize (Hmin x Hx); lia).
    pose proof Hfdom as Hfdom'. apply elem_of_dom in Hfdom' as [blocks Hfirst].
    rewrite Hfirst.
    destruct (erase_round a len first blocks s Hwf Hfirst)
      as (s1 & D1 & -> & Hsh & Hwf2 & HD & Hdom & _).
    cbn [bind]. cbn zeta in *. set (s2 := if bool_decide _ then _ else s1) in *.
    assert (lower_bound (dom (block_range_map s)) E =
            lower_bound (dom (block_range_map s2)) E) as ->.
    { destruct Hdom as [->| ->]; [done|]. by rewrite lower_bound_delete. }
    destruct (IH (first + 1) s2 Hwf2) as (s' & Hrun & Hcompl); [lia| |].
    { assert (filter (fun k => first + 1 <= k) (dom (block_range_map s2)) ⊂
              filter (fun k => c <= k) (dom (block_range_map s))) as Hsub.
      { split.
        - intros k [Hk Hkd]%elem_of_filter. apply elem_of_filter. split; [lia|].
          destruct Hdom as [Hd|Hd]; rewrite Hd in Hkd; set_solver.
        - intros Hsup. assert (first ∈ filter (fun k => first + 1 <= k)
                                          (dom (block_range_map s2))) as Hbad.
          { apply Hsup, elem_of_filter. done. }
          apply elem_of_filter in Hbad as [? _]. lia. }
      apply subset_size in Hsub. lia. }
    exists s'. split; [done|]. intros k q bq Hk Hq Hbq.
    destruct (decide (first + 1 <= k)) as [?|Hlt]; [apply (Hcompl k q bq); [lia|done..]|].
    destruct (erase_macro_blocks_shrunk _ _ _ _ _ _ _ Hwf2 Hrun) as (D2 & Hsh2 & _).
    apply (shrunk_range _ _ _ Hsh2) in Hq as [Hq HqD2].
    apply (shrunk_range _ _ _ Hsh) in Hq as [Hq HqD1].
    assert (k = first) as ->.
    { apply elem_of_bucket_Some, elem_of_dom in Hq. specialize (Hmin k Hq). lia. }
    destruct (shrunk_node_Some _ _ _ _ _ Hsh2 Hbq) as (_ & bq2 & Hbq2 & Hu2).
    destruct (shrunk_node_Some _ _ _ _ _ Hsh Hbq2) as (_ & bq0 & Hbq0 & Hu0).
    rewrite (Overlaps_unlinked _ _ _ _ _ Hu2), (Overlaps_unlinked _ _ _ _ _ Hu0).
    destruct (OverlapsPhysicalRange bq0 a len) eqn:Hov; [|done].
    exfalso. apply HqD1, HD. split; [|eauto].
    unfold bucket in Hq. by rewrite Hfirst in Hq.
Qed.

Lemma ErasePhysicalRange_shrunk a len s s' :
  wf s -> ErasePhysicalRange a len s = Ok s' ->
  exists D : gset nat, shrunk D s s' /\
    (forall q, q ∈ D -> exists bq, nodes s !! q = Some bq /\
                                   OverlapsPhysicalRange bq a len = true) /\
    valid_block s' = valid_block s /\
    fifoWriteAddresses s' = fifoWriteAddresses s /\
    pairedQuantizeAddresses s' = pairedQuantizeAddresses s /\
    trace s' = trace s ++ [EvErasePhysicalRange a len].
Proof.
  intros Hwf. unfold ErasePhysicalRange. set (s0 := emit _ s).
  assert (shrunk ∅ s s0) as Hsh0 by (by apply shrunk_same_indices).
  intros Hrun.
  destruct (erase_macro_blocks_shrunk _ _ _ _ _ _ _ (wf_shrunk _ _ _ Hwf Hsh0) Hrun)
    as (D & Hsh & HD & Hfr).
  exists D. split; [|done].
  replace D with (∅ ∪ D) by set_solver. by eapply shrunk_trans.
Qed.

Lemma ErasePhysicalRange_wf a len s s' :
  wf s -> ErasePhysicalRange a len s = Ok s' -> wf s'.
Proof.
  intros Hwf Hrun. destruct (ErasePhysicalRange_shrunk _ _ _ _ Hwf Hrun) as (D & Hsh & _).
  by eapply wf_shrunk.
Qed.

End ErasingRange.


(** ** Invalidation and clearing preserve the consistency of the indices *)

Section Invalidating.

Context `{Constants}.

(** The loop that erases word addresses touches the two sets of [m_jit.js]
    and the trace only. *)
Lemma erase_words_frame fuel i bound s s' :
  erase_words fuel i bound s = Ok s' ->
  block_map s' = block_map s /\ nodes s' = nodes s /\ next_node s' = next_node s /\
  fast_block_map s' = fast_block_map s /\ links_to s' = links_to s /\
  block_range_map s' = block_range_map s /\ valid_block s' = valid_block s.
Proof.
  revert i s. induction fuel as [|fuel IH]; intros i s; cbn [erase_words];
    case_bool_decide; try done.
  - by intros [= <-].
  - intros Hrun. apply IH in Hrun. exact Hrun.
  - by intros [= <-].
Qed.

Lemma InvalidateICacheInternal_shrunk physical_address a len forced s s' :
  wf s -> InvalidateICacheInternal physical_address a len forced s = Ok s' ->
  exists D : gset nat, shrunk D s s' /\
    forall q, q ∈ D -> exists bq, nodes s !! q = Some bq /\
                                  OverlapsPhysicalRange bq physical_address len = true.
Proof.
  intros Hwf. unfold InvalidateICacheInternal.
  set (single_line := _ && _).
  set (destroy_block := if single_line then _ else true).
  set (s1 := if single_line then _ else _).
  assert (block_map s1 = block_map s /\ nodes s1 = nodes s /\ next_node s1 = next_node s /\
          fast_block_map s1 = fast_block_map s /\ links_to s1 = links_to s /\
          block_range_map s1 = block_range_map s) as (Hbm & Hn & Hnx & Hf & Hl & Hrm).
  { unfold s1. destruct single_line; [by destruct destroy_block|]. by case_bool_decide. }
  assert (shrunk ∅ s s1) as Hsh1.
  { apply shrunk_same_indices; try done. intros k. by rewrite Hrm. }
  destruct destroy_block.
  - destruct (ErasePhysicalRange physical_address len s1) as [s2| |] eqn:Herase;
      cbn [bind]; [|done..].
    destruct (ErasePhysicalRange_shrunk _ _ _ _ (wf_shrunk _ _ _ Hwf Hsh1) Herase)
      as (D & Hsh2 & HD & _).
    assert (shrunk D s s2) as Hsh.
    { replace D with (∅ ∪ D) by set_solver. by eapply shrunk_trans. }
    assert (forall q, q ∈ D -> exists bq, nodes s !! q = Some bq /\
              OverlapsPhysicalRange bq physical_address len = true) as HD'.
    { intros q Hq. rewrite <- Hn. by apply HD. }
    destruct (negb forced).
    + generalize (Z.to_nat len). intros fuel Hrun.
      apply erase_words_frame in Hrun as (Hbm3 & Hn3 & Hnx3 & Hf3 & Hl3 & Hrm3 & _).
      exists D. split; [|done]. replace D with (D ∪ ∅) by set_solver.
      eapply shrunk_trans; [exact Hsh|].
      apply shrunk_same_indices; try done. intros k. by rewrite Hrm3.
    + intros [= <-]. eauto.
  - intros [= <-]. exists ∅. split; [done|]. set_solver.
Qed.

Lemma InvalidateICacheInternal_wf physical_address a len forced s s' :
  wf s -> InvalidateICacheInternal physical_address a len forced s = Ok s' -> wf s'.
Proof.
  intros Hwf Hrun.
  destruct (InvalidateICacheInternal_shrunk _ _ _ _ _ _ Hwf Hrun) as (D & Hsh & _).
  by eapply wf_shrunk.
Qed.

Lemma InvalidateICacheLine_wf m a s s' :
  wf s -> InvalidateICacheLine m a s = Ok s' -> wf s'.
Proof.
  intros Hwf. unfold InvalidateICacheLine. destruct (valid _).
  - by apply InvalidateICacheInternal_wf.
  - by intros [= <-].
Qed.

(** What every piece preserves, the loop of [InvalidateICache] preserves. *)
Lemma InvalidateICache_loop_preserves {A : Type} (P : A -> Prop)
    (visit : TranslateResult -> Z -> Z -> A -> Result A) :
  (forall t a l x y, P x -> visit t a l x = Ok y -> P y) ->
  forall fuel m a l x y,
    P x -> InvalidateICache_loop visit fuel m a l x = Ok y -> P y.
Proof.
  intros Hvisit. induction fuel as [|fuel IH]; intros m a l x y Hx;
    cbn [InvalidateICache_loop]; case_bool_decide; try done.
  - by intros [= <-].
  - destruct (same_page _ _ _); [by apply Hvisit|].
    destruct (visit _ _ _ x) as [x1| |] eqn:Hv; cbn [bind]; [|done..].
    apply IH. by eapply Hvisit.
  - by intros [= <-].
Qed.

Lemma InvalidateICache_wf m a l forced s s' :
  wf s -> InvalidateICache m a l forced s = Ok s' -> wf s'.
Proof.
  intros Hwf. unfold InvalidateICache.
  apply (InvalidateICache_loop_preserves wf); [|done].
  intros t a' l' x y Hx. unfold invalidate_chunk. destruct (valid t).
  - by apply InvalidateICacheInternal_wf.
  - by intros [= <-].
Qed.

Lemma wf_empty n fifo paired tr :
  wf {| block_map := []; nodes := ∅; next_node := n; links_to := ∅;
        block_range_map := ∅; valid_block := ∅; fast_block_map := ∅;
        fifoWriteAddresses := fifo; pairedQuantizeAddresses := paired;
        trace := tr |}.
Proof.
  split; cbn; try (intros; simplify_map_eq; done).
  - constructor.
  - intros k p. split; [intros Hin; inversion Hin|]. intros (b & Hb & _). done.
Qed.

Lemma Clear_wf s s' : Clear s = Ok s' -> wf s'.
Proof.
  unfold Clear. destruct (destroy_all _ _) as [s1| |]; cbn [bind]; [|done..].
  intros [= <-]. apply wf_empty.
Qed.

(** Every reachable state is consistent. *)
Lemma step_wf s s' : wf s -> step s s' -> wf s'.
Proof.
  intros Hwf Hstep. destruct Hstep.
  - by eapply Clear_wf.
  - by apply AllocateBlock_wf.
  - by eapply emit_code_wf.
  - by eapply FinalizeBlock_wf.
  - by eapply Dispatch_wf.
  - by eapply InvalidateICacheLine_wf.
  - by eapply InvalidateICache_wf.
  - by eapply ErasePhysicalRange_wf.
  - apply (wf_shrunk ∅ s); [done|]. by apply shrunk_same_indices.
Qed.

Lemma reachable_wf s : reachable s -> wf s.
Proof.
  induction 1 as [|s s' _ IH Hstep]; [apply wf_empty|by eapply step_wf].
Qed.

End Invalidating.


(** ** Completeness of [ErasePhysicalRange] *)

Section Completeness.

Context `{Constants}.

Lemma range_mask_align k x :
  BLOCK_RANGE_MAP_ELEMENTS = 2 ^ k -> 0 <= k <= 32 -> is_u32 x ->
  Z.land x range_mask = x - x mod 2 ^ k.
Proof. intros HR Hk Hx. unfold range_mask. rewrite HR. by apply land_align. Qed.

Lemma range_mask_mono k a x :
  BLOCK_RANGE_MAP_ELEMENTS = 2 ^ k -> 0 <= k <= 32 -> is_u32 a -> is_u32 x ->
  a <= x -> Z.land a range_mask <= Z.land x range_mask <= x.
Proof.
  intros HR Hk Ha Hx Hax. rewrite !(range_mask_align k) by done.
  assert (0 < 2 ^ k) as HP by (apply Z.pow_pos_nonneg; lia).
  rewrite !Z.mod_eq by lia.
  pose proof (Z.div_le_mono a x (2 ^ k) HP Hax) as Hdiv.
  pose proof (Z.mul_div_le x (2 ^ k) HP) as Hx'.
  pose proof (Z.mul_le_mono_nonneg_l _ _ (2 ^ k) ltac:(lia) Hdiv). lia.
Qed.

(** For a range that does not wrap, [OverlapsPhysicalRange] says whether
    the footprint has an address in the range. *)
Lemma OverlapsPhysicalRange_true b a len :
  0 <= a -> 0 <= len -> a + len < 2 ^ 32 ->
  OverlapsPhysicalRange b a len = true <-> footprint_overlaps b a len.
Proof.
  intros Ha Hlen Hwrap. unfold OverlapsPhysicalRange, footprint_overlaps.
  rewrite (wrap_small (a + len)) by (unfold is_u32; lia).
  rewrite negb_true_iff, bool_decide_eq_false. apply lower_bound_differ. lia.
Qed.

Lemma ErasePhysicalRange_total k a len s :
  wf s -> BLOCK_RANGE_MAP_ELEMENTS = 2 ^ k -> 0 <= k <= 32 ->
  0 <= a -> 0 <= len -> a + len < 2 ^ 32 ->
  exists s' (D : gset nat),
    ErasePhysicalRange a len s = Ok s' /\ shrunk D s s' /\
    (forall q, q ∈ D <-> exists bq, nodes s !! q = Some bq /\ footprint_overlaps bq a len) /\
    valid_block s' = valid_block s /\
    fifoWriteAddresses s' = fifoWriteAddresses s /\
    pairedQuantizeAddresses s' = pairedQuantizeAddresses s /\
    trace s' = trace s ++ [EvErasePhysicalRange a len].
Proof.
  intros Hwf HR Hk Ha Hlen Hwrap.
  assert (is_u32 a) as Hua by (unfold is_u32; lia).
  assert (exists s', ErasePhysicalRange a len s = Ok s' /\
            forall key q bq, Z.land a range_mask <= key < a + len ->
              q ∈ bucket (block_range_map s') key -> nodes s' !! q = Some bq ->
              OverlapsPhysicalRange bq a len = false) as (s' & Hrun & Hcompl).
  { unfold ErasePhysicalRange. set (s0 := emit _ s).
    assert (wf s0) as Hwf0.
    { apply (wf_shrunk ∅ s); [done|]. by apply shrunk_same_indices. }
    rewrite (wrap_small (a + len)) by (unfold is_u32; lia).
    apply erase_macro_blocks_total; [done| |].
    - pose proof (range_mask_mono k a a HR Hk Hua Hua ltac:(lia)). lia.
    - unfold erase_fuel.
      assert (size (filter (fun key => (Z.land a range_mask <= key)%Z)
                      (dom (block_range_map s0))) <= size (dom (block_range_map s0)))%nat
        as Hle by (apply subseteq_size; set_solver).
      rewrite size_dom in Hle. lia. }
  destruct (ErasePhysicalRange_shrunk _ _ _ _ Hwf Hrun) as (D & Hsh & HD & Hfr).
  exists s', D. split; [done|]. split; [done|]. split; [|done].
  intros q. split.
  - intros Hq. destruct (HD q Hq) as (bq & Hbq & Hov). exists bq. split; [done|].
    by apply OverlapsPhysicalRange_true.
  - intros (bq & Hbq & Hov). destruct (decide (q ∈ D)) as [|Hno]; [done|]. exfalso.
    destruct (shrunk_node_stays _ _ _ _ _ Hsh Hbq Hno) as (bq' & Hbq' & Hu).
    pose proof (wf_shrunk _ _ _ Hwf Hsh) as Hwf'.
    pose proof Hov as (x & Hx & Hax).
    pose proof (block_unlinked_static _ _ _ Hu) as (_ & _ & _ & Hfp & _).
    rewrite <- Hfp in Hx.
    destruct (wf_footprint _ Hwf' _ _ _ Hbq' Hx) as [Hux Hin].
    assert (OverlapsPhysicalRange bq' a len = false) as Hfalse.
    { apply (Hcompl (Z.land x range_mask) q); [|done..].
      pose proof (range_mask_mono k a x HR Hk Hua Hux ltac:(lia)). lia. }
    rewrite (Overlaps_unlinked _ _ _ _ _ Hu) in Hfalse.
    apply OverlapsPhysicalRange_true in Hov; [|done..]. congruence.
Qed.

(** X22: invalidation completeness for ranges that do not wrap. In a
    reachable cache, for a range [[a, a + len)] of physical addresses with
    [a + len < 2^32], [ErasePhysicalRange] returns, and every block whose
    footprint has an address in the range is gone afterwards: from the
    store, from every macro block of the range index, from every bucket of
    [links_to] and from the fast map; no exit of a remaining block is still
    patched into it; [GetBlockFromStartAddress] for its address and mode
    does not return it, and returns nothing when no other block had that
    address and mode. The test is on the footprint, not on the macro block:
    a block with no address in the range stays, with its addresses, mode,
    footprint and entry points. *)
Theorem ErasePhysicalRange_complete k a len s :
  reachable s -> BLOCK_RANGE_MAP_ELEMENTS = 2 ^ k -> 0 <= k <= 32 ->
  0 <= a -> 0 <= len -> a + len < 2 ^ 32 ->
  exists s', ErasePhysicalRange a len s = Ok s' /\
    (forall p b, nodes s !! p = Some b -> footprint_overlaps b a len ->
       nodes s' !! p = None /\
       (forall key, (key, p) ∉ block_map s') /\
       (forall key, p ∉ bucket (block_range_map s') key) /\
       (forall target, p ∉ bucket (links_to s') target) /\
       (forall i, fast_block_map s' !! i <> Some p) /\
       (forall q bq e, nodes s' !! q = Some bq -> e ∈ linkData bq ->
          exitTarget e <> Some p) /\
       (forall m, GetBlockFromStartAddress m (effectiveAddress b) (msrBits b) s' <> Some p) /\
       (forall m,
          (forall p' b', nodes s !! p' = Some b' ->
             effectiveAddress b' = effectiveAddress b -> msrBits b' = msrBits b ->
             p' = p) ->
          GetBlockFromStartAddress m (effectiveAddress b) (msrBits b) s' = None)) /\
    (forall p b, nodes s !! p = Some b -> ~ footprint_overlaps b a len ->
       exists b', nodes s' !! p = Some b' /\
         effectiveAddress b' = effectiveAddress b /\ msrBits b' = msrBits b /\
         physical_addresses b' = physical_addresses b /\
         normalEntry b' = normalEntry b /\ checkedEntry b' = checkedEntry b).
Proof.
  intros Hreach HR Hk Ha Hlen Hwrap. pose proof (reachable_wf _ Hreach) as Hwf.
  destruct (ErasePhysicalRange_total k a len s Hwf HR Hk Ha Hlen Hwrap)
    as (s' & D & Hrun & Hsh & HD & _).
  pose proof (wf_shrunk _ _ _ Hwf Hsh) as Hwf'.
  exists s'. split; [done|]. split.
  - intros p b Hp Hov.
    assert (p ∈ D) as HpD by (apply HD; eauto).
    assert (nodes s' !! p = None) as Hgone.
    { pose proof (shrunk_nodes _ _ _ Hsh p) as Hn. by rewrite decide_True in Hn. }
    split; [done|]. split; [|split; [|split; [|split; [|split; [|split]]]]].
    + intros key Hin. apply (shrunk_block_map _ _ _ Hsh) in Hin as [_ Hno]. done.
    + intros key Hin. apply (shrunk_range _ _ _ Hsh) in Hin as [_ Hno]. done.
    + intros target Hin. apply (shrunk_links _ _ _ Hsh) in Hin as [_ Hno]. done.
    + intros i Hin. apply (shrunk_fast _ _ _ Hsh) in Hin as [_ Hno]. done.
    + intros q bq e Hq He Ht.
      destruct (wf_target _ Hwf' _ _ _ _ Hq He Ht) as (_ & bd & Hbd & _). congruence.
    + intros m Hget. apply GetBlockFromStartAddress_Some in Hget as (b' & Hb' & _).
      congruence.
    + intros m Huniq.
      destruct (GetBlockFromStartAddress m (effectiveAddress b) (msrBits b) s')
        as [p'|] eqn:Hget; [|done]. exfalso.
      apply GetBlockFromStartAddress_Some in Hget as (b' & Hb' & [Hea Hm] & _).
      destruct (shrunk_node_Some _ _ _ _ _ Hsh Hb') as (HnoD & b0 & Hb0 & Hu).
      apply block_unlinked_static in Hu as (Hea0 & _ & Hm0 & _).
      rewrite (wf_msr _ Hwf p b Hp) in Hm.
      assert (p' = p) as -> by (apply (Huniq p' b0); congruence). done.
  - intros p b Hp Hno.
    assert (p ∉ D) as HpD by (rewrite HD; intros (b' & Hb' & Hov); simplify_eq; done).
    destruct (shrunk_node_stays _ _ _ _ _ Hsh Hp HpD) as (b' & Hb' & Hu).
    exists b'. split; [done|]. apply block_unlinked_static in Hu. tauto.
Qed.

End Completeness.


(** ** Lookup and dispatch in reachable states *)

Section Dispatching.

Context `{Constants}.

Lemma scan_equal_range_finds nd key addr msrm l p b :
  (key, p) ∈ l -> nd !! p = Some b ->
  effectiveAddress b = addr -> msrBits b = msrm ->
  is_Some (scan_equal_range nd key addr msrm l).
Proof.
  intros Hin Hb Hea Hm.
  destruct (scan_equal_range nd key addr msrm l) eqn:Hs; [eauto|].
  exfalso. by apply (scan_equal_range_None _ _ _ _ _ _ _ Hs Hin Hb).
Qed.

(** C1: exact-match lookup. [GetBlockFromStartAddress] returns a block only
    if the block is stored under the key the lookup uses (the translated
    address when the mode has instruction translation on, the address
    itself otherwise), its [effectiveAddress] is the address asked for and
    its [msrBits] are the mode asked for, masked; it returns some block
    when there is such a block; it returns nothing when translation is on
    and fails. So in a reachable cache, of two blocks that differ in
    address or mode, the lookup for one never returns the other. *)
Theorem GetBlockFromStartAddress_exact_match m addr msr s :
  (forall p, GetBlockFromStartAddress m addr msr s = Some p ->
     exists b, nodes s !! p = Some b /\
       effectiveAddress b = addr /\ msrBits b = Z.land msr JIT_CACHE_MSR_MASK /\
       ((UReg_MSR_IR msr = true /\ valid (JitCache_TranslateAddress m addr) = true /\
         (address (JitCache_TranslateAddress m addr), p) ∈ block_map s) \/
        (UReg_MSR_IR msr = false /\ (addr, p) ∈ block_map s))) /\
  (forall key p b,
     key = (if UReg_MSR_IR msr then address (JitCache_TranslateAddress m addr) else addr) ->
     (UReg_MSR_IR msr = true -> valid (JitCache_TranslateAddress m addr) = true) ->
     (key, p) ∈ block_map s -> nodes s !! p = Some b ->
     effectiveAddress b = addr -> msrBits b = Z.land msr JIT_CACHE_MSR_MASK ->
     is_Some (GetBlockFromStartAddress m addr msr s)) /\
  (UReg_MSR_IR msr = true -> valid (JitCache_TranslateAddress m addr) = false ->
   GetBlockFromStartAddress m addr msr s = None) /\
  (reachable s ->
   forall p1 b1 p2 b2,
     nodes s !! p1 = Some b1 -> nodes s !! p2 = Some b2 ->
     (effectiveAddress b1, msrBits b1) <> (effectiveAddress b2, msrBits b2) ->
     GetBlockFromStartAddress m (effectiveAddress b1) (msrBits b1) s <> Some p2 /\
     GetBlockFromStartAddress m (effectiveAddress b2) (msrBits b2) s <> Some p1).
Proof.
  split; [|split; [|split]].
  - intros p Hget. apply GetBlockFromStartAddress_Some in Hget as (b & Hb & [Hea Hm] & Hk).
    eauto 10.
  - intros key p b -> Hv Hin Hb Hea Hm. unfold GetBlockFromStartAddress.
    destruct (UReg_MSR_IR msr).
    + rewrite Hv by done. simpl. by eapply scan_equal_range_finds.
    + by eapply scan_equal_range_finds.
  - apply GetBlockFromStartAddress_unmapped.
  - intros Hreach p1 b1 p2 b2 Hp1 Hp2 Hne. pose proof (reachable_wf _ Hreach) as Hwf.
    split; intros Hget;
      apply GetBlockFromStartAddress_Some in Hget as (b & Hb & [Hea Hm] & _);
      apply Hne; simplify_eq.
    + rewrite (wf_msr _ Hwf _ _ Hp1) in Hm. congruence.
    + rewrite (wf_msr _ Hwf _ _ Hp2) in Hm. congruence.
Qed.

(** C3, as the code has it: a linked exit is registered. In a reachable
    cache, when the [linkStatus] of an exit of a live block is set, the
    bucket of [links_to] under the address of the exit holds the block; and
    a bucket of [links_to] holds only live blocks that have an exit with the
    address of the bucket, and such a block is in the bucket of each of its
    exits, linked or not. *)
Theorem linked_exit_is_registered s :
  reachable s ->
  (forall p b e, nodes s !! p = Some b -> e ∈ linkData b -> linkStatus e = true ->
     p ∈ bucket (links_to s) (exitAddress e)) /\
  (forall a p, p ∈ bucket (links_to s) a ->
     exists b, nodes s !! p = Some b /\ a ∈ exitAddress <$> linkData b /\
       forall e, e ∈ linkData b -> p ∈ bucket (links_to s) (exitAddress e)).
Proof.
  intros Hreach. pose proof (reachable_wf _ Hreach) as Hwf. split.
  - apply (wf_status _ Hwf).
  - apply (wf_links _ Hwf).
Qed.

(** C4, as the code has it: the occupant of a slot knows its slot. In a
    reachable cache, a slot of the fast map that is not empty holds a live
    block, the [fast_block_map_index] of that block is the index of the
    slot, and it is the index [FastLookupIndexForAddress] gives for the
    address of the block. *)
Theorem fast_slot_occupant s :
  reachable s ->
  forall i p, fast_block_map s !! i = Some p ->
    exists b, nodes s !! p = Some b /\ fast_block_map_index b = i /\
      i = FastLookupIndexForAddress (effectiveAddress b).
Proof. intros Hreach. apply (wf_fast _ (reachable_wf _ Hreach)). Qed.

Lemma matches_masked b addr msr :
  matches b addr (Z.land msr JIT_CACHE_MSR_MASK) <-> matches b addr msr.
Proof. unfold matches. by rewrite <- Z.land_assoc, Z.land_diag. Qed.

Lemma MoveBlockIntoFastCache_spec m addr msr s :
  match GetBlockFromStartAddress m addr msr s with
  | None => MoveBlockIntoFastCache m addr msr s = Ok (None, s)
  | Some p =>
      exists b s', nodes s !! p = Some b /\ matches b addr msr /\
        MoveBlockIntoFastCache m addr msr s = Ok (Some p, s') /\
        fast_block_map s' !! FastLookupIndexForAddress addr = Some p /\
        exists b', nodes s' !! p = Some b' /\ normalEntry b' = normalEntry b
  end.
Proof.
  unfold MoveBlockIntoFastCache.
  destruct (GetBlockFromStartAddress m addr msr s) as [p|] eqn:Hget; [|done].
  apply GetBlockFromStartAddress_Some in Hget as (b & Hb & Hm & _). rewrite Hb.
  eexists _, _. split; [done|]. split; [done|]. split; [done|]. cbn.
  split; [apply lookup_insert_eq|]. eexists. split; [apply lookup_insert_eq|done].
Qed.

(** What [Dispatch] does with the block the slot of [PC] or the lookup
    gives it. *)
Lemma Dispatch_found m s :
  reachable s ->
  let index := FastLookupIndexForAddress (PC m) in
  (forall entry s', Dispatch m s = Ok (Some entry, s') ->
     exists p b, nodes s !! p = Some b /\ matches b (PC m) (MSR_Hex m) /\
       normalEntry b = entry /\ fast_block_map s' !! index = Some p) /\
  ((forall p b, nodes s !! p = Some b -> ~ matches b (PC m) (MSR_Hex m)) ->
   Dispatch m s = Ok (None, s)) /\
  (forall p b,
     nodes s !! p = Some b -> matches b (PC m) (MSR_Hex m) ->
     (forall p' b', nodes s !! p' = Some b' -> matches b' (PC m) (MSR_Hex m) -> p' = p) ->
     fast_block_map s !! index = Some p \/
     is_Some (GetBlockFromStartAddress m (PC m)
                (Z.land (MSR_Hex m) JIT_CACHE_MSR_MASK) s) ->
     exists s', Dispatch m s = Ok (Some (normalEntry b), s') /\
       fast_block_map s' !! index = Some p).
Proof.
  intros Hreach index. pose proof (reachable_wf _ Hreach) as Hwf.
  set (msr := Z.land (MSR_Hex m) JIT_CACHE_MSR_MASK).
  assert (forall r s', (do r <- MoveBlockIntoFastCache m (PC m) msr s;
                        match r.1 with
                        | None => Ok (None, r.2)
                        | Some p => match nodes r.2 !! p with
                                    | None => UB
                                    | Some block => Ok (Some (normalEntry block), r.2)
                                    end
                        end) = Ok (r, s') ->
            match GetBlockFromStartAddress m (PC m) msr s with
            | None => r = None /\ s' = s
            | Some p => exists b, nodes s !! p = Some b /\ matches b (PC m) (MSR_Hex m) /\
                          r = Some (normalEntry b) /\ fast_block_map s' !! index = Some p
            end) as Hslow.
  { intros r s'. pose proof (MoveBlockIntoFastCache_spec m (PC m) msr s) as Hmv.
    destruct (GetBlockFromStartAddress m (PC m) msr s) as [p|].
    - destruct Hmv as (b & s1 & Hb & Hm & -> & Hslot & b' & Hb' & Hentry).
      cbn [bind fst snd]. rewrite Hb'. intros [= <- <-]. exists b.
      split; [done|]. split; [by apply matches_masked|]. split; [by rewrite Hentry|done].
    - rewrite Hmv. cbn [bind fst snd]. by intros [= <- <-]. }
  assert (forall b,
            bool_decide (effectiveAddress b <> PC m) || bool_decide (msrBits b <> msr) = false
            <-> matches b (PC m) (MSR_Hex m)) as Hhit.
  { intros b. unfold matches. fold msr. rewrite orb_false_iff.
    rewrite !bool_decide_eq_false. split; intros [? ?]; split;
      try (by apply dec_stable); auto. }
  split; [|split].
  - intros entry s'. unfold Dispatch. fold msr index.
    destruct (fast_block_map s !! index) as [p|] eqn:Hslot.
    + destruct (wf_fast _ Hwf _ _ Hslot) as (b & Hb & _). rewrite Hb.
      destruct (_ || _) eqn:Hc.
      * intros Hrun. apply Hslow in Hrun.
        destruct (GetBlockFromStartAddress m (PC m) msr s) as [p'|]; [|by destruct Hrun].
        destruct Hrun as (b' & Hb' & Hm & [= ->] & Hs'). eauto 10.
      * intros [= <- <-]. exists p, b. split; [done|]. split; [by eapply Hhit|done].
    + intros Hrun. apply Hslow in Hrun.
      destruct (GetBlockFromStartAddress m (PC m) msr s) as [p'|]; [|by destruct Hrun].
      destruct Hrun as (b' & Hb' & Hm & [= ->] & Hs'). eauto 10.
  - intros Hnone. unfold Dispatch. fold msr index.
    assert (GetBlockFromStartAddress m (PC m) msr s = None) as Hget.
    { destruct (GetBlockFromStartAddress m (PC m) msr s) as [p|] eqn:Hget; [|done].
      apply GetBlockFromStartAddress_Some in Hget as (b & Hb & Hm & _).
      destruct (Hnone p b Hb). by apply matches_masked. }
    pose proof (MoveBlockIntoFastCache_spec m (PC m) msr s) as Hmv. rewrite Hget in Hmv.
    destruct (fast_block_map s !! index) as [p|] eqn:Hslot.
    + destruct (wf_fast _ Hwf _ _ Hslot) as (b & Hb & _). rewrite Hb.
      destruct (_ || _) eqn:Hc; [by rewrite Hmv|].
      destruct (Hnone p b Hb). by eapply Hhit.
    + by rewrite Hmv.
  - intros p b Hb Hm Huniq Hfound. unfold Dispatch. fold msr index.
    pose proof (MoveBlockIntoFastCache_spec m (PC m) msr s) as Hmv.
    assert (is_Some (GetBlockFromStartAddress m (PC m) msr s) ->
            exists s', (do r <- MoveBlockIntoFastCache m (PC m) msr s;
                        match r.1 with
                        | None => Ok (None, r.2)
                        | Some p => match nodes r.2 !! p with
                                    | None => UB
                                    | Some block => Ok (Some (normalEntry block), r.2)
                                    end
                        end) = Ok (Some (normalEntry b), s') /\
                       fast_block_map s' !! index = Some p) as Hslowok.
    { intros [p' Hget]. rewrite Hget in Hmv.
      destruct Hmv as (b' & s1 & Hb' & Hm' & -> & Hslot & b1 & Hb1 & Hentry).
      assert (p' = p) as -> by (apply (Huniq p' b'); [done|by apply matches_masked]).
      simplify_eq. exists s1. cbn [bind fst snd]. rewrite Hb1, Hentry. done. }
    destruct (fast_block_map s !! index) as [p'|] eqn:Hslot.
    + destruct (wf_fast _ Hwf _ _ Hslot) as (b' & Hb' & _). rewrite Hb'.
      destruct (_ || _) eqn:Hc.
      * apply Hslowok. destruct Hfound as [[= ->]|?]; [|done].
        exfalso. assert (b' = b) as -> by congruence. apply Hhit in Hm. congruence.
      * assert (p' = p) as -> by (apply (Huniq p' b'); [done|by eapply Hhit]).
        simplify_eq. eauto.
    + apply Hslowok. by destruct Hfound.
Qed.

Lemma matching_block_lookup m s p b :
  wf s -> nodes s !! p = Some b -> matches b (PC m) (MSR_Hex m) ->
  (forall p' b', nodes s !! p' = Some b' -> matches b' (PC m) (MSR_Hex m) -> p' = p) ->
  let msr := Z.land (MSR_Hex m) JIT_CACHE_MSR_MASK in
  (stored_at_lookup_key m (PC m) msr b ->
   is_Some (GetBlockFromStartAddress m (PC m) msr s)) /\
  (~ stored_at_lookup_key m (PC m) msr b ->
   GetBlockFromStartAddress m (PC m) msr s = None).
Proof.
  intros Hwf Hb Hm Huniq msr. unfold stored_at_lookup_key. split.
  - intros Hkey.
    assert ((physicalAddress b, p) ∈ block_map s) as Hin
      by (apply (wf_store _ Hwf); eauto).
    apply (proj2 (matches_masked _ _ _)) in Hm. fold msr in Hm.
    destruct Hm as [Hea Hmsr].
    unfold GetBlockFromStartAddress. destruct (UReg_MSR_IR msr).
    + destruct Hkey as [-> ->]. simpl. by eapply scan_equal_range_finds.
    + rewrite Hkey at 1. by eapply scan_equal_range_finds.
  - intros Hkey.
    destruct (GetBlockFromStartAddress m (PC m) msr s) as [q|] eqn:Hget; [|done].
    exfalso. apply Hkey.
    apply GetBlockFromStartAddress_Some in Hget as (b' & Hb' & Hm' & Hk).
    unfold msr in Hm'. apply (proj1 (matches_masked _ _ _)) in Hm'. pose proof (Huniq q b' Hb' Hm') as ->.
    assert (b' = b) as -> by congruence.
    destruct Hk as [(-> & Hv & Hin)|(-> & Hin)].
    + apply (wf_store _ Hwf) in Hin as (b2 & Hb2 & <-).
      split; [done|congruence].
    + apply (wf_store _ Hwf) in Hin as (b2 & Hb2 & Hpa). congruence.
Qed.

(** C6, as the code has it: the store lookup of [Dispatch] goes through the
    address translation. In a reachable cache, when [Dispatch] returns an
    entry, it is the [normalEntry] of a live block whose [effectiveAddress]
    is [PC] and whose [msrBits] are the masked [MSR], and that block sits in
    the slot of [PC] afterwards. When no live block matches, as under a mode
    for which nothing was compiled, [Dispatch] returns null and changes
    nothing. When one live block matches and it is in the slot of [PC], or
    it is stored under the key the lookup searches (the translation of [PC]
    in force when instruction translation is on, [PC] itself otherwise),
    [Dispatch] returns its [normalEntry] and the block is in the slot
    afterwards. When it is neither in the slot nor stored under that key,
    [Dispatch] returns null and changes nothing. *)
Theorem Dispatch_returns_matching_block m s :
  reachable s ->
  let index := FastLookupIndexForAddress (PC m) in
  let msr := Z.land (MSR_Hex m) JIT_CACHE_MSR_MASK in
  (forall entry s', Dispatch m s = Ok (Some entry, s') ->
     exists p b, nodes s !! p = Some b /\ matches b (PC m) (MSR_Hex m) /\
       normalEntry b = entry /\ fast_block_map s' !! index = Some p) /\
  ((forall p b, nodes s !! p = Some b -> ~ matches b (PC m) (MSR_Hex m)) ->
   Dispatch m s = Ok (None, s)) /\
  (forall p b,
     nodes s !! p = Some b -> matches b (PC m) (MSR_Hex m) ->
     (forall p' b', nodes s !! p' = Some b' -> matches b' (PC m) (MSR_Hex m) -> p' = p) ->
     (fast_block_map s !! index = Some p \/ stored_at_lookup_key m (PC m) msr b ->
      exists s', Dispatch m s = Ok (Some (normalEntry b), s') /\
        fast_block_map s' !! index = Some p) /\
     (fast_block_map s !! index <> Some p -> ~ stored_at_lookup_key m (PC m) msr b ->
      Dispatch m s = Ok (None, s))).
Proof.
  intros Hreach index msr. pose proof (reachable_wf _ Hreach) as Hwf.
  destruct (Dispatch_found m s Hreach) as (Hentry & Hmiss & Hfound).
  split; [exact Hentry|]. split; [exact Hmiss|].
  intros p b Hb Hm Huniq.
  destruct (matching_block_lookup m s p b Hwf Hb Hm Huniq) as [Hyes Hno].
  split.
  - intros Hcase. apply (Hfound p b Hb Hm Huniq).
    destruct Hcase as [Hslot|Hkey]; [by left|right; by apply Hyes].
  - intros Hslot Hkey. specialize (Hno Hkey). fold msr in Hno.
    pose proof (MoveBlockIntoFastCache_spec m (PC m) msr s) as Hmv.
    rewrite Hno in Hmv. unfold Dispatch. fold msr index.
    destruct (fast_block_map s !! index) as [p'|] eqn:Hs; [|by rewrite Hmv].
    destruct (wf_fast _ Hwf _ _ Hs) as (b' & Hb' & _). rewrite Hb'.
    destruct (_ || _) eqn:Hc; [by rewrite Hmv|].
    exfalso. apply Hslot. f_equal. apply (Huniq p' b' Hb').
    apply orb_false_iff in Hc as [H1 H2].
    apply bool_decide_eq_false in H1, H2. unfold matches. fold msr.
    split; by apply dec_stable.
Qed.

End Dispatching.


(** ** Linking and then unlinking *)

Section LinkUnlink.

Context `{Constants}.


End LinkUnlink.

(** ** The erasure of word addresses *)

Lemma word_addresses_nil a len : len <= 0 -> word_addresses a len = [].
Proof.
  intros Hlen. unfold word_addresses. rewrite seqZ_nil; [done|].
  assert ((len + 3) / 4 < 1) by (apply Z.div_lt_upper_bound; lia). lia.
Qed.

Lemma word_addresses_cons a len :
  0 < len -> word_addresses a len = a :: word_addresses (a + 4) (len - 4).
Proof.
  intros Hlen. unfold word_addresses.
  assert ((len + 3) / 4 = 1 + (len - 4 + 3) / 4) as ->.
  { replace (len + 3) with ((len - 4 + 3) + 1 * 4) by lia.
    rewrite Z.div_add by lia. lia. }
  assert (0 <= (len - 4 + 3) / 4) as Hk by (apply Z.div_pos; lia).
  rewrite seqZ_cons by lia. rewrite fmap_cons. f_equal; [lia|].
  replace (Z.pred (1 + (len - 4 + 3) / 4)) with ((len - 4 + 3) / 4) by lia.
  replace (Z.succ 0) with (1 + 0) by lia.
  rewrite <- fmap_add_seqZ, <- list_fmap_compose. apply list_fmap_ext.
  intros i k _. simpl. lia.
Qed.

Section Notification.

Context `{Constants}.

(** The loop [for (u32 i = address; i < address + length; i += 4)] returns
    when [i + 4] does not wrap before it reaches the bound; it erases the
    word addresses from [i] up to the bound. *)
Lemma erase_words_spec fuel i bound s :
  0 <= i -> bound + 3 < 2 ^ 32 -> (Z.to_nat (bound - i) <= fuel)%nat ->
  exists s', erase_words fuel i bound s = Ok s' /\
    trace s' = trace s ++ (EvEraseWord <$> word_addresses i (bound - i)) /\
    fifoWriteAddresses s' =
      fifoWriteAddresses s ∖ list_to_set (word_addresses i (bound - i)) /\
    pairedQuantizeAddresses s' =
      pairedQuantizeAddresses s ∖ list_to_set (word_addresses i (bound - i)).
Proof.
  revert i s. induction fuel as [|fuel IH]; intros i s Hi Hb Hfuel;
    cbn [erase_words]; case_bool_decide as Hlt.
  - lia.
  - exists s. rewrite word_addresses_nil by lia. rewrite app_nil_r.
    split; [done|]. split; [done|]. simpl. split; set_solver.
  - rewrite (wrap_small (i + 4)) by (unfold is_u32; lia).
    destruct (IH (i + 4) (emit (EvEraseWord i)
                            (set_js (fifoWriteAddresses s ∖ {[i]})
                               (pairedQuantizeAddresses s ∖ {[i]}) s)))
      as (s' & -> & Htr & Hfi & Hpq); [lia|lia|lia|].
    exists s'. split; [done|]. rewrite (word_addresses_cons i (bound - i)) by lia.
    replace (bound - i - 4) with (bound - (i + 4)) by lia.
    rewrite Htr, Hfi, Hpq. cbn. rewrite <- app_assoc. split; [done|].
    split; set_solver.
  - exists s. rewrite word_addresses_nil by lia. rewrite app_nil_r.
    split; [done|]. split; [done|]. simpl. split; set_solver.
Qed.

(** C8, as the code has it: whether the word addresses are erased from the
    sets of [m_jit.js] depends on [forced] and on whether the destruction
    logic was skipped, not on whether a block was destroyed. In a reachable
    cache, for a physical range with [physical_address + len < 2^32] and,
    when [forced] is false, an effective range with [a + len + 3 < 2^32],
    [InvalidateICacheInternal] returns; it leaves the cache as it is when
    the range is one aligned cache line whose bit in the valid-block set is
    clear; otherwise it runs [ErasePhysicalRange], and then erases the word
    addresses of the effective range from both sets exactly when [forced]
    is false. Ranges that run past the end of the address space are left
    out. *)
Theorem InvalidateICacheInternal_notification k physical_address a len forced s :
  reachable s -> BLOCK_RANGE_MAP_ELEMENTS = 2 ^ k -> 0 <= k <= 32 ->
  0 <= physical_address -> physical_address + len < 2 ^ 32 -> 0 <= len ->
  (forced = false -> 0 <= a /\ a + len + 3 < 2 ^ 32) ->
  let skipped :=
    len = 32 /\ Z.land physical_address 0x1f = 0 /\
    physical_address / 32 ∉ valid_block s in
  exists s', InvalidateICacheInternal physical_address a len forced s = Ok s' /\
    (skipped -> s' = s) /\
    (~ skipped -> forced = true ->
       trace s' = trace s ++ [EvErasePhysicalRange physical_address len] /\
       fifoWriteAddresses s' = fifoWriteAddresses s /\
       pairedQuantizeAddresses s' = pairedQuantizeAddresses s) /\
    (~ skipped -> forced = false ->
       trace s' = trace s ++ EvErasePhysicalRange physical_address len ::
                    (EvEraseWord <$> word_addresses a len) /\
       fifoWriteAddresses s' =
         fifoWriteAddresses s ∖ list_to_set (word_addresses a len) /\
       pairedQuantizeAddresses s' =
         pairedQuantizeAddresses s ∖ list_to_set (word_addresses a len)).
Proof.
  intros Hreach HR Hk Hpa Hpw Hlen Hword skipped.
  pose proof (reachable_wf _ Hreach) as Hwf.
  unfold InvalidateICacheInternal.
  destruct (decide skipped) as [Hs|Hns].
  - destruct Hs as (-> & Hal & Hbit).
    rewrite (bool_decide_true (32 = 32)) by done.
    rewrite (bool_decide_true (Z.land physical_address 31 = 0)) by done.
    cbn [andb]. rewrite bool_decide_false by done.
    exists s. split; [done|]. split; [done|]. split; intros Hno; destruct Hno; done.
  - set (single_line := _ && _).
    set (destroy_block := if single_line then _ else true).
    set (s1 := if single_line then _ else _).
    assert (destroy_block = true) as ->.
    { unfold destroy_block. destruct single_line eqn:Hsl; [|done].
      apply bool_decide_eq_true. destruct (decide (physical_address / 32 ∈ valid_block s));
        [done|]. exfalso. apply Hns. unfold single_line in Hsl.
      apply andb_true_iff in Hsl as [H1%bool_decide_eq_true H2%bool_decide_eq_true].
      done. }
    assert (block_map s1 = block_map s /\ nodes s1 = nodes s /\ next_node s1 = next_node s /\
            fast_block_map s1 = fast_block_map s /\ links_to s1 = links_to s /\
            block_range_map s1 = block_range_map s /\
            fifoWriteAddresses s1 = fifoWriteAddresses s /\
            pairedQuantizeAddresses s1 = pairedQuantizeAddresses s /\
            trace s1 = trace s) as (Hbm & Hn & Hnx & Hf & Hl & Hrm & Hfi & Hpq & Htr).
    { unfold s1. destruct single_line; [done|]. by case_bool_decide. }
    assert (wf s1) as Hwf1.
    { apply (wf_shrunk ∅ s); [done|]. apply shrunk_same_indices; try done.
      intros key. by rewrite Hrm. }
    destruct (ErasePhysicalRange_total k physical_address len s1 Hwf1 HR Hk Hpa Hlen Hpw)
      as (s2 & D & -> & _ & _ & _ & Hfi2 & Hpq2 & Htr2).
    cbn [bind]. destruct forced; cbn [negb].
    + exists s2. split; [done|]. split; [done|]. split; [|done].
      intros _ _. rewrite Htr2, Hfi2, Hpq2, Htr, Hfi, Hpq. done.
    + destruct (Hword eq_refl) as [Ha Haw].
      rewrite (wrap_small (a + len)) by (unfold is_u32; lia).
      destruct (erase_words_spec (Z.to_nat len) a (a + len) s2) as (s3 & -> & Htr3 & Hfi3 & Hpq3);
        [lia|lia|lia|].
      replace (a + len - a) with len in * by lia.
      exists s3. split; [done|]. split; [done|]. split; [done|].
      intros _ _. rewrite Htr3, Hfi3, Hpq3, Htr2, Hfi2, Hpq2, Htr, Hfi, Hpq.
      rewrite <- app_assoc. done.
Qed.

End Notification.


(** * The properties on concrete caches *)

(** A run of [compile_block] from a reachable cache goes through, and ends
    in a reachable cache. *)
Lemma compile_block_reachable msr em_address normal exits block_link footprint s :
  reachable (H := dolphin) s ->
  (forall a, a ∈ footprint -> is_u32 a) ->
  reachable (H := dolphin)
    (compile_block msr em_address normal exits block_link footprint s).
Proof.
  intros Hreach Hu32. unfold compile_block.
  set (m := machine em_address msr). set (p := next_node s).
  pose proof (reachable_wf _ Hreach) as Hwf.
  set (s1 := (AllocateBlock m em_address s).2).
  assert (reachable s1) as Hr1 by (eapply reachable_step; [done|apply step_AllocateBlock]).
  assert (forall a, p ∉ bucket (links_to s1) a) as Hun.
  { intros a Hin. change (links_to s1) with (links_to s) in Hin.
    destruct (wf_links _ Hwf _ _ Hin) as (b & Hb & _).
    pose proof (wf_fresh _ Hwf p ltac:(eauto)). unfold p in *. lia. }
  destruct (emit_code p (normal - 16) normal 64 exits s1) as [s2| |] eqn:Hemit;
    [|unfold emit_code, s1 in Hemit; cbn in Hemit;
      rewrite lookup_insert_eq in Hemit; done..].
  assert (reachable s2) as Hr2 by (eapply reachable_step; [exact Hr1|by eapply step_emit_code]).
  assert (exists b2, nodes s2 !! p = Some b2 /\ physical_addresses b2 = ∅) as (b2 & Hp2 & Hfp2).
  { unfold emit_code, s1 in Hemit. cbn in Hemit. rewrite lookup_insert_eq in Hemit.
    injection Hemit as <-. cbn. eexists. split; [apply lookup_insert_eq|done]. }
  cbn [state_of].
  destruct (FinalizeBlock_total m p b2 block_link footprint s2 (reachable_wf _ Hr2)
              Hp2 Hfp2 Hu32) as (s3 & Hfin & _).
  rewrite Hfin. cbn [state_of].
  eapply reachable_step; [exact Hr2|]. by eapply step_FinalizeBlock.
Qed.

Lemma one_block_reachable : reachable (H := dolphin) one_block.
Proof.
  apply compile_block_reachable; [apply reachable_init|].
  intros a Ha. set_unfold. unfold is_u32. lia.
Qed.

Lemma two_modes_reachable : reachable (H := dolphin) two_modes.
Proof.
  apply compile_block_reachable; [apply one_block_reachable|].
  intros a Ha. set_unfold. unfold is_u32. lia.
Qed.

Lemma dangling_exit_reachable : reachable (H := dolphin) dangling_exit.
Proof.
  apply compile_block_reachable; [apply reachable_init|].
  intros a Ha. set_unfold. unfold is_u32. lia.
Qed.

Lemma linked_pair_reachable : reachable (H := dolphin) linked_pair.
Proof.
  apply compile_block_reachable; [apply compile_block_reachable; [apply reachable_init|]|];
    intros a Ha; set_unfold; unfold is_u32; lia.
Qed.

Lemma evicted_block_reachable : reachable (H := dolphin) evicted_block.
Proof.
  apply compile_block_reachable; [apply one_block_reachable|].
  intros a Ha. set_unfold. unfold is_u32. lia.
Qed.

Lemma noted_block_reachable : reachable (H := dolphin) noted_block.
Proof.
  eapply reachable_step; [apply one_block_reachable|apply step_note_addresses].
Qed.

(** In [two_modes] the lookup for either mode does not return the block of
    the other. *)
Lemma GetBlockFromStartAddress_exact_match_witness :
  reachable (H := dolphin) two_modes /\
  GetBlockFromStartAddress (H := dolphin) (machine 0 0) 0x1000 0x30 two_modes
    <> Some 1%nat /\
  GetBlockFromStartAddress (H := dolphin) (machine 0 0) 0x1000 0x10 two_modes
    <> Some 0%nat.
Proof.
  split; [apply two_modes_reachable|].
  destruct (GetBlockFromStartAddress_exact_match (H := dolphin) (machine 0 0) 0x1000 0x30
              two_modes) as (_ & _ & _ & Hdistinct).
  assert (exists b0, nodes two_modes !! 0%nat = Some b0 /\
                     effectiveAddress b0 = 0x1000 /\ msrBits b0 = 0x30)
    as (b0 & H0 & Hea0 & Hm0)
    by (eexists; split; [vm_compute; reflexivity|split; reflexivity]).
  assert (exists b1, nodes two_modes !! 1%nat = Some b1 /\
                     effectiveAddress b1 = 0x1000 /\ msrBits b1 = 0x10)
    as (b1 & H1 & Hea1 & Hm1)
    by (eexists; split; [vm_compute; reflexivity|split; reflexivity]).
  pose proof (Hdistinct two_modes_reachable 0%nat b0 1%nat b1 H0 H1) as Hd.
  rewrite Hea0, Hm0, Hea1, Hm1 in Hd. apply Hd. intros [= ].
Defined.

(** [AllocateBlock] at an address that does not translate. *)
Lemma AllocateBlock_unmapped_counterexample :
  let r := AllocateBlock (H := dolphin) (unmapped_machine 0 0x30) 0x1000 empty_cache in
  valid (JitCache_TranslateAddress (unmapped_machine 0 0x30) 0x1000) = false /\
  r.1 = Some 0%nat /\ block_map r.2 = [(0, 0%nat)] /\
  block_map r.2 <> block_map empty_cache /\
  (effectiveAddress <$> nodes r.2 !! 0%nat) = Some 0x1000.
Proof.
  cbn zeta. split; [reflexivity|]. split; [reflexivity|]. split; [reflexivity|].
  split; [intros [= ]|]. vm_compute. reflexivity.
Qed.

(** In [dangling_exit] the block is in the bucket of its exit, and the exit
    is not linked. *)
Lemma links_iff_linked_counterexample :
  ~ (forall s, reachable (H := dolphin) s -> links_iff_linked s).
Proof.
  intros Hall. specialize (Hall dangling_exit dangling_exit_reachable).
  assert (exists b, nodes dangling_exit !! 0%nat = Some b /\
            linkData b = [{| exitAddress := 0x2000; linkStatus := false;
                             exitTarget := None |}]) as (b & Hb & Hl)
    by (eexists; split; [vm_compute; reflexivity|reflexivity]).
  specialize (Hall 0%nat b {| exitAddress := 0x2000; linkStatus := false;
                              exitTarget := None |} Hb).
  rewrite Hl in Hall. specialize (Hall ltac:(left)). simpl in Hall.
  assert (0%nat ∈ bucket (links_to dangling_exit) 0x2000) as Hin
    by (vm_compute; reflexivity).
  apply Hall in Hin. discriminate.
Qed.

(** In [linked_pair] the exit of block 1 is linked, and block 1 is in the
    bucket of its target. *)
Lemma linked_exit_is_registered_witness :
  reachable (H := dolphin) linked_pair /\
  1%nat ∈ bucket (links_to linked_pair) 0x2000.
Proof.
  split; [apply linked_pair_reachable|].
  destruct (linked_exit_is_registered (H := dolphin) linked_pair linked_pair_reachable)
    as [Hst _].
  assert (exists b, nodes linked_pair !! 1%nat = Some b /\
            linkData b = [{| exitAddress := 0x2000; linkStatus := true;
                             exitTarget := Some 0%nat |}]) as (b & Hb & Hl)
    by (eexists; split; [vm_compute; reflexivity|reflexivity]).
  apply (Hst 1%nat b {| exitAddress := 0x2000; linkStatus := true;
                        exitTarget := Some 0%nat |} Hb); [|reflexivity].
  rewrite Hl. left.
Defined.

(** In [two_modes] block 0 has been displaced from its slot by block 1, and
    still has the index of the slot. *)
Lemma fast_slot_points_back_counterexample :
  ~ (forall s, reachable (H := dolphin) s -> fast_slot_points_back s).
Proof.
  intros Hall. specialize (Hall two_modes two_modes_reachable).
  assert (exists b, nodes two_modes !! 0%nat = Some b /\ fast_block_map_index b = 1024)
    as (b & Hb & Hi) by (eexists; split; [vm_compute; reflexivity|reflexivity]).
  specialize (Hall 0%nat b Hb). rewrite Hi in Hall. specialize (Hall ltac:(lia)).
  assert (fast_block_map two_modes !! 1024 = Some 1%nat) as Hslot
    by (vm_compute; reflexivity).
  rewrite Hslot in Hall. discriminate Hall.
Qed.

(** The slot of 0x1000 in [two_modes] holds block 1, which has its index. *)
Lemma fast_slot_occupant_witness :
  reachable (H := dolphin) two_modes /\
  exists b, nodes two_modes !! 1%nat = Some b /\ fast_block_map_index b = 1024 /\
    1024 = FastLookupIndexForAddress (H := dolphin) (effectiveAddress b).
Proof.
  split; [apply two_modes_reachable|].
  apply (fast_slot_occupant (H := dolphin) two_modes two_modes_reachable).
  vm_compute. reflexivity.
Defined.



(** The blocks of [one_block] and of [evicted_block]. *)
Lemma one_block_only :
  exists b, nodes one_block !! 0%nat = Some b /\ effectiveAddress b = 0x1000 /\
    physicalAddress b = 0x1000 /\ msrBits b = 0x30 /\ normalEntry b = 0x7010 /\
    forall p' b', nodes one_block !! p' = Some b' -> p' = 0%nat /\ b' = b.
Proof.
  eexists. split; [vm_compute; reflexivity|]. do 4 (split; [reflexivity|]).
  intros p' b' Hp'. assert (p' = 0%nat) as ->.
  { apply elem_of_dom_2 in Hp'.
    assert (dom (nodes one_block) = {[0%nat]}) as Hd by (vm_compute; reflexivity).
    rewrite Hd in Hp'. by apply elem_of_singleton in Hp'. }
  split; [done|]. vm_compute in Hp'. by injection Hp' as <-.
Qed.

Lemma evicted_block_only :
  exists b, nodes evicted_block !! 0%nat = Some b /\ effectiveAddress b = 0x1000 /\
    physicalAddress b = 0x1000 /\ msrBits b = 0x30 /\ normalEntry b = 0x7010 /\
    fast_block_map evicted_block !! FastLookupIndexForAddress (H := dolphin) 0x1000
      = Some 1%nat /\
    forall p' b', nodes evicted_block !! p' = Some b' ->
      matches (H := dolphin) b' 0x1000 0x30 -> p' = 0%nat.
Proof.
  eexists. split; [vm_compute; reflexivity|]. do 4 (split; [reflexivity|]).
  split; [vm_compute; reflexivity|].
  intros p' b' Hp' [Hea _].
  assert (p' ∈ dom (nodes evicted_block)) as Hin by by eapply elem_of_dom_2.
  assert (dom (nodes evicted_block) = {[0%nat; 1%nat]}) as Hd by (vm_compute; reflexivity).
  rewrite Hd in Hin. apply elem_of_union in Hin as [Hin|Hin];
    apply elem_of_singleton in Hin; subst p'; [done|].
  vm_compute in Hp'. injection Hp' as <-. discriminate Hea.
Qed.

(** The scenario of one block at 0x1000: [Dispatch] under the mode of the
    block returns its entry, under another mode it returns null. After the
    block has lost its slot to the block at 0x41000, [Dispatch] finds it
    through the store while the translation maps 0x1000 to where it was
    compiled, and returns null once the translation maps nothing. *)
Lemma Dispatch_returns_matching_block_witness :
  reachable (H := dolphin) one_block /\
  (exists s', Dispatch (H := dolphin) (machine 0x1000 0x30) one_block
              = Ok (Some 0x7010, s')) /\
  Dispatch (H := dolphin) (machine 0x1000 0x10) one_block = Ok (None, one_block) /\
  reachable (H := dolphin) evicted_block /\
  (exists s', Dispatch (H := dolphin) (machine 0x1000 0x30) evicted_block
              = Ok (Some 0x7010, s') /\
     fast_block_map s' !! FastLookupIndexForAddress (H := dolphin) 0x1000
       = Some 0%nat) /\
  Dispatch (H := dolphin) (unmapped_machine 0x1000 0x30) evicted_block
    = Ok (None, evicted_block).
Proof.
  split; [apply one_block_reachable|].
  destruct one_block_only as (b & Hb & Hea & Hpa & Hm & Hn & Honly).
  destruct evicted_block_only as (c & Hc & Hcea & Hcpa & Hcm & Hcn & Hslot & Hconly).
  split; [|split; [|split; [apply evicted_block_reachable|split]]].
  - destruct (Dispatch_returns_matching_block (H := dolphin) (machine 0x1000 0x30) one_block
                one_block_reachable) as (_ & _ & Hfound).
    destruct (Hfound 0%nat b Hb) as [Hhit _].
    + split; [exact Hea|]. rewrite Hm. reflexivity.
    + intros p' b' Hp' _. by destruct (Honly p' b' Hp').
    + destruct Hhit as (s' & Hrun & _); [left; vm_compute; reflexivity|].
      exists s'. rewrite Hrun, Hn. reflexivity.
  - destruct (Dispatch_returns_matching_block (H := dolphin) (machine 0x1000 0x10) one_block
                one_block_reachable) as (_ & Hmiss & _).
    apply Hmiss. intros p' b' Hp' [_ Hmode].
    destruct (Honly p' b' Hp') as [_ ->]. rewrite Hm in Hmode. discriminate.
  - destruct (Dispatch_returns_matching_block (H := dolphin) (machine 0x1000 0x30)
                evicted_block evicted_block_reachable) as (_ & _ & Hfound).
    destruct (Hfound 0%nat c Hc) as [Hhit _].
    + split; [exact Hcea|]. rewrite Hcm. reflexivity.
    + exact Hconly.
    + destruct Hhit as (s' & Hrun & Hin).
      * right. unfold stored_at_lookup_key. cbn. split; [reflexivity|]. by rewrite Hcpa.
      * exists s'. rewrite Hrun, Hcn. split; [reflexivity|exact Hin].
  - destruct (Dispatch_returns_matching_block (H := dolphin) (unmapped_machine 0x1000 0x30)
                evicted_block evicted_block_reachable) as (_ & _ & Hfound).
    destruct (Hfound 0%nat c Hc) as [_ Hlost].
    + split; [exact Hcea|]. rewrite Hcm. reflexivity.
    + exact Hconly.
    + apply Hlost.
      * cbn [PC unmapped_machine]. rewrite Hslot. intros [= ].
      * unfold stored_at_lookup_key. cbn. intros [Hv _]. discriminate.
Defined.

(** The block at 0x1000 of [evicted_block] is the only one compiled for
    0x1000 and its mode, and it is not in the slot of 0x1000, which the
    block at 0x41000 took over. Under a translation that does not map
    0x1000 the store lookup gives up before it searches, and [Dispatch]
    returns null. *)
Lemma Dispatch_misses_stored_block_counterexample :
  reachable (H := dolphin) evicted_block /\
  ~ Dispatch_finds_match (H := dolphin) (unmapped_machine 0x1000 0x30) evicted_block /\
  exists b, nodes evicted_block !! 0%nat = Some b /\
    matches (H := dolphin) b 0x1000 0x30 /\
    (forall p' b', nodes evicted_block !! p' = Some b' ->
       matches (H := dolphin) b' 0x1000 0x30 -> p' = 0%nat) /\
    Dispatch (H := dolphin) (unmapped_machine 0x1000 0x30) evicted_block
      = Ok (None, evicted_block).
Proof.
  destruct evicted_block_only as (c & Hc & Hcea & Hcpa & Hcm & Hcn & Hslot & Hconly).
  assert (Dispatch (H := dolphin) (unmapped_machine 0x1000 0x30) evicted_block
          = Ok (None, evicted_block)) as Hrun by (vm_compute; reflexivity).
  assert (matches (H := dolphin) c 0x1000 0x30) as Hmatch
    by (split; [exact Hcea|rewrite Hcm; reflexivity]).
  split; [apply evicted_block_reachable|]. split.
  - intros Hall. destruct (Hall 0%nat c Hc Hmatch Hconly) as (s' & Hs').
    rewrite Hrun in Hs'. discriminate.
  - exists c. split; [exact Hc|]. split; [exact Hmatch|].
    split; [exact Hconly|exact Hrun].
Qed.

(** The cache line at 0x2000 holds no code of [one_block]. *)
Lemma InvalidateICacheInternal_clear_line_witness :
  Z.land 0x2000 0x1f = 0 /\ 0x2000 / 32 ∉ valid_block one_block /\
  InvalidateICacheInternal (H := dolphin) 0x2000 0x2000 32 false one_block = Ok one_block.
Proof.
  assert (0x2000 / 32 ∉ valid_block one_block) as Hbit.
  { intros Hin. vm_compute in Hin. discriminate. }
  split; [reflexivity|]. split; [exact Hbit|].
  apply (InvalidateICacheInternal_clear_line (H := dolphin) 0x2000 0x2000 false one_block);
    [reflexivity|exact Hbit].
Defined.

(** A write of one word to an empty cache: no block is there to destroy,
    and the word address is erased all the same. *)
Lemma notification_without_destruction_counterexample :
  exists s',
    InvalidateICacheInternal (H := dolphin) 0x1000 0x1000 4 false noted_address = Ok s' /\
    nodes noted_address = ∅ /\ nodes s' = ∅ /\
    0x1000 ∈ fifoWriteAddresses noted_address /\
    0x1000 ∉ fifoWriteAddresses s' /\
    trace s' = [EvErasePhysicalRange 0x1000 4; EvEraseWord 0x1000].
Proof.
  eexists. split; [vm_compute; reflexivity|].
  split; [reflexivity|]. split; [reflexivity|]. split; [vm_compute; reflexivity|].
  split; [|reflexivity]. intros Hin. vm_compute in Hin. discriminate.
Qed.

(** Two words written at 0x1000 of [noted_block]: the range is erased and
    then the two word addresses are, which takes 0x1000 and 0x1004 out of
    the sets they were noted in; a forced call for the same range leaves
    the sets as they are; and a write to the line at 0x2000, which holds no
    code, is skipped. *)
Lemma InvalidateICacheInternal_notification_witness :
  reachable (H := dolphin) noted_block /\
  BLOCK_RANGE_MAP_ELEMENTS (Constants := dolphin) = 2 ^ 8 /\
  (exists s',
     InvalidateICacheInternal (H := dolphin) 0x1000 0x1000 8 false noted_block = Ok s' /\
     trace s' = trace noted_block ++
                EvErasePhysicalRange 0x1000 8 :: (EvEraseWord <$> word_addresses 0x1000 8) /\
     fifoWriteAddresses noted_block = {[0x1000; 0x1004]} /\
     fifoWriteAddresses s' =
       fifoWriteAddresses noted_block ∖ list_to_set (word_addresses 0x1000 8) /\
     pairedQuantizeAddresses s' =
       pairedQuantizeAddresses noted_block ∖ list_to_set (word_addresses 0x1000 8)) /\
  (exists s',
     InvalidateICacheInternal (H := dolphin) 0x1000 0x1000 8 true noted_block = Ok s' /\
     trace s' = trace noted_block ++ [EvErasePhysicalRange 0x1000 8] /\
     fifoWriteAddresses s' = fifoWriteAddresses noted_block /\
     pairedQuantizeAddresses s' = pairedQuantizeAddresses noted_block) /\
  InvalidateICacheInternal (H := dolphin) 0x2000 0x2000 32 false noted_block
    = Ok noted_block.
Proof.
  split; [apply noted_block_reachable|]. split; [reflexivity|].
  assert (0x2000 / 32 ∉ valid_block noted_block) as Hbit.
  { intros Hin. vm_compute in Hin. discriminate. }
  split; [|split].
  - destruct (InvalidateICacheInternal_notification (H := dolphin) 8 0x1000 0x1000 8 false
                noted_block noted_block_reachable) as (s' & Hrun & _ & _ & Hnotify);
      [reflexivity|lia..|].
    exists s'. split; [exact Hrun|].
    destruct Hnotify as (Htr & Hfifo & Hpq); [|reflexivity|].
    + intros (Hlen & _). discriminate.
    + split; [exact Htr|]. split; [|split; [exact Hfifo|exact Hpq]].
      vm_compute. reflexivity.
  - destruct (InvalidateICacheInternal_notification (H := dolphin) 8 0x1000 0x1000 8 true
                noted_block noted_block_reachable) as (s' & Hrun & _ & Hquiet & _);
      [reflexivity|lia..|].
    exists s'. split; [exact Hrun|]. apply Hquiet; [|reflexivity].
    intros (Hlen & _). discriminate.
  - destruct (InvalidateICacheInternal_notification (H := dolphin) 8 0x2000 0x2000 32 false
                noted_block noted_block_reachable) as (s' & Hrun & Hskip & _);
      [reflexivity|lia..|].
    rewrite Hrun. f_equal. apply Hskip. split; [reflexivity|]. split; [reflexivity|].
    exact Hbit.
Defined.

(** Erasing the word at 0x1000 of [linked_pair] takes block 1 out. *)
Lemma ErasePhysicalRange_complete_witness :
  reachable (H := dolphin) linked_pair /\
  BLOCK_RANGE_MAP_ELEMENTS (Constants := dolphin) = 2 ^ 8 /\
  exists s', ErasePhysicalRange (H := dolphin) 0x1000 4 linked_pair = Ok s' /\
    nodes s' !! 1%nat = None /\
    forall m, GetBlockFromStartAddress (H := dolphin) m 0x1000 0x30 s' = None.
Proof.
  split; [apply linked_pair_reachable|]. split; [reflexivity|].
  destruct (ErasePhysicalRange_complete (H := dolphin) 8 0x1000 4 linked_pair
              linked_pair_reachable) as (s' & Hrun & Hgone & _);
    [reflexivity|lia..|].
  assert (exists b, nodes linked_pair !! 1%nat = Some b /\ effectiveAddress b = 0x1000 /\
            msrBits b = 0x30 /\ 0x1000 ∈ physical_addresses b) as (b & Hb & Hea & Hm & Hfp)
    by (eexists; split; [vm_compute; reflexivity|repeat split; vm_compute; reflexivity]).
  assert (exists b, nodes linked_pair !! 0%nat = Some b /\ effectiveAddress b = 0x2000)
    as (b0 & Hb0 & Hea0)
    by (eexists; split; [vm_compute; reflexivity|reflexivity]).
  destruct (Hgone 1%nat b Hb) as (Hnode & _ & _ & _ & _ & _ & _ & Hfind).
  { exists 0x1000. split; [exact Hfp|lia]. }
  exists s'. split; [exact Hrun|]. split; [exact Hnode|].
  intros m. rewrite <- Hea, <- Hm. apply Hfind.
  intros p' b' Hp' Hea' _.
  assert (p' ∈ ({[0%nat; 1%nat]} : gset nat)) as Hdom.
  { apply elem_of_dom_2 in Hp'.
    assert (dom (nodes linked_pair) = {[0%nat; 1%nat]}) as Hd by (vm_compute; reflexivity).
    by rewrite Hd in Hp'. }
  apply elem_of_union in Hdom as [->%elem_of_singleton| ->%elem_of_singleton]; [|done].
  rewrite Hb0 in Hp'. injection Hp' as <-. rewrite Hea0, Hea in Hea'. discriminate.
Defined.


(** * Further properties *)

(** ** The order of the store *)

Lemma StronglySorted_sublist {A : Type} (R : relation A) (l l' : list A) :
  StronglySorted R l -> l' `sublist_of` l -> StronglySorted R l'.
Proof.
  intros Hs Hsub. induction Hsub as [|x l1 l2 Hsub IH|x l1 l2 Hsub IH].
  - constructor.
  - apply StronglySorted_inv in Hs as [Hs Hall]. constructor; [by apply IH|].
    rewrite Forall_forall in Hall |- *. intros y Hy. apply Hall.
    by eapply elem_of_sublist.
  - apply StronglySorted_inv in Hs as [Hs _]. by apply IH.
Qed.

Lemma key_ordered_emplace k p l :
  key_ordered l -> key_ordered (multimap_emplace k p l).
Proof.
  unfold key_ordered. induction l as [|e l IH]; intros Hs; simpl.
  - repeat constructor.
  - apply StronglySorted_inv in Hs as [Hs Hall]. case_bool_decide as Hle.
    + constructor; [by apply IH|]. rewrite Forall_forall in Hall |- *.
      intros y Hy. apply elem_of_multimap_emplace in Hy as [->|Hy]; [done|by apply Hall].
    + constructor; [by constructor|]. constructor; [simpl; lia|].
      rewrite Forall_forall in Hall |- *. intros y Hy. specialize (Hall y Hy).
      simpl. lia.
Qed.

(** ** Linking changes nothing but [linkData] *)

Lemma relinked_block_refl b : relinked_block b b.
Proof. split; [by destruct b|done]. Qed.

Lemma relinked_block_trans b1 b2 b3 :
  relinked_block b1 b2 -> relinked_block b2 b3 -> relinked_block b1 b3.
Proof.
  intros [E1 A1] [E2 A2]. split; [|congruence].
  rewrite E2 at 1. rewrite E1 at 1. by destruct b1.
Qed.

Lemma relinked_refl s : relinked s s.
Proof.
  split; [by destruct s|]. intros q. destruct (nodes s !! q) as [b|]; constructor.
  apply relinked_block_refl.
Qed.

Lemma relinked_trans s1 s2 s3 : relinked s1 s2 -> relinked s2 s3 -> relinked s1 s3.
Proof.
  intros [H1 N1] [H2 N2]. split.
  - destruct s1, s2, s3. unfold set_nodes in *. simpl in *. congruence.
  - intros q. specialize (N1 q). specialize (N2 q).
    destruct N1 as [b1 b2 E1|]; inversion N2 as [b2' b3 E2|]; subst; constructor.
    by eapply relinked_block_trans.
Qed.

Lemma relinked_insert s q b l :
  nodes s !! q = Some b -> exitAddress <$> l = exitAddress <$> linkData b ->
  relinked s (set_nodes (insert q (set_linkData l b)) s).
Proof.
  intros Hq Hl. split; [by destruct s|]. intros q'. simpl.
  destruct (decide (q' = q)) as [->|Hne].
  - rewrite lookup_insert_eq, Hq. constructor. split; [by destruct b|done].
  - rewrite lookup_insert_ne by done. destruct (nodes s !! q') as [b'|]; constructor.
    apply relinked_block_refl.
Qed.

Lemma LinkBlockExits_relinked `{Constants} m p s s' :
  LinkBlockExits m p s = Ok s' -> relinked s s'.
Proof.
  unfold LinkBlockExits. destruct (nodes s !! p) as [b|] eqn:Hp; [|done].
  intros [= <-]. apply relinked_insert; [done|].
  rewrite <- list_fmap_compose. apply list_fmap_ext. intros i e _. apply link_exit_address.
Qed.

Lemma link_sources_relinked `{Constants} m msr l s s' :
  link_sources m msr l s = Ok s' -> relinked s s'.
Proof.
  revert s. induction l as [|q l IH]; intros s; simpl.
  - intros [= <-]. apply relinked_refl.
  - destruct (nodes s !! q) as [b|]; [|done]. case_bool_decide; [|apply IH].
    destruct (LinkBlockExits m q s) as [s1| |] eqn:H1; simpl; [|done..].
    intros H2. eapply relinked_trans; [by eapply LinkBlockExits_relinked|by apply IH].
Qed.

Lemma LinkBlock_relinked `{Constants} m p s s' :
  LinkBlock m p s = Ok s' -> relinked s s'.
Proof.
  unfold LinkBlock. destruct (LinkBlockExits m p s) as [s1| |] eqn:H1; simpl; [|done..].
  destruct (nodes s1 !! p) as [b|]; [|done].
  destruct (links_to s1 !! effectiveAddress b) as [srcs|].
  - intros H2. eapply relinked_trans; [by eapply LinkBlockExits_relinked|].
    by eapply link_sources_relinked.
  - intros [= <-]. by eapply LinkBlockExits_relinked.
Qed.

(** ** The store stays in key order *)

Section StoreOrder.

Context `{Constants}.

Lemma relinked_block_map s s' : relinked s s' -> block_map s' = block_map s.
Proof. intros [-> _]. reflexivity. Qed.

Lemma FinalizeBlock_block_map m p block_link footprint s s' :
  FinalizeBlock m p block_link footprint s = Ok s' -> block_map s' = block_map s.
Proof.
  unfold FinalizeBlock. destruct (nodes s !! p) as [b|]; [|done].
  set (s1 := set_nodes _ _).
  destruct (foldl_register_address p (ascending footprint) s1) as [(Hbm & _) _].
  destruct block_link.
  - intros Hl. apply LinkBlock_relinked, relinked_block_map in Hl.
    rewrite Hl. simpl. rewrite Hbm. reflexivity.
  - intros [= <-]. rewrite Hbm. reflexivity.
Qed.

Lemma MoveBlockIntoFastCache_block_map m addr msr s r s' :
  MoveBlockIntoFastCache m addr msr s = Ok (r, s') -> block_map s' = block_map s.
Proof.
  unfold MoveBlockIntoFastCache.
  destruct (GetBlockFromStartAddress m addr msr s) as [p|]; [|by intros [= _ <-]].
  destruct (nodes s !! p) as [b|]; [|done]. intros [= _ <-]. simpl.
  by case_bool_decide.
Qed.

Lemma Dispatch_block_map m s r s' :
  Dispatch m s = Ok (r, s') -> block_map s' = block_map s.
Proof.
  unfold Dispatch.
  set (slow := bind _ _).
  assert (slow = Ok (r, s') -> block_map s' = block_map s) as Hslow.
  { unfold slow.
    destruct (MoveBlockIntoFastCache m (PC m) (Z.land (MSR_Hex m) JIT_CACHE_MSR_MASK) s)
      as [[r1 s1]| |] eqn:Hmv; simpl; [|done..].
    apply MoveBlockIntoFastCache_block_map in Hmv.
    destruct r1 as [p|]; [|by intros [= _ <-]].
    destruct (nodes s1 !! p); [|done]. by intros [= _ <-]. }
  destruct (fast_block_map s !! FastLookupIndexForAddress (PC m)) as [p|]; [|done].
  destruct (nodes s !! p) as [b|]; [|done].
  destruct (_ || _); [done|]. by intros [= _ <-].
Qed.

Lemma step_block_map s s' :
  wf s -> step s s' ->
  block_map s' `sublist_of` block_map s \/
  exists k p, block_map s' = multimap_emplace k p (block_map s).
Proof.
  intros Hwf Hstep. destruct Hstep as
    [s' Hc|m a|p c n z ex s' Hfree He|m p b bl fp s' Hp Hfp Hu Hf|m r s' Hd
    |m a s' Hi|m a l forced s' Hi|a l s' He|fifo paired].
  - left. unfold Clear in Hc. destruct (destroy_all _ _); simpl in Hc; [|done..].
    injection Hc as <-. apply sublist_nil_l.
  - right. eexists _, _. reflexivity.
  - left. unfold emit_code in He. destruct (nodes s !! p); [|done].
    injection He as <-. reflexivity.
  - left. by rewrite (FinalizeBlock_block_map _ _ _ _ _ _ Hf).
  - left. by rewrite (Dispatch_block_map _ _ _ _ Hd).
  - left. unfold InvalidateICacheLine in Hi. destruct (valid _).
    + destruct (InvalidateICacheInternal_shrunk _ _ _ _ _ _ Hwf Hi) as (D & Hsh & _).
      apply (shrunk_sublist _ _ _ Hsh).
    + by injection Hi as <-.
  - left. unfold InvalidateICache in Hi.
    apply (InvalidateICache_loop_preserves
             (fun x => wf x /\ block_map x `sublist_of` block_map s)
             (invalidate_chunk forced)) in Hi; [by destruct Hi|..|done].
    intros t a' l' x y [Hwx Hsx] Hv. unfold invalidate_chunk in Hv.
    destruct (valid t); [|by injection Hv as <-].
    split; [by eapply InvalidateICacheInternal_wf|].
    destruct (InvalidateICacheInternal_shrunk _ _ _ _ _ _ Hwx Hv) as (D & Hsh & _).
    etrans; [apply (shrunk_sublist _ _ _ Hsh)|done].
  - left. destruct (ErasePhysicalRange_shrunk _ _ _ _ Hwf He) as (D & Hsh & _).
    apply (shrunk_sublist _ _ _ Hsh).
  - by left.
Qed.

Lemma reachable_key_ordered s : reachable s -> key_ordered (block_map s).
Proof.
  induction 1 as [|s s' Hr IH Hstep]; [constructor|].
  destruct (step_block_map s s' (reachable_wf _ Hr) Hstep) as [Hsub|(k & p & ->)].
  - by eapply StronglySorted_sublist.
  - by apply key_ordered_emplace.
Qed.

End StoreOrder.


(** ** Walking over the store *)

Lemma run_on_blocks_spec (nd : gmap nat JitBlock) (l : list (Z * nat)) :
  (forall e, e ∈ l -> exists b, nd !! e.2 = Some b /\ physicalAddress b = e.1) ->
  exists visited : list (nat * JitBlock),
    visited.*1 = l.*2 /\
    (fun pb => physicalAddress pb.2) <$> visited = l.*1 /\
    (forall pb, pb ∈ visited -> nd !! pb.1 = Some pb.2) /\
    forall (A : Type) (f : JitBlock -> A -> A) (acc : A),
      run_on_blocks f nd l acc = Ok (foldl (fun a pb => f pb.2 a) acc visited).
Proof.
  induction l as [|e l IH]; intros Hl.
  - exists []. split; [done|]. split; [done|]. split; [|done].
    intros pb Hpb. by apply elem_of_nil in Hpb.
  - destruct (Hl e) as (b & Hb & Hk); [left|].
    destruct IH as (visited & H1 & H2 & H3 & H4).
    { intros e' He'. apply Hl. by right. }
    exists ((e.2, b) :: visited). split; [|split; [|split]].
    + rewrite !fmap_cons. by rewrite H1.
    + rewrite !fmap_cons. simpl. by rewrite H2, Hk.
    + intros pb [->|Hpb]%elem_of_cons; [done|by apply H3].
    + intros A f acc. simpl. rewrite Hb. apply H4.
Qed.

Section Walking.

Context `{Constants}.

(** X1: [RunOnBlocks] on a reachable cache returns, and has called [f] on
    each block of the cache once, in the order of the physical addresses
    the blocks are stored under. *)
Theorem RunOnBlocks_visits_each_block s :
  reachable s ->
  exists visited : list (nat * JitBlock),
    visited ≡ₚ map_to_list (nodes s) /\
    StronglySorted Z.le ((fun pb => physicalAddress pb.2) <$> visited) /\
    forall (A : Type) (f : JitBlock -> A -> A) (acc : A),
      RunOnBlocks f s acc = Ok (foldl (fun a pb => f pb.2 a) acc visited).
Proof.
  intros Hr. pose proof (reachable_wf _ Hr) as Hwf.
  destruct (run_on_blocks_spec (nodes s) (block_map s)) as (visited & H1 & H2 & H3 & H4).
  { intros [k p] He. by apply (wf_store _ Hwf). }
  exists visited. split; [|split; [|exact H4]].
  - apply NoDup_Permutation.
    + apply (NoDup_fmap_1 fst). rewrite H1. apply (wf_nodup _ Hwf).
    + apply NoDup_map_to_list.
    + intros [p b]. rewrite elem_of_map_to_list. split; [apply H3|].
      intros Hp.
      assert ((physicalAddress b, p) ∈ block_map s) as Hin
        by (apply (wf_store _ Hwf); eauto).
      assert (p ∈ visited.*1) as Hv.
      { rewrite H1. apply list_elem_of_fmap. by exists (physicalAddress b, p). }
      apply list_elem_of_fmap in Hv as ([p' b'] & -> & Hv).
      pose proof (H3 _ Hv) as Hb'. simpl in Hb', Hp. rewrite Hp in Hb'.
      by injection Hb' as <-.
  - rewrite H2. apply (StronglySorted_fmap fst (fun e1 e2 => e1.1 <= e2.1)); [done|].
    by apply reachable_key_ordered.
Qed.

(** X2: a patched exit is safe to take. In a reachable cache, an exit whose
    branch jumps straight into a block has its [linkStatus] set, the block
    it jumps into is in the cache, was compiled for the address of the exit
    and for the mode of the block the exit belongs to; and that block is in
    the bucket of [links_to] under the address, where [UnlinkBlock] looks
    for it when the block jumped into is destroyed. *)
Theorem patched_exit_enters_live_block s :
  reachable s ->
  forall p b e d,
    nodes s !! p = Some b -> e ∈ linkData b -> exitTarget e = Some d ->
    linkStatus e = true /\
    (exists bd, nodes s !! d = Some bd /\ effectiveAddress bd = exitAddress e /\
                msrBits bd = msrBits b /\
                p ∈ bucket (links_to s) (effectiveAddress bd)).
Proof.
  intros Hr p b e d Hp He Hd. pose proof (reachable_wf _ Hr) as Hwf.
  destruct (wf_target _ Hwf p b e d Hp He Hd) as (Hst & bd & Hbd & Ha & Hm).
  split; [done|]. exists bd. repeat split; try done.
  rewrite Ha. by eapply wf_status.
Qed.

(** X3: the range index is exact. In a reachable cache, a block is in the
    bucket of [block_range_map] of a macro block exactly when it is in the
    cache and has code at an address of that macro block; and the
    addresses of its code are 32-bit addresses. *)
Theorem block_range_map_membership s :
  reachable s ->
  (forall k p, p ∈ bucket (block_range_map s) k <->
     exists b addr, nodes s !! p = Some b /\ addr ∈ physical_addresses b /\
                    Z.land addr range_mask = k) /\
  (forall p b addr, nodes s !! p = Some b -> addr ∈ physical_addresses b ->
     is_u32 addr).
Proof.
  intros Hr. pose proof (reachable_wf _ Hr) as Hwf. split.
  - intros k p. split.
    + intros Hin. destruct (wf_range _ Hwf k p Hin) as (b & Hb & addr & Ha & Hk).
      by exists b, addr.
    + intros (b & addr & Hb & Ha & <-). by apply (wf_footprint _ Hwf p b addr).
  - intros p b addr Hb Ha. by apply (wf_footprint _ Hwf p b addr).
Qed.

End Walking.


(** ** Clearing the cache *)

Lemma destroy_all_spec l s :
  (forall e, e ∈ l -> is_Some (nodes s !! e.2)) ->
  (forall a q, q ∈ bucket (links_to s) a -> is_Some (nodes s !! q)) ->
  exists s1, destroy_all l s = Ok s1 /\ next_node s1 = next_node s /\
    fifoWriteAddresses s1 = fifoWriteAddresses s /\
    pairedQuantizeAddresses s1 = pairedQuantizeAddresses s /\ trace s1 = trace s.
Proof.
  revert s. induction l as [|e l IH]; intros s Hl Hlinks; simpl.
  - by exists s.
  - destruct (Hl e) as [b Hb]; [left|].
    destruct (DestroyBlock_live s e.2 b Hb Hlinks)
      as (s3 & Hd & (_ & Hnn & _ & _ & Hf & Hpq & Htr) & Hnodes & _ & Hlt & _).
    rewrite Hd. simpl.
    assert (forall q, is_Some (nodes s !! q) -> is_Some (nodes s3 !! q)) as Hlive.
    { intros q [bq Hbq]. specialize (Hnodes q). rewrite Hbq in Hnodes.
      inversion Hnodes. eauto. }
    destruct (IH s3) as (s1 & Hrun & H1 & H2 & H3 & H4).
    + intros e' He'. apply Hlive, Hl. by right.
    + intros a q Hq. apply Hlt in Hq as [Hq _]. by eapply Hlive, Hlinks.
    + exists s1. repeat split; congruence.
Qed.

Section Clearing.

Context `{Constants}.

(** X4: [Clear] on a reachable cache returns and leaves every container of
    the cache and both address sets of [m_jit.js] empty; [Init] and [Reset]
    do the same, and a second [Clear] changes nothing. In the cleared cache
    every lookup and every [Dispatch] comes back with null. *)
Theorem Clear_empties_cache s :
  reachable s ->
  let s' := {| block_map := []; nodes := ∅; next_node := next_node s;
               links_to := ∅; block_range_map := ∅; valid_block := ∅;
               fast_block_map := ∅; fifoWriteAddresses := ∅;
               pairedQuantizeAddresses := ∅; trace := trace s |} in
  Clear s = Ok s' /\ Init s = Ok s' /\ Reset s = Ok s' /\ Clear s' = Ok s' /\
  (forall m addr msr, GetBlockFromStartAddress m addr msr s' = None) /\
  (forall m, Dispatch m s' = Ok (None, s')).
Proof.
  intros Hr s'. pose proof (reachable_wf _ Hr) as Hwf.
  assert (Clear s = Ok s') as Hc.
  { unfold Clear.
    destruct (destroy_all_spec (block_map s) (set_js ∅ ∅ s))
      as (s1 & Hrun & H1 & H2 & H3 & H4).
    - intros [k p] He. apply (wf_store _ Hwf) in He as (b & Hb & _). simpl. eauto.
    - intros a q Hq. destruct (wf_links _ Hwf a q Hq) as (b & Hb & _). simpl. eauto.
    - rewrite Hrun. simpl. rewrite H1, H2, H3, H4. reflexivity. }
  assert (forall m addr msr, GetBlockFromStartAddress m addr msr s' = None) as Hg.
  { intros m addr msr. unfold GetBlockFromStartAddress. simpl.
    destruct (UReg_MSR_IR msr); [|done]. by destruct (negb _). }
  split; [exact Hc|]. split; [exact Hc|]. split; [exact Hc|].
  split; [reflexivity|]. split; [exact Hg|].
  intros m. unfold Dispatch, MoveBlockIntoFastCache. rewrite Hg. simpl.
  rewrite lookup_empty. reflexivity.
Qed.

(** X5: [DestroyBlock] on a block of a reachable cache returns and takes the
    block out of the fast map and out of every bucket of [links_to], and no
    exit of any block is patched into it afterwards; the other slots, the
    other members of the buckets and the exits that are still patched are
    as before. It does not take the block out of [block_map] or out of
    [block_range_map], and leaves the valid-block set alone: that is left
    to the caller. *)
Theorem DestroyBlock_severs_block s p b :
  reachable s -> nodes s !! p = Some b ->
  exists s', DestroyBlock p s = Ok s' /\
    (block_map s' = block_map s /\ block_range_map s' = block_range_map s /\
     valid_block s' = valid_block s) /\
    (forall q, is_Some (nodes s' !! q) <-> is_Some (nodes s !! q)) /\
    (forall i q, fast_block_map s' !! i = Some q <->
       fast_block_map s !! i = Some q /\ q <> p) /\
    (forall a q, q ∈ bucket (links_to s') a <-> q ∈ bucket (links_to s) a /\ q <> p) /\
    (forall q bq e, nodes s' !! q = Some bq -> e ∈ linkData bq ->
       exitTarget e <> Some p) /\
    (forall q bq e d, nodes s' !! q = Some bq -> e ∈ linkData bq ->
       exitTarget e = Some d ->
       exists bq0, nodes s !! q = Some bq0 /\ e ∈ linkData bq0).
Proof.
  intros Hr Hp. pose proof (reachable_wf _ Hr) as Hwf.
  destruct (DestroyBlock_spec s s p b Hwf eq_refl eq_refl eq_refl Hp)
    as (s' & Hd & (Hbm & _ & Hbr & Hvb & _) & Hnodes & Hfast & Hlt).
  assert (forall q bq e, nodes s' !! q = Some bq -> e ∈ linkData bq ->
            exists bq0 e0, nodes s !! q = Some bq0 /\ e0 ∈ linkData bq0 /\
                           exit_unlinked {[p]} e0 e) as Hexit.
  { intros q bq e Hq He. specialize (Hnodes q). rewrite Hq in Hnodes.
    inversion Hnodes as [bq0 bq' Hun E1 E2|]; subst.
    destruct (block_unlinked_exit _ _ _ _ Hun He) as (e0 & He0 & Hx). eauto. }
  exists s'. split; [exact Hd|]. split; [done|]. split; [|split; [exact Hfast|]].
  - intros q. specialize (Hnodes q). split; intros [bq Hq]; rewrite Hq in Hnodes;
      inversion Hnodes; eauto.
  - split; [exact Hlt|]. split.
    + intros q bq e Hq He Hd'. destruct (Hexit q bq e Hq He) as (bq0 & e0 & _ & _ & Hx).
      destruct Hx as (_ & _ & Ht). destruct (Ht p Hd') as [_ Hnot]. set_solver.
    + intros q bq e d Hq He Hd'. destruct (Hexit q bq e Hq He) as (bq0 & e0 & Hq0 & He0 & Hx).
      destruct Hx as (_ & _ & Ht). destruct (Ht d Hd') as [-> _]. eauto.
Qed.

End Clearing.


(** ** Looking up what was allocated *)

Lemma scan_equal_range_fresh nd key addr msrm p (b : JitBlock) l :
  (forall e, e ∈ l -> e.2 <> p) ->
  scan_equal_range (<[p := b]> nd) key addr msrm l = scan_equal_range nd key addr msrm l.
Proof.
  induction l as [|[k0 p0] l IH]; intros Hl; [done|]. simpl.
  rewrite IH by (intros e He; apply Hl; by right).
  rewrite lookup_insert_ne; [done|]. intros ->. by apply (Hl (k0, p0)); [left|].
Qed.

Lemma scan_equal_range_other_keys nd key addr msrm l :
  (forall e, e ∈ l -> e.1 <> key) -> scan_equal_range nd key addr msrm l = None.
Proof.
  induction l as [|[k0 p0] l IH]; intros Hl; [done|]. simpl.
  rewrite IH by (intros e He; apply Hl; by right).
  case_bool_decide as Hk; [|done]. by destruct (Hl (k0, p0)); [left|].
Qed.

Lemma scan_equal_range_emplace nd key addr msrm k p b l :
  key_ordered l -> (forall e, e ∈ l -> e.2 <> p) ->
  scan_equal_range (<[p := b]> nd) key addr msrm (multimap_emplace k p l) =
  match scan_equal_range nd key addr msrm l with
  | Some q => Some q
  | None =>
      if bool_decide (k = key) && bool_decide (effectiveAddress b = addr)
         && bool_decide (msrBits b = msrm)
      then Some p else None
  end.
Proof.
  unfold key_ordered. induction l as [|[k0 p0] l IH]; intros Hs Hl.
  - simpl. case_bool_decide; [|done]. rewrite lookup_insert_eq. simpl.
    by destruct (_ && _).
  - apply StronglySorted_inv in Hs as [Hs Hall]. rewrite Forall_forall in Hall.
    assert (p0 <> p) as Hp0 by (intros ->; by apply (Hl (k0, p)); [left|]).
    assert (forall e, e ∈ l -> e.2 <> p) as Hl' by (intros e He; apply Hl; by right).
    cbn [multimap_emplace fst].
    destruct (decide (k0 <= k)) as [Hle|Hle];
      [rewrite (bool_decide_eq_true_2 _ Hle)|rewrite (bool_decide_eq_false_2 _ Hle)].
    + cbn [scan_equal_range]. rewrite lookup_insert_ne by done.
      rewrite (IH Hs Hl'). clear IH.
      destruct (bool_decide (k0 = key)); [|done]. destruct (nd !! p0) as [b0|]; [|done].
      by destruct (bool_decide (effectiveAddress b0 = addr) && bool_decide (msrBits b0 = msrm)).
    + clear IH.
      assert (forall e, e ∈ (k0, p0) :: l -> e.1 <> k) as Hkeys.
      { intros e [->|He]%elem_of_cons; simpl; [lia|].
        specialize (Hall e He). simpl in Hall. lia. }
      change (scan_equal_range (<[p:=b]> nd) key addr msrm ((k, p) :: (k0, p0) :: l))
        with (if bool_decide (k = key) then
                match <[p:=b]> nd !! p with
                | Some b' =>
                    if bool_decide (effectiveAddress b' = addr)
                       && bool_decide (msrBits b' = msrm)
                    then Some p
                    else scan_equal_range (<[p:=b]> nd) key addr msrm ((k0, p0) :: l)
                | None => scan_equal_range (<[p:=b]> nd) key addr msrm ((k0, p0) :: l)
                end
              else scan_equal_range (<[p:=b]> nd) key addr msrm ((k0, p0) :: l)).
      rewrite lookup_insert_eq, (scan_equal_range_fresh _ _ _ _ _ _ _ Hl).
      destruct (decide (k = key)) as [Hk|Hk];
        [rewrite (bool_decide_eq_true_2 _ Hk)|rewrite (bool_decide_eq_false_2 _ Hk)].
      * subst key. rewrite (scan_equal_range_other_keys _ _ _ _ _ Hkeys). simpl.
        by destruct (_ && _).
      * cbn [andb]. by destruct (scan_equal_range nd key addr msrm ((k0, p0) :: l)).
Qed.

Section Allocating.

Context `{Constants}.

(** X6: lookups after [AllocateBlock] on a reachable cache. The node the
    new block gets held no block before. A lookup that found a block
    before the call finds the same block after it, also when the new block
    has the same address and mode: the older block hides the newer one. A
    lookup that found nothing finds the new block exactly when it asks for
    the address and the masked mode of the new block and searches under
    the key the block is stored under, the [address] field of the
    translation at allocation. So the block allocated under a machine is
    found under that machine when its translation is valid, or, with
    instruction translation off, gives the address itself. *)
Theorem lookup_after_AllocateBlock m em_address s :
  reachable s ->
  let r := AllocateBlock m em_address s in
  let p := next_node s in
  let stored := address (JitCache_TranslateAddress m em_address) in
  nodes s !! p = None /\
  (forall m' addr msr,
     GetBlockFromStartAddress m' addr msr r.2 =
     match GetBlockFromStartAddress m' addr msr s with
     | Some q => Some q
     | None =>
         let searched :=
           if UReg_MSR_IR msr
           then valid (JitCache_TranslateAddress m' addr) &&
                bool_decide (stored = address (JitCache_TranslateAddress m' addr))
           else bool_decide (stored = addr) in
         if searched && bool_decide (em_address = addr)
            && bool_decide (Z.land (MSR_Hex m) JIT_CACHE_MSR_MASK
                            = Z.land msr JIT_CACHE_MSR_MASK)
         then Some p else None
     end) /\
  ((UReg_MSR_IR (MSR_Hex m) = true ->
      valid (JitCache_TranslateAddress m em_address) = true) ->
   (UReg_MSR_IR (MSR_Hex m) = false -> stored = em_address) ->
   exists q bq,
     GetBlockFromStartAddress m em_address (MSR_Hex m) r.2 = Some q /\
     nodes r.2 !! q = Some bq /\ matches bq em_address (MSR_Hex m) /\
     (GetBlockFromStartAddress m em_address (MSR_Hex m) s = None -> q = p)).
Proof.
  intros Hr r p stored. pose proof (reachable_wf _ Hr) as Hwf.
  assert (nodes s !! p = None) as Hfresh.
  { destruct (nodes s !! p) as [b|] eqn:Hp; [|done].
    pose proof (wf_fresh _ Hwf p (ex_intro _ b Hp)). unfold p in *. lia. }
  assert (forall e, e ∈ block_map s -> e.2 <> p) as Hnot.
  { intros [k q] He Heq. simpl in Heq. subst q.
    apply (wf_store _ Hwf) in He as (b & Hb & _). congruence. }
  pose proof (reachable_key_ordered _ Hr) as Hord.
  assert (forall key addr msrm,
            scan_equal_range (nodes r.2) key addr msrm (block_map r.2) =
            match scan_equal_range (nodes s) key addr msrm (block_map s) with
            | Some q => Some q
            | None =>
                if bool_decide (stored = key) && bool_decide (em_address = addr)
                   && bool_decide (Z.land (MSR_Hex m) JIT_CACHE_MSR_MASK = msrm)
                then Some p else None
            end) as Hscan.
  { intros key addr msrm. unfold r, AllocateBlock. cbn [snd nodes block_map set_next_node
      set_nodes set_block_map]. fold stored. fold p.
    by rewrite (scan_equal_range_emplace _ _ _ _ _ _ _ _ Hord Hnot). }
  assert (forall m' addr msr,
     GetBlockFromStartAddress m' addr msr r.2 =
     match GetBlockFromStartAddress m' addr msr s with
     | Some q => Some q
     | None =>
         let searched :=
           if UReg_MSR_IR msr
           then valid (JitCache_TranslateAddress m' addr) &&
                bool_decide (stored = address (JitCache_TranslateAddress m' addr))
           else bool_decide (stored = addr) in
         if searched && bool_decide (em_address = addr)
            && bool_decide (Z.land (MSR_Hex m) JIT_CACHE_MSR_MASK
                            = Z.land msr JIT_CACHE_MSR_MASK)
         then Some p else None
     end) as Hget.
  { intros m' addr msr. unfold GetBlockFromStartAddress. cbn zeta.
    destruct (UReg_MSR_IR msr); [|apply Hscan].
    destruct (valid (JitCache_TranslateAddress m' addr)); simpl; [apply Hscan|done]. }
  split; [exact Hfresh|]. split; [exact Hget|].
  intros Hvalid Hident.
  assert (exists q, GetBlockFromStartAddress m em_address (MSR_Hex m) r.2 = Some q /\
            (GetBlockFromStartAddress m em_address (MSR_Hex m) s = None -> q = p))
    as (q & Hq & Hnew).
  { rewrite Hget. destruct (GetBlockFromStartAddress m em_address (MSR_Hex m) s) as [q|].
    - by exists q.
    - exists p. split; [|done]. cbn zeta.
      destruct (UReg_MSR_IR (MSR_Hex m)) eqn:HIR.
      + rewrite (Hvalid eq_refl). by rewrite !bool_decide_eq_true_2 by reflexivity.
      + rewrite (bool_decide_eq_true_2 _ (Hident eq_refl)).
        by rewrite !bool_decide_eq_true_2 by reflexivity. }
  destruct (GetBlockFromStartAddress_Some _ _ _ _ _ Hq) as (bq & Hbq & Hm & _).
  by exists q, bq.
Qed.

End Allocating.

(** ** Dispatching twice *)

Section Settling.

Context `{Constants}.

(** X7: [Dispatch] on a reachable cache returns, and a second [Dispatch]
    under the same machine returns the same answer and leaves the cache as
    the first one left it: a block that is found is in the slot of [PC]
    afterwards, and the next call takes it from there; a miss changes
    nothing. [Dispatch] adds and removes no block and leaves the store,
    [links_to], the range index and the valid-block set alone; in the fast
    map it fills the slot of [PC] and empties no slot but the one the
    block it found was in. *)
Theorem Dispatch_settles m s :
  reachable s ->
  let index := FastLookupIndexForAddress (PC m) in
  exists r s', Dispatch m s = Ok (r, s') /\ Dispatch m s' = Ok (r, s') /\
    (r = None -> s' = s) /\
    (block_map s' = block_map s /\ links_to s' = links_to s /\
     block_range_map s' = block_range_map s /\ valid_block s' = valid_block s /\
     dom (nodes s') = dom (nodes s)) /\
    (forall i q, i <> index -> fast_block_map s' !! i = Some q ->
       fast_block_map s !! i = Some q) /\
    (forall i q, fast_block_map s !! i = Some q -> fast_block_map s' !! i <> Some q ->
       i = index \/ fast_block_map s' !! index = Some q).
Proof.
  intros Hr index. pose proof (reachable_wf _ Hr) as Hwf.
  set (msr := Z.land (MSR_Hex m) JIT_CACHE_MSR_MASK).
  assert (forall r, Dispatch m s = Ok (r, s) ->
          exists r s', Dispatch m s = Ok (r, s') /\ Dispatch m s' = Ok (r, s') /\
            (r = None -> s' = s) /\
            (block_map s' = block_map s /\ links_to s' = links_to s /\
             block_range_map s' = block_range_map s /\ valid_block s' = valid_block s /\
             dom (nodes s') = dom (nodes s)) /\
            (forall i q, i <> index -> fast_block_map s' !! i = Some q ->
               fast_block_map s !! i = Some q) /\
            (forall i q, fast_block_map s !! i = Some q ->
               fast_block_map s' !! i <> Some q ->
               i = index \/ fast_block_map s' !! index = Some q)) as Hsame.
  { intros r Hrun. exists r, s. do 4 (split; [done|]). split; [done|].
    intros i q Hq Hno. done. }
  assert (GetBlockFromStartAddress m (PC m) msr s = None ->
          exists r, Dispatch m s = Ok (r, s)) as Hmiss.
  { intros Hnone.
    destruct (fast_block_map s !! index) as [p0|] eqn:Hslot.
    - destruct (wf_fast _ Hwf _ _ Hslot) as (b0 & Hb0 & _).
      destruct (bool_decide (effectiveAddress b0 <> PC m) || bool_decide (msrBits b0 <> msr))
        eqn:Htest.
      + exists None. unfold Dispatch, MoveBlockIntoFastCache. fold msr index.
        rewrite Hslot, Hb0, Htest, Hnone. done.
      + exists (Some (normalEntry b0)). unfold Dispatch. fold msr index.
        rewrite Hslot, Hb0, Htest. done.
    - exists None. unfold Dispatch, MoveBlockIntoFastCache. fold msr index.
      rewrite Hslot, Hnone. done. }
  destruct (GetBlockFromStartAddress m (PC m) msr s) as [p|] eqn:Hget;
    [|destruct (Hmiss eq_refl) as [r Hrun]; by apply (Hsame r)].
  clear Hmiss.
  destruct (GetBlockFromStartAddress_Some _ _ _ _ _ Hget) as (b & Hb & [Hea Hmsr] & _).
  assert (msrBits b = msr) as Hmsr'.
  { rewrite Hmsr. unfold msr. rewrite <- Z.land_assoc, Z.land_diag. reflexivity. }
  set (s1 := if bool_decide (fast_block_map s !! fast_block_map_index b = Some p)
             then set_fast_block_map (delete (fast_block_map_index b)) s else s).
  set (s' := set_nodes (insert p (set_fast_block_map_index index b))
               (set_fast_block_map (insert index p) s1)).
  assert (Dispatch m s' = Ok (Some (normalEntry b), s')) as Hagain.
  { unfold Dispatch. fold msr index.
    assert (fast_block_map s' !! index = Some p) as -> by apply lookup_insert_eq.
    assert (nodes s' !! p = Some (set_fast_block_map_index index b)) as ->.
    { unfold s', s1. case_bool_decide; apply lookup_insert_eq. }
    cbn [effectiveAddress msrBits normalEntry set_fast_block_map_index].
    rewrite !bool_decide_eq_false_2 by (intros Hne; by apply Hne). done. }
  assert (MoveBlockIntoFastCache m (PC m) msr s = Ok (Some p, s')) as Hmove.
  { unfold MoveBlockIntoFastCache. rewrite Hget, Hb. reflexivity. }
  assert (nodes s' !! p = Some (set_fast_block_map_index index b)) as Hp'.
  { unfold s', s1. case_bool_decide; apply lookup_insert_eq. }
  assert (bind (MoveBlockIntoFastCache m (PC m) msr s)
            (fun r => match r.1 with
                      | None => Ok (None, r.2)
                      | Some p => match nodes r.2 !! p with
                                  | None => UB
                                  | Some block => Ok (Some (normalEntry block), r.2)
                                  end
                      end) = Ok (Some (normalEntry b), s')) as Hslow.
  { rewrite Hmove. cbn [bind fst snd]. rewrite Hp'. reflexivity. }
  assert ((block_map s' = block_map s /\ links_to s' = links_to s /\
           block_range_map s' = block_range_map s /\ valid_block s' = valid_block s /\
           dom (nodes s') = dom (nodes s)) /\
          (forall i q, i <> index -> fast_block_map s' !! i = Some q ->
             fast_block_map s !! i = Some q) /\
          (forall i q, fast_block_map s !! i = Some q ->
             fast_block_map s' !! i <> Some q ->
             i = index \/ fast_block_map s' !! index = Some q)) as Hframe.
  { assert (block_map s1 = block_map s /\ links_to s1 = links_to s /\
            block_range_map s1 = block_range_map s /\ valid_block s1 = valid_block s /\
            nodes s1 = nodes s) as (E1 & E2 & E3 & E4 & E5)
      by (unfold s1; by case_bool_decide).
    split; [|split].
    - unfold s'. cbn [block_map links_to block_range_map valid_block nodes set_nodes
        set_fast_block_map]. rewrite E1, E2, E3, E4, E5. do 4 (split; [done|]).
      rewrite dom_insert_L. apply elem_of_dom_2 in Hb. set_solver.
    - intros i q Hi. unfold s'. cbn [fast_block_map set_nodes set_fast_block_map].
      rewrite lookup_insert_ne by done. unfold s1. case_bool_decide; [|done].
      cbn [fast_block_map set_fast_block_map]. intros Hq.
      by apply lookup_delete_Some in Hq as [_ Hq].
    - intros i q Hq Hno. destruct (decide (i = index)) as [|Hi]; [by left|]. right.
      unfold s' in Hno |- *. cbn [fast_block_map set_nodes set_fast_block_map] in Hno |- *.
      rewrite lookup_insert_ne in Hno by done. rewrite lookup_insert_eq.
      unfold s1 in Hno. case_bool_decide as Hold; [|done].
      cbn [fast_block_map set_fast_block_map] in Hno.
      destruct (decide (i = fast_block_map_index b)) as [->|Hi'].
      + congruence.
      + by rewrite lookup_delete_ne in Hno. }
  destruct (fast_block_map s !! index) as [p0|] eqn:Hslot.
  - destruct (wf_fast _ Hwf _ _ Hslot) as (b0 & Hb0 & _).
    destruct (bool_decide (effectiveAddress b0 <> PC m) || bool_decide (msrBits b0 <> msr))
      eqn:Htest.
    + exists (Some (normalEntry b)), s'. split; [|split; [exact Hagain|split; [done|]]].
      * unfold Dispatch. fold msr index. rewrite Hslot, Hb0, Htest. exact Hslow.
      * exact Hframe.
    + apply (Hsame (Some (normalEntry b0))). unfold Dispatch. fold msr index.
      rewrite Hslot, Hb0, Htest. done.
  - exists (Some (normalEntry b)), s'. split; [|split; [exact Hagain|split; [done|]]].
    + unfold Dispatch. fold msr index. rewrite Hslot. exact Hslow.
    + exact Hframe.
Qed.

End Settling.


(** ** Finalizing a block *)

Section Finalizing.

Context `{Constants}.

Lemma valid_block_foldl_register_address p l s i :
  i ∈ valid_block (foldl (register_address p) s l) <->
  i ∈ valid_block s \/ exists a, a ∈ l /\ i = a / 32.
Proof.
  revert s. induction l as [|a l IH]; intros s; simpl.
  - split; [by left|]. intros [?|(a & Ha & _)]; [done|]. by apply elem_of_nil in Ha.
  - rewrite IH. unfold register_address. cbn [valid_block set_block_range_map
      set_valid_block]. rewrite elem_of_union, elem_of_singleton. split.
    + intros [[->|?]|(a' & Ha' & ->)]; [right; exists a; split; [left|done]|by left|].
      right. exists a'. split; [by right|done].
    + intros [?|(a' & [->|Ha']%elem_of_cons & ->)]; [by left; right|by left; left|].
      right. by exists a'.
Qed.

(** X8: what [FinalizeBlock] installs. On a block of a reachable cache that
    has no footprint yet, given a footprint of 32-bit addresses, it
    returns; the block has the footprint and is in the slot of its address
    in the fast map, whatever was there before; the valid-block set has
    gained the bits of the cache lines of the footprint and the range
    index has gained the block under the macro blocks of the footprint,
    and nothing else. With [block_link] the block is in the bucket of
    [links_to] of each of its exits; without it [links_to] and the exits
    stay as they are. After the call [Dispatch] at the address of the
    block under its mode returns the [normalEntry] of the block and leaves
    the cache as it is. *)
Theorem FinalizeBlock_installs_block m p b block_link footprint s :
  reachable s -> nodes s !! p = Some b -> physical_addresses b = ∅ ->
  (forall a, a ∈ footprint -> is_u32 a) ->
  let index := FastLookupIndexForAddress (effectiveAddress b) in
  exists s' b',
    FinalizeBlock m p block_link footprint s = Ok s' /\ nodes s' !! p = Some b' /\
    (effectiveAddress b' = effectiveAddress b /\ msrBits b' = msrBits b /\
     normalEntry b' = normalEntry b /\ checkedEntry b' = checkedEntry b /\
     exitAddress <$> linkData b' = exitAddress <$> linkData b) /\
    physical_addresses b' = footprint /\ fast_block_map_index b' = index /\
    fast_block_map s' = <[index := p]> (fast_block_map s) /\
    block_map s' = block_map s /\
    (forall i, i ∈ valid_block s' <->
       i ∈ valid_block s \/ exists a, a ∈ footprint /\ i = a / 32) /\
    (forall k q, q ∈ bucket (block_range_map s') k <->
       (q = p /\ exists a, a ∈ footprint /\ Z.land a range_mask = k) \/
       q ∈ bucket (block_range_map s) k) /\
    (if block_link
     then forall a q, q ∈ bucket (links_to s') a <->
            (a ∈ exitAddress <$> linkData b /\ q = p) \/ q ∈ bucket (links_to s) a
     else links_to s' = links_to s /\ linkData b' = linkData b /\
          nodes s' = <[p := b']> (nodes s)) /\
    (forall q bq, q <> p -> nodes s !! q = Some bq ->
       exists bq', nodes s' !! q = Some bq' /\ bq' = set_linkData (linkData bq') bq) /\
    (forall q, is_Some (nodes s' !! q) -> is_Some (nodes s !! q)) /\
    (valid_block_covers s -> valid_block_covers s') /\
    (forall m', PC m' = effectiveAddress b ->
       Z.land (MSR_Hex m') JIT_CACHE_MSR_MASK = msrBits b ->
       Dispatch m' s' = Ok (Some (normalEntry b), s')).
Proof.
  intros Hr Hp Hfp Hu index. pose proof (reachable_wf _ Hr) as Hwf.
  destruct (FinalizeBlock_total m p b block_link footprint s Hwf Hp Hfp Hu)
    as (s' & Hfin & _).
  pose proof Hfin as Hrun.
  unfold FinalizeBlock in Hfin. rewrite Hp in Hfin. fold index in Hfin.
  set (block1 := set_physical_addresses footprint (set_fast_block_map_index index b))
    in Hfin.
  set (s1 := set_nodes (insert p block1) (set_fast_block_map (insert index p) s)) in Hfin.
  set (s2 := foldl (register_address p) s1 (ascending footprint)) in Hfin.
  destruct (foldl_register_address p (ascending footprint) s1)
    as [(Hbm & Hnd & _ & Hlt & Hfm) Hrange]. fold s2 in Hbm, Hnd, Hlt, Hfm, Hrange.
  pose proof (valid_block_foldl_register_address p (ascending footprint) s1) as Hvb.
  fold s2 in Hvb.
  assert (exists b', nodes s' !! p = Some b' /\ relinked_block block1 b' /\
            fast_block_map s' = <[index := p]> (fast_block_map s) /\
            block_map s' = block_map s /\ valid_block s' = valid_block s2 /\
            block_range_map s' = block_range_map s2 /\
            (forall q, option_Forall2 relinked_block (<[p := block1]> (nodes s) !! q)
                         (nodes s' !! q)) /\
            (if block_link
             then forall a q, q ∈ bucket (links_to s') a <->
                    (a ∈ exitAddress <$> linkData b /\ q = p) \/ q ∈ bucket (links_to s) a
             else links_to s' = links_to s /\ linkData b' = linkData b /\
                  nodes s' = <[p := b']> (nodes s)))
    as (b' & Hp' & [Hb' Hex] & Hfast & Hstore & Hvalid & Hrm & Hall & Hlinks).
  { destruct block_link.
    - apply LinkBlock_relinked in Hfin as [Heq Hnodes].
      pose proof Hnodes as Hnodes0.
      specialize (Hnodes p). cbn [nodes set_links_to] in Hnodes.
      rewrite Hnd in Hnodes. unfold s1 in Hnodes. cbn [nodes set_nodes] in Hnodes.
      rewrite lookup_insert_eq in Hnodes.
      inversion Hnodes as [b1 b' Hrel E1 E2|]; subst b1.
      exists b'. split; [done|]. split; [done|]. rewrite Heq.
      cbn [fast_block_map block_map valid_block block_range_map links_to set_nodes
           set_links_to].
      rewrite Hfm, Hbm. do 4 (split; [done|]).
      split.
      { intros q0. specialize (Hnodes0 q0). cbn [nodes set_links_to] in Hnodes0.
        by rewrite Hnd in Hnodes0. }
      intros a0 q0. rewrite elem_of_foldl_bucket_insert, Hlt. reflexivity.
    - injection Hfin as <-. exists block1. rewrite Hnd, Hfm, Hbm, Hlt.
      split; [apply lookup_insert_eq|]. split; [apply relinked_block_refl|].
      do 4 (split; [done|]). split; [|done].
      intros q0. unfold s1. cbn [nodes set_nodes set_fast_block_map].
      destruct (<[p:=block1]> (nodes s) !! q0); constructor. apply relinked_block_refl. }
  assert (effectiveAddress b' = effectiveAddress b /\ msrBits b' = msrBits b /\
          normalEntry b' = normalEntry b /\ checkedEntry b' = checkedEntry b /\
          physical_addresses b' = footprint /\ fast_block_map_index b' = index)
    as (Hea & Hmsr & Hne & Hce & Hpa & Hidx) by (rewrite Hb'; done).
  exists s', b'. split; [exact Hrun|]. split; [exact Hp'|].
  split; [by rewrite Hex|]. split; [exact Hpa|]. split; [exact Hidx|].
  split; [exact Hfast|]. split; [exact Hstore|].
  assert (forall q bq, q <> p -> nodes s !! q = Some bq ->
            exists bq', nodes s' !! q = Some bq' /\ bq' = set_linkData (linkData bq') bq)
    as Hothers.
  { intros q bq Hqp Hq. specialize (Hall q). rewrite lookup_insert_ne, Hq in Hall by done.
    inversion Hall as [x bq' [Hrel _] E1 E2|]; subst. eauto. }
  assert (forall q, is_Some (nodes s' !! q) -> is_Some (nodes s !! q)) as Hold.
  { intros q [bq' Hq']. destruct (decide (q = p)) as [->|Hqp]; [eauto|].
    specialize (Hall q). rewrite lookup_insert_ne, Hq' in Hall by done.
    inversion Hall. eauto. }
  split; [|split; [|split; [exact Hlinks|split; [exact Hothers|split; [exact Hold|split]]]]].
  - intros i. rewrite Hvalid, Hvb. unfold s1. cbn [valid_block set_nodes set_fast_block_map].
    by setoid_rewrite elem_of_ascending.
  - intros k q. rewrite Hrm, Hrange. unfold s1.
    cbn [block_range_map set_nodes set_fast_block_map].
    by setoid_rewrite elem_of_ascending.
  - intros Hcov q bq' x Hq' Hx. rewrite Hvalid. apply Hvb. unfold s1.
    cbn [valid_block set_nodes set_fast_block_map].
    destruct (decide (q = p)) as [->|Hqp].
    + right. exists x. split; [|done]. apply elem_of_ascending.
      rewrite Hp' in Hq'. injection Hq' as <-. by rewrite <- Hpa.
    + left. destruct (Hold q (ex_intro _ bq' Hq')) as [bq Hq].
      destruct (Hothers q bq Hqp Hq) as (bq'' & Hq'' & Hrel).
      rewrite Hq' in Hq''. injection Hq'' as <-.
      apply (Hcov q bq x Hq). rewrite Hrel in Hx. exact Hx.
  - intros m' Hpc Hmode. unfold Dispatch. rewrite Hpc. fold index.
    rewrite Hfast, lookup_insert_eq, Hp', Hea, Hmsr, Hmode, Hne.
    by rewrite !bool_decide_eq_false_2 by (intros Hx; by apply Hx).
Qed.

End Finalizing.


(** ** What [LinkBlock] links *)

Section LinkingAll.

Context `{Constants}.

Lemma scan_equal_range_relinked (nd nd' : gmap nat JitBlock) key addr msrm l :
  (forall q, option_Forall2 relinked_block (nd !! q) (nd' !! q)) ->
  scan_equal_range nd' key addr msrm l = scan_equal_range nd key addr msrm l.
Proof.
  intros Hrel. induction l as [|[k q] l IH]; [done|]. simpl. rewrite IH.
  destruct (Hrel q) as [b b' [Hb _]|]; [|done]. rewrite Hb. done.
Qed.

Lemma GetBlockFromStartAddress_relinked m addr msr s s' :
  relinked s s' ->
  GetBlockFromStartAddress m addr msr s' = GetBlockFromStartAddress m addr msr s.
Proof.
  intros [Heq Hrel]. unfold GetBlockFromStartAddress.
  rewrite !(scan_equal_range_relinked (nodes s) (nodes s')) by done.
  rewrite Heq. reflexivity.
Qed.

Lemma link_exit_relinked m s s' msr e :
  relinked s s' -> link_exit m s' msr e = link_exit m s msr e.
Proof.
  intros Hrel. unfold link_exit.
  by rewrite (GetBlockFromStartAddress_relinked _ _ _ _ _ Hrel).
Qed.

Lemma link_exit_idemp m s msr e :
  link_exit m s msr (link_exit m s msr e) = link_exit m s msr e.
Proof.
  unfold link_exit. destruct (linkStatus e) eqn:Hst; simpl; [by rewrite Hst|].
  destruct (GetBlockFromStartAddress m (exitAddress e) msr s) as [d|] eqn:Hget; simpl.
  - done.
  - by rewrite Hst, Hget.
Qed.

Lemma relink_exits_relinked m s s' b :
  relinked s s' -> relink_exits m s' b = relink_exits m s b.
Proof.
  intros Hrel. unfold relink_exits. f_equal. apply map_ext. intros e.
  by apply link_exit_relinked.
Qed.

Lemma relink_exits_idemp m s b :
  relink_exits m s (relink_exits m s b) = relink_exits m s b.
Proof.
  unfold relink_exits. destruct b; simpl. unfold set_linkData; simpl. f_equal.
  rewrite map_map. apply map_ext. intros e. apply link_exit_idemp.
Qed.

Lemma relink_exits_block m s b : relinked_block b (relink_exits m s b).
Proof.
  split; [by destruct b|]. unfold relink_exits. simpl.
  rewrite <- list_fmap_compose. apply list_fmap_ext. intros i e _. apply link_exit_address.
Qed.

Lemma LinkBlockExits_nodes m q bq s :
  nodes s !! q = Some bq ->
  LinkBlockExits m q s = Ok (set_nodes (insert q (relink_exits m s bq)) s).
Proof. intros Hq. unfold LinkBlockExits. by rewrite Hq. Qed.

Lemma link_sources_nodes m msr l s0 s :
  relinked s0 s -> NoDup l -> (forall q, q ∈ l -> is_Some (nodes s !! q)) ->
  exists s', link_sources m msr l s = Ok s' /\ relinked s s' /\
    forall q, nodes s' !! q =
      (fun bq => if decide (q ∈ l /\ msrBits bq = msr)
                 then relink_exits m s0 bq else bq) <$> nodes s !! q.
Proof.
  intros H0. revert s H0. induction l as [|q l IH]; intros s H0 Hnd Hlive.
  - exists s. split; [done|]. split; [apply relinked_refl|]. intros q.
    destruct (nodes s !! q) as [bq|]; [|done]. simpl.
    done.
  - apply NoDup_cons in Hnd as [Hq Hnd]. destruct (Hlive q) as [bq Hbq]; [left|].
    cbn [link_sources]. rewrite Hbq.
    destruct (decide (msr = msrBits bq)) as [Hm|Hm];
      [rewrite (bool_decide_eq_true_2 _ Hm)|rewrite (bool_decide_eq_false_2 _ Hm)].
    + rewrite (LinkBlockExits_nodes _ _ _ _ Hbq). cbn [bind].
      set (s1 := set_nodes (insert q (relink_exits m s bq)) s).
      assert (relinked s s1) as H1.
      { assert (LinkBlockExits m q s = Ok s1) as Hx by (by apply LinkBlockExits_nodes).
        by eapply LinkBlockExits_relinked. }
      destruct (IH s1) as (s' & Hrun & Hrel & Hnodes); [by eapply relinked_trans|done|..].
      { intros q' Hq'. unfold s1. cbn [nodes set_nodes].
        destruct (decide (q' = q)) as [->|Hne];
          [rewrite lookup_insert_eq|rewrite lookup_insert_ne by done]; [eauto|].
        apply Hlive. by right. }
      exists s'. split; [exact Hrun|]. split; [by eapply relinked_trans|].
      intros q'. rewrite Hnodes. unfold s1. cbn [nodes set_nodes].
      destruct (decide (q' = q)) as [->|Hne].
      * rewrite lookup_insert_eq, Hbq. simpl.
        rewrite (relink_exits_relinked _ _ _ _ H0).
        rewrite (decide_False (P := q ∈ l /\ _)) by (by intros [? _]).
        rewrite decide_True; [done|]. split; [left|done].
      * rewrite lookup_insert_ne by done. destruct (nodes s !! q') as [bq'|]; [|done].
        simpl. f_equal. apply decide_ext. rewrite elem_of_cons. naive_solver.
    + destruct (IH s H0 Hnd) as (s' & Hrun & Hrel & Hnodes).
      { intros q' Hq'. apply Hlive. by right. }
      exists s'. split; [exact Hrun|]. split; [exact Hrel|].
      intros q'. rewrite Hnodes. destruct (nodes s !! q') as [bq'|] eqn:Hq'; [|done].
      simpl. f_equal. apply decide_ext. rewrite elem_of_cons.
      split; [naive_solver|]. intros [[->|?] Hmm]; [congruence|done].
Qed.

Lemma LinkBlock_nodes m p b s :
  nodes s !! p = Some b ->
  (forall q, q ∈ bucket (links_to s) (effectiveAddress b) -> is_Some (nodes s !! q)) ->
  exists s', LinkBlock m p s = Ok s' /\ relinked s s' /\
    forall q, nodes s' !! q =
      (fun bq => if decide (q = p \/ (q ∈ bucket (links_to s) (effectiveAddress b) /\
                                      msrBits bq = msrBits b))
                 then relink_exits m s bq else bq) <$> nodes s !! q.
Proof.
  intros Hp Hlive. unfold LinkBlock. rewrite (LinkBlockExits_nodes _ _ _ _ Hp).
  cbn [bind]. set (s1 := set_nodes (insert p (relink_exits m s b)) s).
  assert (relinked s s1) as H1.
  { assert (LinkBlockExits m p s = Ok s1) as Hx by (by apply LinkBlockExits_nodes).
    by eapply LinkBlockExits_relinked. }
  assert (nodes s1 !! p = Some (relink_exits m s b)) as Hp1 by apply lookup_insert_eq.
  rewrite Hp1.
  change (effectiveAddress (relink_exits m s b)) with (effectiveAddress b).
  change (msrBits (relink_exits m s b)) with (msrBits b).
  change (links_to s1) with (links_to s).
  assert (forall q, nodes s1 !! q =
            (fun bq => if decide (q = p) then relink_exits m s bq else bq)
              <$> nodes s !! q) as Hn1.
  { intros q. unfold s1. cbn [nodes set_nodes]. destruct (decide (q = p)) as [->|Hne].
    - by rewrite lookup_insert_eq, Hp.
    - rewrite lookup_insert_ne by done. by destruct (nodes s !! q). }
  destruct (links_to s !! effectiveAddress b) as [srcs|] eqn:Hsrcs.
  - destruct (link_sources_nodes m (msrBits b) (by_address srcs) s s1 H1)
      as (s' & Hrun & Hrel & Hnodes); [apply NoDup_by_address|..].
    { intros q Hq. apply elem_of_by_address in Hq.
      assert (is_Some (nodes s !! q)) as [bq Hbq].
      { apply Hlive. unfold bucket. by rewrite Hsrcs. }
      rewrite Hn1, Hbq. simpl. eauto. }
    exists s'. split; [exact Hrun|]. split; [by eapply relinked_trans|].
    intros q. rewrite Hnodes, Hn1. destruct (nodes s !! q) as [bq|] eqn:Hq; [|done].
    simpl. unfold bucket. rewrite Hsrcs. simpl.
    destruct (decide (q = p)) as [->|Hne].
    + rewrite (decide_True (P := p = p \/ _)) by (by left).
      destruct (decide (p ∈ by_address srcs /\ msrBits (relink_exits m s bq) = msrBits b));
        [by rewrite relink_exits_idemp|done].
    + f_equal. apply decide_ext. rewrite elem_of_by_address. naive_solver.
  - exists s1. split; [done|]. split; [exact H1|].
    intros q. rewrite Hn1. destruct (nodes s !! q) as [bq|]; [|done]. simpl. f_equal.
    apply decide_ext. unfold bucket. rewrite Hsrcs. simpl. set_solver.
Qed.

Lemma link_exit_cases m s msr e :
  link_exit m s msr e = e \/
  (linkStatus e = false /\
   exists d, GetBlockFromStartAddress m (exitAddress e) msr s = Some d /\
     link_exit m s msr e =
       {| exitAddress := exitAddress e; linkStatus := true; exitTarget := Some d |}).
Proof.
  unfold link_exit. destruct (linkStatus e) eqn:Hst; simpl; [by left|].
  destruct (GetBlockFromStartAddress m (exitAddress e) msr s) as [d|]; [|by left].
  right. split; [done|]. by exists d.
Qed.

Lemma link_exit_closed m s msr e :
  linkStatus (link_exit m s msr e) = true \/
  GetBlockFromStartAddress m (exitAddress (link_exit m s msr e)) msr s = None.
Proof.
  rewrite link_exit_address. unfold link_exit.
  destruct (linkStatus e) eqn:Hst; simpl; [by left|].
  destruct (GetBlockFromStartAddress m (exitAddress e) msr s) as [d|]; [by left|by right].
Qed.

(** X9: what [LinkBlock] links. On a block of a reachable cache it returns
    and changes nothing but exits: an exit is either left as it was, or it
    was not linked, the lookup for its address under the mode of its block
    found a block, and it is now linked and patched into that block. No
    lookup changes its answer. Afterwards no exit of the block, and no exit
    of a block of its mode in the bucket of [links_to] under its address,
    is unlinked while the lookup for it finds a block; so a second
    [LinkBlock] changes nothing. *)
Theorem LinkBlock_links_what_it_can m s p b :
  reachable s -> nodes s !! p = Some b ->
  exists s', LinkBlock m p s = Ok s' /\
    s' = set_nodes (fun _ => nodes s') s /\
    (forall m' addr msr,
       GetBlockFromStartAddress m' addr msr s' = GetBlockFromStartAddress m' addr msr s) /\
    (forall q bq, nodes s !! q = Some bq ->
       exists bq', nodes s' !! q = Some bq' /\ bq' = set_linkData (linkData bq') bq /\
         Forall2
           (fun e e' =>
              e' = e \/
              (linkStatus e = false /\
               exists d, GetBlockFromStartAddress m (exitAddress e) (msrBits bq) s = Some d /\
                 e' = {| exitAddress := exitAddress e; linkStatus := true;
                         exitTarget := Some d |}))
           (linkData bq) (linkData bq')) /\
    (forall q bq' e',
       q = p \/ (q ∈ bucket (links_to s) (effectiveAddress b) /\ msrBits bq' = msrBits b) ->
       nodes s' !! q = Some bq' -> e' ∈ linkData bq' ->
       linkStatus e' = true \/
       GetBlockFromStartAddress m (exitAddress e') (msrBits bq') s' = None) /\
    LinkBlock m p s' = Ok s'.
Proof.
  intros Hr Hp. pose proof (reachable_wf _ Hr) as Hwf.
  assert (forall a q, q ∈ bucket (links_to s) a -> is_Some (nodes s !! q)) as Hlive.
  { intros a q Hq. destruct (wf_links _ Hwf a q Hq) as (bq & Hbq & _). eauto. }
  destruct (LinkBlock_nodes m p b s Hp (Hlive _)) as (s' & Hrun & Hrel & Hnodes).
  pose proof (GetBlockFromStartAddress_relinked m) as Hsame.
  exists s'. split; [exact Hrun|]. split; [apply Hrel|].
  split; [intros m' addr msr; by apply GetBlockFromStartAddress_relinked|].
  split; [|split].
  - intros q bq Hq. specialize (Hnodes q). rewrite Hq in Hnodes. simpl in Hnodes.
    eexists. split; [exact Hnodes|]. case_decide.
    + split; [by destruct bq|]. unfold relink_exits. cbn [linkData set_linkData].
      change (map ?f ?l) with (f <$> l). apply Forall2_fmap_r, Forall_Forall2_diag.
      apply Forall_forall. intros e _. apply link_exit_cases.
    + split; [by destruct bq|]. apply Forall_Forall2_diag, Forall_forall. by left.
  - intros q bq' e' Hset Hq' He'. specialize (Hnodes q). rewrite Hq' in Hnodes.
    destruct (nodes s !! q) as [bq|] eqn:Hq; [|done]. simpl in Hnodes.
    injection Hnodes as Hbq'.
    assert (msrBits bq' = msrBits bq) as Hmsr by (rewrite Hbq'; by case_decide).
    rewrite decide_True in Hbq' by (by rewrite <- Hmsr).
    rewrite Hbq' in He'. unfold relink_exits in He'. cbn [linkData set_linkData] in He'.
    apply list_elem_of_fmap in He' as (e & -> & He).
    rewrite (Hsame _ _ _ _ Hrel), Hmsr. apply link_exit_closed.
  - assert (exists bp', nodes s' !! p = Some bp' /\ effectiveAddress bp' = effectiveAddress b /\
                        msrBits bp' = msrBits b) as (bp' & Hp' & Hea & Hmsr).
    { specialize (Hnodes p). rewrite Hp in Hnodes. simpl in Hnodes.
      eexists. split; [exact Hnodes|]. by case_decide. }
    assert (links_to s' = links_to s) as Hlt by (destruct Hrel as [-> _]; done).
    destruct (LinkBlock_nodes m p bp' s' Hp') as (s'' & Hrun' & Hrel' & Hnodes').
    { intros q Hq. rewrite Hlt, Hea in Hq. destruct (Hlive _ _ Hq) as [bq Hbq].
      rewrite Hnodes, Hbq. simpl. eauto. }
    rewrite Hrun'. f_equal. destruct Hrel' as [-> _].
    assert (nodes s'' = nodes s') as ->; [|by destruct s'].
    apply map_eq. intros q. rewrite Hnodes'. rewrite Hnodes.
    destruct (nodes s !! q) as [bq|]; [|done]. simpl. f_equal.
    rewrite Hlt, Hea, Hmsr.
    destruct (decide (q = p \/ q ∈ bucket (links_to s) (effectiveAddress b) /\
                               msrBits bq = msrBits b)) as [Hin|Hout].
    + rewrite decide_True by done.
      by rewrite (relink_exits_relinked _ _ _ _ Hrel), relink_exits_idemp.
    + by rewrite decide_False by done.
Qed.

End LinkingAll.


(** ** The valid-block set under invalidation *)

Lemma elem_of_foldl_difference (l : list Z) (v : gset Z) (i : Z) :
  i ∈ foldl (fun v i => v ∖ {[i]}) v l <-> i ∈ v /\ i ∉ l.
Proof.
  revert v. induction l as [|x l IH]; intros v; simpl.
  - split; [intros ?; split; [done|apply not_elem_of_nil]|by intros [? _]].
  - rewrite IH, elem_of_difference, elem_of_singleton, not_elem_of_cons. naive_solver.
Qed.

Section ValidBlocks.

Context `{Constants}.

Lemma InvalidateICacheInternal_run k physical_address a len forced s :
  wf s -> BLOCK_RANGE_MAP_ELEMENTS = 2 ^ k -> 0 <= k <= 32 ->
  0 <= physical_address -> 0 <= len -> physical_address + len < 2 ^ 32 ->
  (forced = false -> 0 <= a /\ a + len + 3 < 2 ^ 32) ->
  let skipped :=
    len = 32 /\ Z.land physical_address 0x1f = 0 /\
    physical_address / 32 ∉ valid_block s in
  exists s' (D : gset nat),
    InvalidateICacheInternal physical_address a len forced s = Ok s' /\
    shrunk D s s' /\
    (skipped -> s' = s /\ D = ∅) /\
    (~ skipped ->
       forall q, q ∈ D <->
         exists bq, nodes s !! q = Some bq /\ footprint_overlaps bq physical_address len) /\
    (forall i, i ∈ valid_block s' <->
       i ∈ valid_block s /\
       ~ ((len = 32 /\ Z.land physical_address 0x1f = 0 /\ i = physical_address / 32) \/
          (32 < len /\ physical_address <= 32 * i /\
           32 * i + 32 <= physical_address + len))).
Proof.
  intros Hwf HR Hk Hpa Hlen Hpw Haw skipped.
  unfold InvalidateICacheInternal.
  destruct (decide skipped) as [Hs|Hns].
  - destruct Hs as (-> & Hal & Hbit).
    rewrite (bool_decide_true (32 = 32)) by done.
    rewrite (bool_decide_true (Z.land physical_address 31 = 0)) by done.
    cbn [andb]. rewrite bool_decide_false by done.
    exists s, ∅. split; [done|]. split; [apply shrunk_refl|]. split; [done|].
    split; [intros Hno; destruct Hno; done|].
    intros i. split; [|by intros [? _]]. intros Hi. split; [done|].
    intros [(_ & _ & ->)|(? & _)]; [done|lia].
  - set (single_line := _ && _).
    set (destroy_block := if single_line then _ else true).
    set (s1 := if single_line then _ else _).
    assert (single_line = true <-> len = 32 /\ Z.land physical_address 0x1f = 0) as Hsl.
    { unfold single_line. rewrite andb_true_iff, !bool_decide_eq_true. done. }
    assert (destroy_block = true) as Hdb.
    { unfold destroy_block. destruct single_line eqn:Hsl'; [|done].
      apply bool_decide_eq_true.
      destruct (decide (physical_address / 32 ∈ valid_block s)); [done|].
      exfalso. apply Hns. destruct Hsl as [Hsl _]. destruct (Hsl eq_refl). done. }
    assert (block_map s1 = block_map s /\ nodes s1 = nodes s /\ next_node s1 = next_node s /\
            fast_block_map s1 = fast_block_map s /\ links_to s1 = links_to s /\
            block_range_map s1 = block_range_map s)
      as (Hbm & Hn & Hnx & Hf & Hl & Hrm).
    { unfold s1. destruct single_line; [by destruct destroy_block|]. by case_bool_decide. }
    assert (forall i, i ∈ valid_block s1 <->
       i ∈ valid_block s /\
       ~ ((len = 32 /\ Z.land physical_address 0x1f = 0 /\ i = physical_address / 32) \/
          (32 < len /\ physical_address <= 32 * i /\
           32 * i + 32 <= physical_address + len))) as Hvb.
    { intros i. unfold s1. rewrite Hdb. destruct single_line eqn:Hsl'.
      - destruct Hsl as [Hsl _]. destruct (Hsl eq_refl) as [-> Hal].
        cbn [valid_block set_valid_block]. rewrite elem_of_difference, elem_of_singleton.
        split; intros [Hi Hno]; (split; [done|]); [|naive_solver].
        intros [(_ & _ & ->)|(? & _)]; [done|lia].
      - assert (~ (len = 32 /\ Z.land physical_address 0x1f = 0)) as Hnsl.
        { intros Hx. apply Hsl in Hx. congruence. }
        case_bool_decide as Hgt.
        + cbn [valid_block set_valid_block].
          rewrite elem_of_foldl_difference, elem_of_seqZ.
          rewrite !wrap_small by (unfold is_u32; lia).
          pose proof (Z.div_mod (physical_address + 31) 32 ltac:(lia)).
          pose proof (Z.mod_pos_bound (physical_address + 31) 32 ltac:(lia)).
          pose proof (Z.div_mod (physical_address + len) 32 ltac:(lia)).
          pose proof (Z.mod_pos_bound (physical_address + len) 32 ltac:(lia)).
          split; intros [Hi Hno]; (split; [done|]); intros Hx; apply Hno.
          * destruct Hx as [Hx|Hx]; [tauto|]. lia.
          * right. lia.
        + split; [|by intros [? _]]. intros Hi. split; [done|]. intros [?|?]; [tauto|lia]. }
    rewrite Hdb.
    assert (wf s1) as Hwf1.
    { apply (wf_shrunk ∅ s); [done|]. apply shrunk_same_indices; try done.
      intros key. by rewrite Hrm. }
    assert (shrunk ∅ s s1) as Hsh1.
    { apply shrunk_same_indices; try done. intros key. by rewrite Hrm. }
    destruct (ErasePhysicalRange_total k physical_address len s1 Hwf1 HR Hk Hpa Hlen Hpw)
      as (s2 & D & -> & Hsh2 & HD & Hvb2 & _).
    cbn [bind].
    assert (shrunk D s s2) as Hsh.
    { replace D with (∅ ∪ D) by set_solver. by eapply shrunk_trans. }
    rewrite Hn in HD.
    destruct forced; cbn [negb].
    + exists s2, D. split; [done|]. split; [done|]. split; [done|]. split; [done|].
      intros i. by rewrite Hvb2.
    + destruct (Haw eq_refl) as [Ha Hab].
      rewrite (wrap_small (a + len)) by (unfold is_u32; lia).
      destruct (erase_words_spec (Z.to_nat len) a (a + len) s2) as (s3 & Hrun & _);
        [lia|lia|lia|].
      rewrite Hrun.
      apply erase_words_frame in Hrun as (Hbm3 & Hn3 & Hnx3 & Hf3 & Hl3 & Hrm3 & Hvb3).
      exists s3, D. split; [done|]. split; [|split; [done|split; [done|]]].
      * replace D with (D ∪ ∅) by set_solver. eapply shrunk_trans; [exact Hsh|].
        apply shrunk_same_indices; try done. intros key. by rewrite Hrm3.
      * intros i. by rewrite Hvb3, Hvb2.
Qed.


Lemma shrunk_footprint D s s' q bq' :
  shrunk D s s' -> nodes s' !! q = Some bq' ->
  (q ∉ D) /\ exists bq, nodes s !! q = Some bq /\
                        physical_addresses bq' = physical_addresses bq.
Proof.
  intros Hsh Hq. destruct (shrunk_node_Some _ _ _ _ _ Hsh Hq) as (HD & bq & Hbq & Hun).
  split; [done|]. exists bq. split; [done|].
  by destruct (block_unlinked_static _ _ _ Hun) as (_ & _ & _ & -> & _).
Qed.

Lemma land_0x1f (x : Z) : Z.land x 0x1f = x mod 32.
Proof. change 0x1f with (Z.ones 5). by rewrite Z.land_ones. Qed.

Lemma InvalidateICacheInternal_covered k physical_address a len forced s :
  wf s -> valid_block_covers s ->
  BLOCK_RANGE_MAP_ELEMENTS = 2 ^ k -> 0 <= k <= 32 ->
  0 <= physical_address -> 0 <= len -> physical_address + len < 2 ^ 32 ->
  (forced = false -> 0 <= a /\ a + len + 3 < 2 ^ 32) ->
  exists s' (D : gset nat),
    InvalidateICacheInternal physical_address a len forced s = Ok s' /\
    shrunk D s s' /\ wf s' /\ valid_block_covers s' /\
    range_clear s' physical_address len /\
    (forall q, q ∈ D ->
       exists bq, nodes s !! q = Some bq /\ footprint_overlaps bq physical_address len).
Proof.
  intros Hwf Hcov HR Hk Hpa Hlen Hpw Haw.
  destruct (InvalidateICacheInternal_run k physical_address a len forced s
              Hwf HR Hk Hpa Hlen Hpw Haw)
    as (s' & D & Hrun & Hsh & Hskip & Hfull & Hvb).
  exists s', D. split; [exact Hrun|]. split; [exact Hsh|].
  split; [by eapply wf_shrunk|].
  set (skipped := len = 32 /\ Z.land physical_address 0x1f = 0 /\
                  physical_address / 32 ∉ valid_block s) in *.
  assert (forall q bq x, nodes s !! q = Some bq -> x ∈ physical_addresses bq ->
            physical_address <= x < physical_address + len -> q ∈ D \/ skipped) as Hhit.
  { intros q bq x Hq Hx Hin. destruct (decide skipped) as [?|Hns]; [by right|].
    left. apply (Hfull Hns). exists bq. split; [done|]. by exists x. }
  assert (range_clear s' physical_address len) as Hclear.
  { intros q bq' Hq' (x & Hx & Hin).
    destruct (shrunk_footprint _ _ _ _ _ Hsh Hq') as (HD & bq & Hq & Hfp).
    rewrite Hfp in Hx. destruct (Hhit q bq x Hq Hx Hin) as [?|(-> & Hal & Hbit)]; [done|].
    apply Hbit. replace (physical_address / 32) with (x / 32); [by eapply Hcov|].
    rewrite land_0x1f in Hal.
    pose proof (Z.div_mod physical_address 32 ltac:(lia)).
    symmetry. apply (Z.div_unique _ _ _ (x - physical_address)); lia. }
  split; [|split; [exact Hclear|]].
  - intros q bq' x Hq' Hx.
    destruct (shrunk_footprint _ _ _ _ _ Hsh Hq') as (HD & bq & Hq & Hfp).
    apply Hvb. split; [apply (Hcov q bq x Hq); by rewrite <- Hfp|].
    pose proof (Z.div_mod x 32 ltac:(lia)).
    pose proof (Z.mod_pos_bound x 32 ltac:(lia)).
    intros [(-> & Hal & Hi)|(Hgt & Hlo & Hhi)].
    + rewrite land_0x1f in Hal.
      pose proof (Z.div_mod physical_address 32 ltac:(lia)).
      apply (Hclear q bq' Hq'). exists x. split; [done|]. lia.
    + apply (Hclear q bq' Hq'). exists x. split; [done|]. lia.
  - intros q Hq. destruct (decide skipped) as [Hs|Hns].
    + destruct (Hskip Hs) as [_ ->]. set_solver.
    + by apply (Hfull Hns).
Qed.


End ValidBlocks.


(** ** Invalidating a range through [InvalidateICache] *)

Section Ranges.

Context `{Constants}.

Lemma InvalidateICache_as_chunks m address length :
  0 <= BAT_INDEX_SHIFT < 32 -> 0 <= HW_PAGE_INDEX_SHIFT < 32 ->
  is_u32 address -> is_u32 length ->
  exists chunks, partitions address length chunks /\
    forall forced s,
      InvalidateICache m address length forced s =
      visit_chunks (invalidate_chunk forced) m chunks s.
Proof.
  intros Hb Hp Ha Hl.
  destruct (InvalidateICache_loop_chunks (Z.to_nat length) m address length [] Hb Hp Ha Hl)
    as (chunks & Hrun & Hpart); [lia|].
  exists chunks. split; [exact Hpart|]. intros forced s.
  unfold InvalidateICache. by apply (InvalidateICache_loop_visit _ _ _ _ _ []).
Qed.

Lemma visit_chunks_unmapped m forced chunks s :
  (forall a, valid (JitCache_TranslateAddress m a) = false) ->
  visit_chunks (invalidate_chunk forced) m chunks s = Ok s.
Proof.
  intros Hno. induction chunks as [|[a l] chunks IH]; [done|].
  cbn [visit_chunks]. unfold invalidate_chunk at 1. by rewrite Hno.
Qed.

(** X12: what is not mapped is skipped. [InvalidateICache] with length 0
    returns at once and leaves the cache as it is. When the translation in
    force maps no address, [InvalidateICache] of any range and
    [InvalidateICacheLine] of any address return and leave the cache as it
    is: nothing is erased and nothing is added to the trace. *)
Theorem InvalidateICache_skips_unmapped m :
  (forall address forced s, InvalidateICache m address 0 forced s = Ok s) /\
  ((forall a, valid (JitCache_TranslateAddress m a) = false) ->
   0 <= BAT_INDEX_SHIFT < 32 -> 0 <= HW_PAGE_INDEX_SHIFT < 32 ->
   (forall address length forced s,
      is_u32 address -> is_u32 length ->
      InvalidateICache m address length forced s = Ok s) /\
   (forall address s, InvalidateICacheLine m address s = Ok s)).
Proof.
  split; [done|]. intros Hno Hb Hp. split.
  - intros address length forced s Ha Hl.
    destruct (InvalidateICache_as_chunks m address length Hb Hp Ha Hl)
      as (chunks & _ & ->).
    by apply visit_chunks_unmapped.
  - intros address s. unfold InvalidateICacheLine. by rewrite Hno.
Qed.

Lemma range_clear_shrunk D s s' a len :
  shrunk D s s' -> range_clear s a len -> range_clear s' a len.
Proof.
  intros Hsh Hclear q bq' Hq' (x & Hx & Hin).
  destruct (shrunk_footprint _ _ _ _ _ Hsh Hq') as (_ & bq & Hq & Hfp).
  apply (Hclear q bq Hq). exists x. by rewrite <- Hfp.
Qed.

Lemma visit_chunks_identity k m forced chunks :
  BLOCK_RANGE_MAP_ELEMENTS = 2 ^ k -> 0 <= k <= 32 ->
  (forall x, valid (JitCache_TranslateAddress m x) = true /\
             address (JitCache_TranslateAddress m x) = x) ->
  forall a len s,
    partitions a len chunks -> 0 <= a -> a + len + 3 < 2 ^ 32 ->
    wf s -> valid_block_covers s ->
    exists s' (D : gset nat),
      visit_chunks (invalidate_chunk forced) m chunks s = Ok s' /\
      shrunk D s s' /\ wf s' /\ valid_block_covers s' /\ range_clear s' a len /\
      (forall q, q ∈ D ->
         exists bq, nodes s !! q = Some bq /\ footprint_overlaps bq a len).
Proof.
  intros HR Hk Hid. induction chunks as [|[c l] chunks IH];
    intros a len s Hpart Ha Hab Hwf Hcov.
  - simpl in Hpart. subst len. exists s, ∅. split; [done|]. split; [apply shrunk_refl|].
    split; [done|]. split; [done|]. split; [|set_solver].
    intros q bq _ (x & _ & Hx). lia.
  - cbn [partitions] in Hpart. destruct Hpart as (-> & Hl & Hrest).
    rewrite wrap_small in Hrest by (unfold is_u32; lia).
    cbn [visit_chunks]. unfold invalidate_chunk at 1. unfold result_address.
    destruct (Hid a) as [-> ->].
    destruct (InvalidateICacheInternal_covered k a a l forced s Hwf Hcov HR Hk)
      as (s1 & D1 & -> & Hsh1 & Hwf1 & Hcov1 & Hclear1 & HD1); [lia..|].
    cbn [bind].
    destruct (IH (a + l) (len - l) s1 Hrest) as (s' & D2 & Hrun & Hsh2 & Hwf' & Hcov' &
      Hclear2 & HD2); [lia|lia|done|done|].
    exists s', (D1 ∪ D2). split; [exact Hrun|]. split; [by eapply shrunk_trans|].
    split; [done|]. split; [done|]. split.
    + pose proof (range_clear_shrunk _ _ _ _ _ Hsh2 Hclear1) as Hclear1'.
      intros q bq' Hq' (x & Hx & Hin). destruct (decide (x < a + l)).
      * apply (Hclear1' q bq' Hq'). exists x. split; [done|lia].
      * apply (Hclear2 q bq' Hq'). exists x. split; [done|lia].
    + intros q [Hq|Hq]%elem_of_union.
      * destruct (HD1 q Hq) as (bq & Hbq & x & Hx & Hin). exists bq. split; [done|].
        exists x. split; [done|lia].
      * destruct (HD2 q Hq) as (bq1 & Hbq1 & x & Hx & Hin).
        destruct (shrunk_footprint _ _ _ _ _ Hsh1 Hbq1) as (_ & bq & Hbq & Hfp).
        exists bq. split; [done|]. exists x. rewrite <- Hfp. split; [done|lia].
Qed.

(** X13: [InvalidateICache] removes what is in the range. Under a
    translation that maps every address to itself, in a reachable cache
    whose valid-block set has the bit of every cache line in which a block
    has code, [InvalidateICache] of a range that stays below 2^32 returns
    a reachable cache with the same property in which no block has code
    in the range; the blocks that have no code in the range stay, and no
    block is added. *)
Theorem InvalidateICache_removes_range k m initial_address initial_length forced s :
  reachable s -> valid_block_covers s ->
  BLOCK_RANGE_MAP_ELEMENTS = 2 ^ k -> 0 <= k <= 32 ->
  0 <= BAT_INDEX_SHIFT < 32 -> 0 <= HW_PAGE_INDEX_SHIFT < 32 ->
  (forall x, valid (JitCache_TranslateAddress m x) = true /\
             address (JitCache_TranslateAddress m x) = x) ->
  0 <= initial_address -> 0 <= initial_length ->
  initial_address + initial_length + 3 < 2 ^ 32 ->
  exists s', InvalidateICache m initial_address initial_length forced s = Ok s' /\
    reachable s' /\ valid_block_covers s' /\ range_clear s' initial_address initial_length /\
    (forall p b, nodes s !! p = Some b ->
       ~ footprint_overlaps b initial_address initial_length -> is_Some (nodes s' !! p)) /\
    (forall p b', nodes s' !! p = Some b' ->
       exists b, nodes s !! p = Some b /\ physical_addresses b' = physical_addresses b).
Proof.
  intros Hr Hcov HR Hk Hb Hp Hid Ha Hl Hal.
  destruct (InvalidateICache_as_chunks m initial_address initial_length Hb Hp)
    as (chunks & Hpart & Hrun); [unfold is_u32; lia..|].
  destruct (visit_chunks_identity k m forced chunks HR Hk Hid initial_address
              initial_length s Hpart Ha Hal
              (reachable_wf _ Hr) Hcov)
    as (s' & D & Hvisit & Hsh & _ & Hcov' & Hclear & HD).
  rewrite <- Hrun in Hvisit.
  exists s'. split; [exact Hvisit|]. split.
  { eapply reachable_step; [exact Hr|]. by eapply step_InvalidateICache. }
  split; [exact Hcov'|]. split; [exact Hclear|]. split.
  - intros p b Hpb Hno. destruct (shrunk_node_stays _ _ _ p b Hsh Hpb) as (b' & Hp' & _).
    + intros Hin. destruct (HD p Hin) as (b0 & Hb0 & Hov). congruence.
    + eauto.
  - intros p b' Hp'. by destruct (shrunk_footprint _ _ _ _ _ Hsh Hp') as (_ & Hx).
Qed.

End Ranges.

(** ** The overlap test and the slot index *)

Section Tests.

Context `{Constants}.

(** X14: what [OverlapsPhysicalRange] tests. With [finish] the 32-bit sum of
    [address] and [length], it answers true exactly when the footprint has
    an address between the smaller and the larger of [address] and
    [finish], the smaller included. So for a range that stays below 2^32
    it answers whether the footprint has an address in the range, it
    answers false for an empty range and for an empty footprint; and for
    a range whose end wraps around it tests the addresses from [finish] up
    to [address] instead. *)
Theorem OverlapsPhysicalRange_between b address length :
  let finish := wrap (address + length) in
  (OverlapsPhysicalRange b address length = true <->
   exists x, x ∈ physical_addresses b /\
             Z.min address finish <= x < Z.max address finish) /\
  (0 <= address -> 0 <= length -> address + length < 2 ^ 32 ->
   (OverlapsPhysicalRange b address length = true <->
    footprint_overlaps b address length)) /\
  (is_u32 address -> OverlapsPhysicalRange b address 0 = false) /\
  (physical_addresses b = ∅ -> OverlapsPhysicalRange b address length = false).
Proof.
  intros finish.
  assert (OverlapsPhysicalRange b address length = true <->
          exists x, x ∈ physical_addresses b /\
                    Z.min address finish <= x < Z.max address finish) as Hgen.
  { unfold OverlapsPhysicalRange. fold finish.
    rewrite negb_true_iff, bool_decide_eq_false.
    destruct (Z.le_gt_cases address finish) as [Hle|Hgt].
    - rewrite (lower_bound_differ _ _ _ Hle). by rewrite Z.min_l, Z.max_r by lia.
    - assert (lower_bound (physical_addresses b) address <>
              lower_bound (physical_addresses b) finish <->
              lower_bound (physical_addresses b) finish <>
              lower_bound (physical_addresses b) address) as -> by (split; intros ? ?; auto).
      rewrite (lower_bound_differ _ finish address) by lia.
      by rewrite Z.min_r, Z.max_l by lia. }
  split; [exact Hgen|]. split; [|split].
  - intros Ha Hl Hal. by apply OverlapsPhysicalRange_true.
  - intros Ha. apply not_true_is_false. intros Hov.
    assert (OverlapsPhysicalRange b address 0 = true <->
            footprint_overlaps b address 0) as Hx
      by (apply OverlapsPhysicalRange_true; unfold is_u32 in Ha; lia).
    apply Hx in Hov as (x & _ & ?). lia.
  - intros Hempty. apply not_true_is_false. intros Hov.
    apply Hgen in Hov as (x & Hx & _). rewrite Hempty in Hx. set_solver.
Qed.

(** X15: the slot of an address. When [FAST_BLOCK_MAP_MASK] is 2^n - 1, the
    index [FastLookupIndexForAddress] gives for an address is below 2^n,
    so inside a table of 2^n slots; it is the word number of the address
    modulo 2^n, so the two low bits of the address do not count, and two
    addresses 4 * 2^n bytes apart share a slot. *)
Theorem FastLookupIndexForAddress_in_table n address :
  FAST_BLOCK_MAP_MASK = 2 ^ n - 1 -> 0 <= n -> 0 <= address ->
  0 <= FastLookupIndexForAddress address < 2 ^ n /\
  FastLookupIndexForAddress address = (address / 4) mod 2 ^ n /\
  (forall d, 0 <= d < 4 ->
     FastLookupIndexForAddress (4 * (address / 4) + d)
     = FastLookupIndexForAddress address) /\
  FastLookupIndexForAddress (address + 4 * 2 ^ n) = FastLookupIndexForAddress address.
Proof.
  intros Hmask Hn Ha.
  assert (forall x, FastLookupIndexForAddress x = (x / 4) mod 2 ^ n) as Heq.
  { intros x. unfold FastLookupIndexForAddress. rewrite Hmask.
    replace (2 ^ n - 1) with (Z.ones n) by (rewrite Z.ones_equiv; lia).
    rewrite Z.land_ones by done. by rewrite Z.shiftr_div_pow2 by lia. }
  assert (0 < 2 ^ n) as Hpos by (apply Z.pow_pos_nonneg; lia).
  split; [rewrite Heq; by apply Z.mod_pos_bound|]. split; [apply Heq|]. split.
  - intros d Hd. rewrite !Heq. f_equal.
    rewrite Z.mul_comm, Z.div_add_l by lia. rewrite (Z.div_small d 4) by lia. lia.
  - rewrite !Heq. rewrite (Z.mul_comm 4), Z.div_add by lia.
    by rewrite Z.add_mod, Z.mod_same, Z.add_0_r, Z.mod_mod by lia.
Qed.

End Tests.


(** ** The buckets of [links_to] *)

Lemma no_empty_bucket_erase p lt e :
  no_empty_bucket lt -> no_empty_bucket (links_to_erase p lt e).
Proof.
  intros Hne. unfold links_to_erase. destruct (lt !! exitAddress e) as [srcs|] eqn:Hs; [|done].
  case_bool_decide as Hempty.
  - intros a X HX. apply lookup_delete_Some in HX as [_ HX]. by eapply Hne.
  - intros a X HX. apply lookup_insert_Some in HX as [[_ <-]|[_ HX]]; [done|by eapply Hne].
Qed.

Lemma no_empty_bucket_foldl_erase p l lt :
  no_empty_bucket lt -> no_empty_bucket (foldl (links_to_erase p) lt l).
Proof.
  revert lt. induction l as [|e l IH]; intros lt Hne; [done|]. simpl.
  by apply IH, no_empty_bucket_erase.
Qed.

Lemma no_empty_bucket_foldl_insert p (l : list LinkData) lt :
  no_empty_bucket lt ->
  no_empty_bucket (foldl (fun lt e => bucket_insert (exitAddress e) p lt) lt l).
Proof.
  revert lt. induction l as [|e l IH]; intros lt Hne; [done|]. simpl. apply IH.
  intros a X HX. unfold bucket_insert in HX.
  apply lookup_insert_Some in HX as [[_ <-]|[_ HX]]; [set_solver|by eapply Hne].
Qed.

Lemma unlink_sources_links_to target msr l s s' :
  unlink_sources target msr l s = Ok s' -> links_to s' = links_to s.
Proof.
  revert s. induction l as [|q l IH]; intros s; simpl; [by intros [= <-]|].
  destruct (nodes s !! q) as [b|]; [|done]. case_bool_decide; [apply IH|].
  intros Hrun. by apply IH in Hrun.
Qed.

Lemma UnlinkBlock_links_to p s s' : UnlinkBlock p s = Ok s' -> links_to s' = links_to s.
Proof.
  unfold UnlinkBlock. destruct (nodes s !! p) as [b|]; [|done]. cbn zeta.
  cbn [links_to set_nodes].
  destruct (links_to s !! effectiveAddress b); [|by intros [= <-]].
  intros Hrun. by apply unlink_sources_links_to in Hrun.
Qed.

Lemma DestroyBlock_no_empty_bucket p s s' :
  DestroyBlock p s = Ok s' -> no_empty_bucket (links_to s) ->
  no_empty_bucket (links_to s').
Proof.
  unfold DestroyBlock. destruct (nodes s !! p) as [b|]; [|done].
  set (s1 := if bool_decide _ then _ else s).
  assert (links_to s1 = links_to s) as H1 by (unfold s1; by case_bool_decide).
  destruct (UnlinkBlock p s1) as [s2| |] eqn:Hu; cbn [bind]; [|done..].
  apply UnlinkBlock_links_to in Hu. destruct (nodes s2 !! p) as [b2|]; [|done].
  intros [= <-] Hne. unfold WriteDestroyBlock. cbn [links_to set_links_to].
  apply no_empty_bucket_foldl_erase. by rewrite Hu, H1.
Qed.

Section Buckets.

Context `{Constants}.

Lemma erase_in_bucket_no_empty_bucket a len first l s s' :
  erase_in_bucket a len first l s = Ok s' -> no_empty_bucket (links_to s) ->
  no_empty_bucket (links_to s').
Proof.
  revert s. induction l as [|p l IH]; intros s; cbn [erase_in_bucket]; [by intros [= <-]|].
  destruct (nodes s !! p) as [b|]; [|done].
  destruct (OverlapsPhysicalRange b a len); [|apply IH].
  set (s1 := foldl _ s _).
  assert (links_to s1 = links_to s) as H1.
  { destruct (foldl_erase_other_slots p first (ascending (physical_addresses b)) s)
      as [Heq _]. fold s1 in Heq. by rewrite Heq. }
  destruct (DestroyBlock p s1) as [s2| |] eqn:Hd; cbn [bind]; [|done..].
  destruct (nodes s2 !! p) as [b2|]; [|done].
  intros Hrun Hne. apply IH in Hrun; [done|].
  cbn [links_to set_block_range_map]. unfold erase_node. case_bool_decide;
    cbn [links_to set_nodes set_block_map];
    apply (DestroyBlock_no_empty_bucket _ _ _ Hd); by rewrite H1.
Qed.

Lemma erase_macro_blocks_no_empty_bucket fuel a len start finish s s' :
  erase_macro_blocks fuel a len start finish s = Ok s' ->
  no_empty_bucket (links_to s) -> no_empty_bucket (links_to s').
Proof.
  revert start s. induction fuel as [|fuel IH]; intros start s;
    rewrite erase_macro_blocks_unfold;
    (destruct (bool_decide (start = finish)); [by intros [= <-]|]); [done|].
  destruct start as [first|]; [|done].
  destruct (block_range_map s !! first) as [blocks|]; [|done].
  destruct (erase_in_bucket a len first (by_address blocks) s) as [s1| |] eqn:He;
    cbn [bind]; [|done..].
  intros Hrun Hne. apply IH in Hrun; [done|].
  pose proof (erase_in_bucket_no_empty_bucket _ _ _ _ _ _ He Hne). by case_bool_decide.
Qed.

Lemma ErasePhysicalRange_no_empty_bucket a len s s' :
  ErasePhysicalRange a len s = Ok s' ->
  no_empty_bucket (links_to s) -> no_empty_bucket (links_to s').
Proof.
  unfold ErasePhysicalRange. intros Hrun Hne.
  by apply erase_macro_blocks_no_empty_bucket in Hrun.
Qed.

Lemma InvalidateICacheInternal_no_empty_bucket pa a len forced s s' :
  InvalidateICacheInternal pa a len forced s = Ok s' ->
  no_empty_bucket (links_to s) -> no_empty_bucket (links_to s').
Proof.
  unfold InvalidateICacheInternal.
  set (single_line := _ && _).
  set (destroy_block := if single_line then _ else true).
  set (s1 := if single_line then _ else _).
  assert (links_to s1 = links_to s) as H1.
  { unfold s1. destruct single_line; [by destruct destroy_block|]. by case_bool_decide. }
  destruct destroy_block; [|intros [= <-]; by rewrite H1].
  destruct (ErasePhysicalRange pa len s1) as [s2| |] eqn:He; cbn [bind]; [|done..].
  intros Hrun Hne.
  assert (no_empty_bucket (links_to s2)) as H2
    by (apply (ErasePhysicalRange_no_empty_bucket _ _ _ _ He); by rewrite H1).
  destruct (negb forced); [|by injection Hrun as <-].
  revert Hrun. generalize (Z.to_nat len). intros fuel Hrun.
  apply erase_words_frame in Hrun as (_ & _ & _ & _ & -> & _). done.
Qed.

Lemma FinalizeBlock_no_empty_bucket m p block_link footprint s s' :
  FinalizeBlock m p block_link footprint s = Ok s' ->
  no_empty_bucket (links_to s) -> no_empty_bucket (links_to s').
Proof.
  unfold FinalizeBlock. destruct (nodes s !! p) as [b|]; [|done].
  set (s1 := set_nodes _ _).
  destruct (foldl_register_address p (ascending footprint) s1) as [(_ & _ & _ & Hlt & _) _].
  destruct block_link.
  - intros Hl Hne. apply LinkBlock_relinked in Hl as [-> _].
    cbn [links_to set_nodes set_links_to]. apply no_empty_bucket_foldl_insert.
    by rewrite Hlt.
  - intros [= <-]. by rewrite Hlt.
Qed.

Lemma MoveBlockIntoFastCache_links_to m addr msr s r s' :
  MoveBlockIntoFastCache m addr msr s = Ok (r, s') -> links_to s' = links_to s.
Proof.
  unfold MoveBlockIntoFastCache.
  destruct (GetBlockFromStartAddress m addr msr s) as [p|]; [|by intros [= _ <-]].
  destruct (nodes s !! p) as [b|]; [|done]. intros [= _ <-]. simpl.
  by case_bool_decide.
Qed.

Lemma Dispatch_links_to m s r s' : Dispatch m s = Ok (r, s') -> links_to s' = links_to s.
Proof.
  unfold Dispatch.
  set (slow := bind _ _).
  assert (slow = Ok (r, s') -> links_to s' = links_to s) as Hslow.
  { unfold slow.
    destruct (MoveBlockIntoFastCache m (PC m) (Z.land (MSR_Hex m) JIT_CACHE_MSR_MASK) s)
      as [[r1 s1]| |] eqn:Hmove; simpl; [|done..].
    apply MoveBlockIntoFastCache_links_to in Hmove.
    destruct r1 as [p|]; [|by intros [= _ <-]].
    destruct (nodes s1 !! p); [|done]. by intros [= _ <-]. }
  destruct (fast_block_map s !! FastLookupIndexForAddress (PC m)) as [p|]; [|done].
  destruct (nodes s !! p) as [b|]; [|done].
  destruct (_ || _); [done|]. by intros [= _ <-].
Qed.

Lemma step_no_empty_bucket s s' :
  step s s' -> no_empty_bucket (links_to s) -> no_empty_bucket (links_to s').
Proof.
  intros Hstep Hne. destruct Hstep as
    [s' Hc|m a|p c n z ex s' Hfree He|m p b bl fp s' Hp Hfp Hu Hf|m r s' Hd
    |m a s' Hi|m a l forced s' Hi|a l s' He|fifo paired].
  - unfold Clear in Hc. destruct (destroy_all _ _); simpl in Hc; [|done..].
    injection Hc as <-. done.
  - done.
  - unfold emit_code in He. destruct (nodes s !! p); [|done]. by injection He as <-.
  - by eapply FinalizeBlock_no_empty_bucket.
  - by rewrite (Dispatch_links_to _ _ _ _ Hd).
  - unfold InvalidateICacheLine in Hi. destruct (valid _); [|by injection Hi as <-].
    by eapply InvalidateICacheInternal_no_empty_bucket.
  - unfold InvalidateICache in Hi.
    apply (InvalidateICache_loop_preserves (fun x => no_empty_bucket (links_to x))
             (invalidate_chunk forced)) in Hi; [done| |done].
    intros t a' l' x y Hx Hv. unfold invalidate_chunk in Hv.
    destruct (valid t); [|by injection Hv as <-].
    by eapply InvalidateICacheInternal_no_empty_bucket.
  - by eapply ErasePhysicalRange_no_empty_bucket.
  - done.
Qed.

(** X16: [links_to] keeps no empty bucket. In a reachable cache every bucket
    of [links_to] has a member: [DestroyBlock] drops a bucket when it takes
    its last member out. So an address is a key of [links_to] exactly when
    a block of the cache that has an exit to the address is registered
    under it. *)
Theorem links_to_has_no_empty_bucket s :
  reachable s ->
  no_empty_bucket (links_to s) /\
  (forall a, is_Some (links_to s !! a) <->
     exists p b, p ∈ bucket (links_to s) a /\ nodes s !! p = Some b /\
                 a ∈ exitAddress <$> linkData b).
Proof.
  intros Hr.
  assert (no_empty_bucket (links_to s)) as Hne.
  { induction Hr as [|s s' Hr IH Hstep]; [done|]. by eapply step_no_empty_bucket. }
  split; [exact Hne|]. intros a. split.
  - intros [X HX]. destruct (set_choose_L X (Hne a X HX)) as [p Hp].
    assert (p ∈ bucket (links_to s) a) as Hin by (unfold bucket; by rewrite HX).
    destruct (wf_links _ (reachable_wf _ Hr) a p Hin) as (b & Hb & Ha & _). eauto.
  - intros (p & b & Hin & _). by eapply elem_of_bucket_Some.
Qed.

End Buckets.


(** ** Invalidating one cache line *)

Section Lines.

Context `{Constants}.

(** X17: [InvalidateICacheLine] removes what is in the line. Under a
    translation that maps every address to itself, in a reachable cache
    whose valid-block set has the bit of every cache line in which a block
    has code, [InvalidateICacheLine] of an address below the last two
    cache lines returns a reachable cache with the same property in which
    no block has code in the 32 bytes of the cache line of the address;
    the blocks with no code there stay. *)
Theorem InvalidateICacheLine_removes_line k m a s :
  reachable s -> valid_block_covers s ->
  BLOCK_RANGE_MAP_ELEMENTS = 2 ^ k -> 0 <= k <= 32 ->
  (forall x, valid (JitCache_TranslateAddress m x) = true /\
             result_address (JitCache_TranslateAddress m x) = x) ->
  0 <= a -> a + 64 < 2 ^ 32 ->
  let line := 32 * (a / 32) in
  exists s', InvalidateICacheLine m a s = Ok s' /\
    reachable s' /\ valid_block_covers s' /\ range_clear s' line 32 /\
    (forall p b, nodes s !! p = Some b ->
       ~ footprint_overlaps b line 32 -> is_Some (nodes s' !! p)).
Proof.
  intros Hr Hcov HR Hk Hid Ha Htop line.
  assert (Z.land a (u32_not 0x1f) = line) as Hline.
  { change 0x1f with (2 ^ 5 - 1). rewrite land_align by (unfold is_u32; lia).
    unfold line. pose proof (Z.div_mod a 32 ltac:(lia)). change (2 ^ 5) with 32. lia. }
  pose proof (Z.div_mod a 32 ltac:(lia)) as Hdm.
  pose proof (Z.mod_pos_bound a 32 ltac:(lia)) as Hmod.
  assert (InvalidateICacheLine m a s
          = InvalidateICacheInternal line line 32 false s) as Hunfold.
  { unfold InvalidateICacheLine. rewrite Hline. by destruct (Hid line) as [-> ->]. }
  destruct (InvalidateICacheInternal_covered k line line 32 false s
              (reachable_wf _ Hr) Hcov HR Hk)
    as (s' & D & Hrun & Hsh & _ & Hcov' & Hclear & HD); [unfold line; lia..| |].
  { intros _. unfold line. lia. }
  rewrite <- Hunfold in Hrun.
  exists s'. split; [exact Hrun|]. split.
  { eapply reachable_step; [exact Hr|]. by eapply step_InvalidateICacheLine. }
  split; [exact Hcov'|]. split; [exact Hclear|].
  intros p b Hpb Hno. destruct (shrunk_node_stays _ _ _ p b Hsh Hpb) as (b' & Hp' & _).
  - intros Hin. destruct (HD p Hin) as (b0 & Hb0 & Hov). congruence.
  - eauto.
Qed.

End Lines.

(** ** The properties on concrete caches, continued *)

Lemma allocated_block_reachable : reachable (H := dolphin) allocated_block.
Proof.
  eapply reachable_step.
  - eapply reachable_step; [apply reachable_init|].
    apply (step_AllocateBlock (H := dolphin) empty_cache (machine 0x1000 0x30) 0x1000).
  - eapply (step_emit_code (H := dolphin) _ 0%nat 0x7000 0x7010 64 [0x2000]).
    + intros a Hin. vm_compute in Hin. discriminate.
    + reflexivity.
Qed.

Lemma top_line_block_reachable : reachable (H := dolphin) top_line_block.
Proof.
  apply compile_block_reachable; [apply reachable_init|].
  intros a Ha. set_unfold. unfold is_u32. lia.
Qed.

Lemma only_node_0 (s : Cache) (p : nat) (b : JitBlock) :
  dom (nodes s) = {[0%nat]} -> nodes s !! p = Some b ->
  p = 0%nat.
Proof.
  intros Hd Hp. apply elem_of_dom_2 in Hp. rewrite Hd in Hp.
  by apply elem_of_singleton in Hp.
Qed.

Lemma one_block_covered : valid_block_covers one_block.
Proof.
  intros p b addr Hp Ha.
  assert (p = 0%nat) as -> by (eapply only_node_0; [|exact Hp]; vm_compute; reflexivity).
  assert (nodes one_block !! 0%nat = Some b -> physical_addresses b = {[0x1000; 0x1004]})
    as Hfp by (vm_compute; intros [= <-]; reflexivity).
  rewrite (Hfp Hp) in Ha.
  apply elem_of_union in Ha as [->%elem_of_singleton| ->%elem_of_singleton];
    vm_compute; reflexivity.
Qed.

Lemma top_line_block_covered : valid_block_covers top_line_block.
Proof.
  intros p b addr Hp Ha.
  assert (p = 0%nat) as -> by (eapply only_node_0; [|exact Hp]; vm_compute; reflexivity).
  assert (nodes top_line_block !! 0%nat = Some b -> physical_addresses b = {[0xFFFFFFE0]})
    as Hfp by (vm_compute; intros [= <-]; reflexivity).
  rewrite (Hfp Hp) in Ha. apply elem_of_singleton in Ha as ->. vm_compute. reflexivity.
Qed.

(** X18: at the top of the address space the cover is lost. [top_line_block]
    is a reachable cache with one block, whose code is in the last cache
    line, and the bit of that line is set. [InvalidateICacheLine] of that
    line clears the bit and runs [ErasePhysicalRange], whose end address
    wraps around to 0, so that the loop over the macro blocks ends before
    it starts: the block stays, in a reachable cache in which its line has
    no bit, and from then on [InvalidateICacheLine] of the line skips the
    destruction logic. *)
Theorem valid_block_cover_lost_at_top :
  reachable (H := dolphin) top_line_block /\ valid_block_covers top_line_block /\
  exists s',
    InvalidateICacheLine (H := dolphin) (machine 0 0x30) 0xFFFFFFE0 top_line_block = Ok s' /\
    reachable (H := dolphin) s' /\
    nodes s' = nodes top_line_block /\ block_map s' = block_map top_line_block /\
    0xFFFFFFE0 / 32 ∉ valid_block s' /\
    ~ valid_block_covers s' /\
    InvalidateICacheLine (H := dolphin) (machine 0 0x30) 0xFFFFFFE0 s' = Ok s'.
Proof.
  split; [apply top_line_block_reachable|]. split; [apply top_line_block_covered|].
  destruct (InvalidateICacheLine (H := dolphin) (machine 0 0x30) 0xFFFFFFE0 top_line_block)
    as [s'| |] eqn:Hrun; [|vm_compute in Hrun; discriminate..].
  exists s'. split; [reflexivity|]. split.
  { eapply reachable_step; [apply top_line_block_reachable|].
    by eapply step_InvalidateICacheLine. }
  assert (Ok s' = InvalidateICacheLine (H := dolphin) (machine 0 0x30) 0xFFFFFFE0
                    top_line_block) as Heq by done.
  vm_compute in Heq. injection Heq as ->.
  split; [vm_compute; reflexivity|]. split; [vm_compute; reflexivity|].
  assert (forall (x : Z) (X : gset Z), X = ∅ -> x ∉ X) as Hempty
    by (intros x X ->; apply not_elem_of_empty).
  split; [apply Hempty; vm_compute; reflexivity|]. split.
  - intros Hcov. apply (Hempty (0xFFFFFFE0 / 32) ∅ eq_refl).
    eapply (Hcov 0%nat _ 0xFFFFFFE0); vm_compute; reflexivity.
  - vm_compute. reflexivity.
Qed.


(** [RunOnBlocks] over the two blocks of [linked_pair]. *)
Lemma RunOnBlocks_visits_each_block_witness :
  reachable (H := dolphin) linked_pair /\
  exists visited : list (nat * JitBlock),
    visited ≡ₚ map_to_list (nodes linked_pair) /\
    RunOnBlocks (fun b acc => physicalAddress b :: acc) linked_pair []
    = Ok (foldl (fun a pb => physicalAddress pb.2 :: a) [] visited).
Proof.
  split; [apply linked_pair_reachable|].
  destruct (RunOnBlocks_visits_each_block (H := dolphin) linked_pair linked_pair_reachable)
    as (visited & Hperm & _ & Hrun).
  exists visited. split; [exact Hperm|apply Hrun].
Defined.

(** The exit of block 1 of [linked_pair] is patched into block 0, which is
    there and was compiled for 0x2000. *)
Lemma patched_exit_enters_live_block_witness :
  reachable (H := dolphin) linked_pair /\
  exists bd, nodes linked_pair !! 0%nat = Some bd /\ effectiveAddress bd = 0x2000 /\
    1%nat ∈ bucket (links_to linked_pair) (effectiveAddress bd).
Proof.
  split; [apply linked_pair_reachable|].
  assert (exists b, nodes linked_pair !! 1%nat = Some b /\
            linkData b = [{| exitAddress := 0x2000; linkStatus := true;
                             exitTarget := Some 0%nat |}]) as (b & Hb & Hl)
    by (eexists; split; [vm_compute; reflexivity|reflexivity]).
  destruct (patched_exit_enters_live_block (H := dolphin) linked_pair linked_pair_reachable
              1%nat b {| exitAddress := 0x2000; linkStatus := true;
                         exitTarget := Some 0%nat |} 0%nat Hb)
    as (_ & bd & Hbd & Hea & _ & Hin); [rewrite Hl; left|reflexivity|].
  exists bd. split; [exact Hbd|]. split; [exact Hea|exact Hin].
Defined.

(** The block of [one_block] is in the range index under the macro block of
    0x1000. *)
Lemma block_range_map_membership_witness :
  reachable (H := dolphin) one_block /\
  0%nat ∈ bucket (block_range_map one_block) 0x1000.
Proof.
  split; [apply one_block_reachable|].
  destruct (block_range_map_membership (H := dolphin) one_block one_block_reachable)
    as [Hm _].
  apply Hm. eexists. exists 0x1000.
  split; [vm_compute; reflexivity|]. split; vm_compute; reflexivity.
Defined.

(** [Clear] on [one_block]. *)
Lemma Clear_empties_cache_witness :
  reachable (H := dolphin) one_block /\
  exists s', Clear one_block = Ok s' /\ nodes s' = ∅ /\ block_map s' = [] /\
    forall m, Dispatch (H := dolphin) m s' = Ok (None, s').
Proof.
  split; [apply one_block_reachable|].
  pose proof (Clear_empties_cache (H := dolphin) one_block one_block_reachable) as Hx.
  cbv zeta in Hx. destruct Hx as (Hc & _ & _ & _ & _ & Hd).
  eexists. split; [exact Hc|]. split; [reflexivity|]. split; [reflexivity|exact Hd].
Defined.

(** [DestroyBlock] on block 0 of [linked_pair], into which the exit of
    block 1 is patched. *)
Lemma DestroyBlock_severs_block_witness :
  reachable (H := dolphin) linked_pair /\
  exists s', DestroyBlock 0%nat linked_pair = Ok s' /\
    (forall q bq e, nodes s' !! q = Some bq -> e ∈ linkData bq ->
       exitTarget e <> Some 0%nat) /\
    (forall a, 0%nat ∉ bucket (links_to s') a).
Proof.
  split; [apply linked_pair_reachable|].
  assert (exists b, nodes linked_pair !! 0%nat = Some b) as (b & Hb)
    by (eexists; vm_compute; reflexivity).
  destruct (DestroyBlock_severs_block (H := dolphin) linked_pair 0%nat b
              linked_pair_reachable Hb)
    as (s' & Hrun & _ & _ & _ & Hlt & Hex & _).
  exists s'. split; [exact Hrun|]. split; [exact Hex|].
  intros a Hin. apply Hlt in Hin as [_ Hne]. by apply Hne.
Defined.

(** A second block, allocated at 0x2000 in [one_block], is found. *)
Lemma lookup_after_AllocateBlock_witness :
  reachable (H := dolphin) one_block /\
  GetBlockFromStartAddress (H := dolphin) (machine 0x2000 0x30) 0x2000 0x30
    (AllocateBlock (H := dolphin) (machine 0x2000 0x30) 0x2000 one_block).2
  = Some 1%nat.
Proof.
  split; [apply one_block_reachable|].
  pose proof (lookup_after_AllocateBlock (H := dolphin) (machine 0x2000 0x30) 0x2000
                one_block one_block_reachable) as Hx.
  cbv zeta in Hx. destruct Hx as (_ & _ & Hfound).
  destruct Hfound as (q & bq & Hq & _ & _ & Hnew); [reflexivity|reflexivity|].
  change (MSR_Hex (machine 0x2000 0x30)) with 0x30 in Hq, Hnew.
  rewrite Hq. f_equal. rewrite Hnew; [reflexivity|]. vm_compute. reflexivity.
Defined.

(** [Dispatch] at 0x1000 on [one_block], twice. *)
Lemma Dispatch_settles_witness :
  reachable (H := dolphin) one_block /\
  exists r s', Dispatch (H := dolphin) (machine 0x1000 0x30) one_block = Ok (r, s') /\
    Dispatch (H := dolphin) (machine 0x1000 0x30) s' = Ok (r, s').
Proof.
  split; [apply one_block_reachable|].
  pose proof (Dispatch_settles (H := dolphin) (machine 0x1000 0x30) one_block
                one_block_reachable) as Hx.
  cbv zeta in Hx. destruct Hx as (r & s' & H1 & H2 & _).
  exists r, s'. split; [exact H1|exact H2].
Defined.

(** [FinalizeBlock] on the block of [allocated_block], and [Dispatch] at its
    address afterwards. *)
Lemma FinalizeBlock_installs_block_witness :
  reachable (H := dolphin) allocated_block /\
  exists s' b',
    FinalizeBlock (H := dolphin) (machine 0x1000 0x30) 0%nat true {[0x1000]}
      allocated_block = Ok s' /\
    nodes s' !! 0%nat = Some b' /\ physical_addresses b' = {[0x1000]} /\
    Dispatch (H := dolphin) (machine 0x1000 0x30) s' = Ok (Some 0x7010, s').
Proof.
  split; [apply allocated_block_reachable|].
  assert (exists b, nodes allocated_block !! 0%nat = Some b /\ physical_addresses b = ∅ /\
            effectiveAddress b = 0x1000 /\ msrBits b = 0x30 /\ normalEntry b = 0x7010)
    as (b & Hb & Hfp & Hea & Hm & Hn)
    by (eexists; split; [vm_compute; reflexivity|repeat split; reflexivity]).
  pose proof (FinalizeBlock_installs_block (H := dolphin) (machine 0x1000 0x30) 0%nat b true
                {[0x1000]} allocated_block allocated_block_reachable Hb Hfp) as Hx.
  cbv zeta in Hx.
  destruct Hx as (s' & b' & Hrun & Hp' & _ & Hpa & _ & _ & _ & _ & _ & _ & _ & _ & _ & Hdisp).
  { intros a Ha. apply elem_of_singleton in Ha as ->. unfold is_u32. lia. }
  exists s', b'. split; [exact Hrun|]. split; [exact Hp'|]. split; [exact Hpa|].
  rewrite <- Hn. apply Hdisp; [by rewrite Hea|by rewrite Hm].
Defined.

Lemma unlinked_pair_reachable : reachable (H := dolphin) unlinked_pair.
Proof.
  apply compile_block_reachable; [apply dangling_exit_reachable|].
  intros a Ha. set_unfold. unfold is_u32. lia.
Qed.

(** [LinkBlock] on block 0 of [unlinked_pair]: its exit to 0x2000 was not
    linked although block 1 is compiled there; the call links it and
    patches it into block 1, and a second call changes nothing. *)
Lemma LinkBlock_links_what_it_can_witness :
  reachable (H := dolphin) unlinked_pair /\
  exists b s' b',
    nodes unlinked_pair !! 0%nat = Some b /\
    linkData b = [{| exitAddress := 0x2000; linkStatus := false; exitTarget := None |}] /\
    LinkBlock (H := dolphin) (machine 0 0x30) 0%nat unlinked_pair = Ok s' /\
    nodes s' !! 0%nat = Some b' /\
    linkData b' = [{| exitAddress := 0x2000; linkStatus := true;
                      exitTarget := Some 1%nat |}] /\
    LinkBlock (H := dolphin) (machine 0 0x30) 0%nat s' = Ok s'.
Proof.
  split; [apply unlinked_pair_reachable|].
  assert (exists b, nodes unlinked_pair !! 0%nat = Some b /\ msrBits b = 0x30 /\
            linkData b = [{| exitAddress := 0x2000; linkStatus := false;
                             exitTarget := None |}])
    as (b & Hb & Hmsr & Hexits)
    by (eexists; split; [vm_compute; reflexivity|split; reflexivity]).
  assert (GetBlockFromStartAddress (H := dolphin) (machine 0 0x30) 0x2000 0x30 unlinked_pair
          = Some 1%nat) as Hfind by (vm_compute; reflexivity).
  destruct (LinkBlock_links_what_it_can (H := dolphin) (machine 0 0x30) unlinked_pair
              0%nat b unlinked_pair_reachable Hb)
    as (s' & Hrun & _ & Hsame & Hexit & Hclosed & Hagain).
  destruct (Hexit 0%nat b Hb) as (b' & Hb' & _ & Hall).
  exists b, s', b'. split; [exact Hb|]. split; [exact Hexits|]. split; [exact Hrun|].
  split; [exact Hb'|]. split; [|exact Hagain].
  rewrite Hexits in Hall. apply Forall2_cons_inv_l in Hall as (e' & rest & He' & Hrest & Heq).
  apply Forall2_nil_inv_l in Hrest as ->. rewrite Heq.
  destruct He' as [->|(_ & d & Hd & ->)].
  - exfalso. destruct (Hclosed 0%nat b'
                         {| exitAddress := 0x2000; linkStatus := false; exitTarget := None |}
                         (or_introl eq_refl) Hb') as [Hlinked|Hnone].
    + rewrite Heq. apply list_elem_of_here.
    + discriminate Hlinked.
    + assert (msrBits b' = 0x30) as Hmsr'.
      { destruct (Hexit 0%nat b Hb) as (b2 & Hb2 & Hset & _).
        rewrite Hb' in Hb2. injection Hb2 as <-. rewrite Hset. exact Hmsr. }
      rewrite Hmsr', Hsame in Hnone. cbn [exitAddress] in Hnone.
      rewrite Hfind in Hnone. discriminate Hnone.
  - cbn [exitAddress] in Hd. rewrite Hmsr, Hfind in Hd. injection Hd as <-. reflexivity.
Defined.



(** Nothing is mapped: the invalidation of 64 bytes in [one_block] changes
    nothing. *)
Lemma InvalidateICache_skips_unmapped_witness :
  (forall a, valid (JitCache_TranslateAddress (unmapped_machine 0 0) a) = false) /\
  InvalidateICache (H := dolphin) (unmapped_machine 0 0) 0x1000 64 false one_block
  = Ok one_block.
Proof.
  split; [reflexivity|].
  destruct (InvalidateICache_skips_unmapped (H := dolphin) (unmapped_machine 0 0))
    as [_ Hskip].
  destruct Hskip as [Hrange _]; [reflexivity|simpl; lia|simpl; lia|].
  apply Hrange; unfold is_u32; lia.
Defined.

(** The invalidation of 8 bytes at 0x1000 in [one_block]. *)
Lemma InvalidateICache_removes_range_witness :
  reachable (H := dolphin) one_block /\ valid_block_covers one_block /\
  exists s',
    InvalidateICache (H := dolphin) (machine 0 0x30) 0x1000 8 false one_block = Ok s' /\
    range_clear s' 0x1000 8.
Proof.
  split; [apply one_block_reachable|]. split; [apply one_block_covered|].
  destruct (InvalidateICache_removes_range (H := dolphin) 8 (machine 0 0x30) 0x1000 8 false
              one_block one_block_reachable one_block_covered)
    as (s' & Hrun & _ & _ & Hclear & _);
    [reflexivity|lia|simpl; lia|simpl; lia|intros x; split; reflexivity|lia..|].
  exists s'. split; [exact Hrun|exact Hclear].
Defined.

(** The slot of 0x1000 in a table of 2^16 slots. *)
Lemma FastLookupIndexForAddress_in_table_witness :
  FAST_BLOCK_MAP_MASK (Constants := dolphin) = 2 ^ 16 - 1 /\
  0 <= FastLookupIndexForAddress (H := dolphin) 0x1000 < 2 ^ 16 /\
  FastLookupIndexForAddress (H := dolphin) (0x1000 + 4 * 2 ^ 16)
  = FastLookupIndexForAddress (H := dolphin) 0x1000.
Proof.
  split; [reflexivity|].
  destruct (FastLookupIndexForAddress_in_table (H := dolphin) 16 0x1000)
    as (Hbound & _ & _ & Halias); [reflexivity|lia|lia|].
  split; [exact Hbound|exact Halias].
Defined.

(** [links_to] of [linked_pair] has a bucket under 0x2000, with block 1 in
    it. *)
Lemma links_to_has_no_empty_bucket_witness :
  reachable (H := dolphin) linked_pair /\
  no_empty_bucket (links_to linked_pair) /\
  is_Some (links_to linked_pair !! 0x2000).
Proof.
  split; [apply linked_pair_reachable|].
  destruct (links_to_has_no_empty_bucket (H := dolphin) linked_pair linked_pair_reachable)
    as [Hne Hkeys].
  split; [exact Hne|]. apply Hkeys. exists 1%nat. eexists.
  split; [vm_compute; reflexivity|]. split; [vm_compute; reflexivity|].
  vm_compute. left.
Defined.

(** [InvalidateICacheLine] of 0x1004 in [one_block] clears the line at
    0x1000. *)
Lemma InvalidateICacheLine_removes_line_witness :
  reachable (H := dolphin) one_block /\ valid_block_covers one_block /\
  exists s',
    InvalidateICacheLine (H := dolphin) (machine 0 0x30) 0x1004 one_block = Ok s' /\
    range_clear s' 0x1000 32.
Proof.
  split; [apply one_block_reachable|]. split; [apply one_block_covered|].
  pose proof (InvalidateICacheLine_removes_line (H := dolphin) 8 (machine 0 0x30) 0x1004
                one_block one_block_reachable one_block_covered) as Hx.
  cbv zeta in Hx.
  destruct Hx as (s' & Hrun & _ & _ & Hclear & _);
    [reflexivity|lia|intros x; split; reflexivity|lia..|].
  exists s'. split; [exact Hrun|exact Hclear].
Defined.


(** ** Erasing where no code is *)

Section Outside.

Context `{Constants}.




End Outside.

(** ** Dispatching after an invalidation *)

Section Stale.

Context `{Constants}.

Lemma Dispatch_misses m s :
  wf s -> (forall p b, nodes s !! p = Some b -> ~ matches b (PC m) (MSR_Hex m)) ->
  Dispatch m s = Ok (None, s).
Proof.
  intros Hwf Hno. set (msr := Z.land (MSR_Hex m) JIT_CACHE_MSR_MASK).
  assert (GetBlockFromStartAddress m (PC m) msr s = None) as Hnone.
  { destruct (GetBlockFromStartAddress m (PC m) msr s) as [p|] eqn:Hget; [|done].
    destruct (GetBlockFromStartAddress_Some _ _ _ _ _ Hget) as (b & Hb & Hm & _).
    destruct (Hno p b Hb). by apply matches_masked. }
  unfold Dispatch, MoveBlockIntoFastCache. fold msr. rewrite Hnone.
  destruct (fast_block_map s !! FastLookupIndexForAddress (PC m)) as [p0|] eqn:Hslot;
    [|done].
  destruct (wf_fast _ Hwf _ _ Hslot) as (b0 & Hb0 & _). rewrite Hb0.
  destruct (decide (effectiveAddress b0 = PC m)) as [Hea|Hea];
    [|by rewrite (bool_decide_eq_true_2 _ Hea)].
  destruct (decide (msrBits b0 = msr)) as [Hmsr|Hmsr];
    [|by rewrite (bool_decide_eq_true_2 _ Hmsr), orb_true_r].
  destruct (Hno p0 b0 Hb0). by split.
Qed.

(** X20: invalidated code is not dispatched. Under a translation that maps
    every address to itself, in a reachable cache whose valid-block set
    has the bit of every cache line in which a block has code, when every
    block compiled for an address and mode has code in a range that stays
    below 2^32, then after [InvalidateICache] of the range the lookup for
    that address and mode finds nothing and [Dispatch] there returns null;
    and every exit that is still patched jumps into a block that is in the
    cache and has no code in the range. *)
Theorem invalidated_code_is_not_dispatched k m initial_address initial_length forced m' s :
  reachable s -> valid_block_covers s ->
  BLOCK_RANGE_MAP_ELEMENTS = 2 ^ k -> 0 <= k <= 32 ->
  0 <= BAT_INDEX_SHIFT < 32 -> 0 <= HW_PAGE_INDEX_SHIFT < 32 ->
  (forall x, valid (JitCache_TranslateAddress m x) = true /\
             result_address (JitCache_TranslateAddress m x) = x) ->
  0 <= initial_address -> 0 <= initial_length ->
  initial_address + initial_length + 3 < 2 ^ 32 ->
  (forall p b, nodes s !! p = Some b -> matches b (PC m') (MSR_Hex m') ->
     footprint_overlaps b initial_address initial_length) ->
  exists s', InvalidateICache m initial_address initial_length forced s = Ok s' /\
    (forall m'', GetBlockFromStartAddress m'' (PC m') (MSR_Hex m') s' = None) /\
    Dispatch m' s' = Ok (None, s') /\
    (forall q bq e d, nodes s' !! q = Some bq -> e ∈ linkData bq ->
       exitTarget e = Some d ->
       exists bd, nodes s' !! d = Some bd /\
                  ~ footprint_overlaps bd initial_address initial_length).
Proof.
  intros Hr Hcov HR Hk Hb Hp Hid Ha Hl Hal Hcode.
  destruct (InvalidateICache_as_chunks m initial_address initial_length Hb Hp)
    as (chunks & Hpart & Hrun); [unfold is_u32; lia..|].
  destruct (visit_chunks_identity k m forced chunks HR Hk Hid initial_address
              initial_length s Hpart Ha Hal (reachable_wf _ Hr) Hcov)
    as (s' & D & Hvisit & Hsh & Hwf' & _ & Hclear & _).
  rewrite <- Hrun in Hvisit.
  assert (forall p b', nodes s' !! p = Some b' -> ~ matches b' (PC m') (MSR_Hex m'))
    as Hnone.
  { intros p b' Hp' [Hea Hmsr].
    destruct (shrunk_node_Some _ _ _ _ _ Hsh Hp') as (_ & b & Hpb & Hun).
    destruct (block_unlinked_static _ _ _ Hun) as (E1 & _ & E2 & E3 & _).
    destruct (Hcode p b Hpb) as (x & Hx & Hin); [split; congruence|].
    apply (Hclear p b' Hp'). exists x. by rewrite E3. }
  exists s'. split; [exact Hvisit|]. split; [|split].
  - intros m''.
    destruct (GetBlockFromStartAddress m'' (PC m') (MSR_Hex m') s') as [p|] eqn:Hget; [|done].
    destruct (GetBlockFromStartAddress_Some _ _ _ _ _ Hget) as (b' & Hb' & Hm & _).
    by destruct (Hnone p b' Hb').
  - by apply Dispatch_misses.
  - intros q bq e d Hq He Hd.
    destruct (wf_target _ Hwf' q bq e d Hq He Hd) as (_ & bd & Hbd & _).
    exists bd. split; [done|]. by apply (Hclear d bd).
Qed.

End Stale.


Lemma one_block_footprint p b :
  nodes one_block !! p = Some b ->
  p = 0%nat /\ physical_addresses b = {[0x1000; 0x1004]}.
Proof.
  intros Hp.
  assert (p = 0%nat) as -> by (eapply only_node_0; [|exact Hp]; vm_compute; reflexivity).
  split; [done|]. revert Hp. vm_compute. intros [= <-]. reflexivity.
Qed.


(** After the invalidation of 8 bytes at 0x1000 in [one_block], [Dispatch]
    at 0x1000 returns null. *)
Lemma invalidated_code_is_not_dispatched_witness :
  reachable (H := dolphin) one_block /\ valid_block_covers one_block /\
  exists s',
    InvalidateICache (H := dolphin) (machine 0 0x30) 0x1000 8 false one_block = Ok s' /\
    Dispatch (H := dolphin) (machine 0x1000 0x30) s' = Ok (None, s').
Proof.
  split; [apply one_block_reachable|]. split; [apply one_block_covered|].
  destruct (invalidated_code_is_not_dispatched (H := dolphin) 8 (machine 0 0x30) 0x1000 8
              false (machine 0x1000 0x30) one_block one_block_reachable one_block_covered)
    as (s' & Hrun & _ & Hdisp & _);
    [reflexivity|lia|simpl; lia|simpl; lia|intros x; split; reflexivity|lia..| |].
  { intros p b Hp _. destruct (one_block_footprint p b Hp) as [_ Hfp].
    exists 0x1000. rewrite Hfp. split; [set_solver|lia]. }
  exists s'. split; [exact Hrun|exact Hdisp].
Defined.


(** ** Linking at finalization *)

Section LinkingAtFinalization.

Context `{Constants}.

Lemma LinkBlock_closure m p b s s' :
  nodes s !! p = Some b ->
  (forall q, q ∈ bucket (links_to s) (effectiveAddress b) -> is_Some (nodes s !! q)) ->
  LinkBlock m p s = Ok s' ->
  forall q bq' e',
    q = p \/ (q ∈ bucket (links_to s) (effectiveAddress b) /\ msrBits bq' = msrBits b) ->
    nodes s' !! q = Some bq' -> e' ∈ linkData bq' ->
    linkStatus e' = true \/
    GetBlockFromStartAddress m (exitAddress e') (msrBits bq') s' = None.
Proof.
  intros Hp Hlive Hrun.
  destruct (LinkBlock_nodes m p b s Hp Hlive) as (s'' & Hrun' & Hrel & Hnodes).
  rewrite Hrun in Hrun'. injection Hrun' as <-.
  intros q bq' e' Hset Hq' He'. specialize (Hnodes q). rewrite Hq' in Hnodes.
  destruct (nodes s !! q) as [bq|] eqn:Hq; [|done]. simpl in Hnodes.
  injection Hnodes as Hbq'.
  assert (msrBits bq' = msrBits bq) as Hmsr by (rewrite Hbq'; by case_decide).
  rewrite decide_True in Hbq' by (by rewrite <- Hmsr).
  rewrite Hbq' in He'. unfold relink_exits in He'. cbn [linkData set_linkData] in He'.
  apply list_elem_of_fmap in He' as (e & -> & He).
  rewrite (GetBlockFromStartAddress_relinked _ _ _ _ _ Hrel), Hmsr.
  apply link_exit_closed.
Qed.

(** X21: [FinalizeBlock] links both ways. With [block_link], on a block of
    a reachable cache that has no footprint yet, it returns a reachable
    cache in which no exit of the block is left unlinked while the lookup
    for the exit under the mode of the block finds a block, and the same
    holds for the exits of every block of that mode that is registered in
    [links_to] under the address of the block: the blocks that were waiting
    for the address are linked when it is compiled. Every exit that is
    linked and patched leads into a block of the cache compiled for the
    address of the exit and the mode of its block. *)
Theorem FinalizeBlock_links_both_ways m p b footprint s :
  reachable s -> nodes s !! p = Some b -> physical_addresses b = ∅ ->
  (forall a, a ∈ footprint -> is_u32 a) ->
  exists s', FinalizeBlock m p true footprint s = Ok s' /\ reachable s' /\
    (forall q bq' e',
       q = p \/ (q ∈ bucket (links_to s') (effectiveAddress b) /\ msrBits bq' = msrBits b) ->
       nodes s' !! q = Some bq' -> e' ∈ linkData bq' ->
       linkStatus e' = true \/
       GetBlockFromStartAddress m (exitAddress e') (msrBits bq') s' = None) /\
    (forall q bq' e' d, nodes s' !! q = Some bq' -> e' ∈ linkData bq' ->
       exitTarget e' = Some d ->
       exists bd, nodes s' !! d = Some bd /\ effectiveAddress bd = exitAddress e' /\
                  msrBits bd = msrBits bq').
Proof.
  intros Hr Hp Hfp Hu. pose proof (reachable_wf _ Hr) as Hwf.
  destruct (FinalizeBlock_total m p b true footprint s Hwf Hp Hfp Hu)
    as (s' & Hfin & Hwf').
  assert (reachable s') as Hr'.
  { eapply reachable_step; [exact Hr|]. by eapply step_FinalizeBlock. }
  exists s'. split; [exact Hfin|]. split; [exact Hr'|]. split.
  - unfold FinalizeBlock in Hfin. rewrite Hp in Hfin.
    set (index := FastLookupIndexForAddress (effectiveAddress b)) in Hfin.
    set (block1 := set_physical_addresses footprint (set_fast_block_map_index index b))
      in Hfin.
    set (s1 := set_nodes (insert p block1) (set_fast_block_map (insert index p) s)) in Hfin.
    set (s2 := foldl (register_address p) s1 (ascending footprint)) in Hfin.
    set (s3 := set_links_to _ s2) in Hfin.
    destruct (foldl_register_address p (ascending footprint) s1) as [(_ & Hnd & _) _].
    fold s2 in Hnd.
    assert (nodes s3 !! p = Some block1) as Hp3.
    { unfold s3. cbn [nodes set_links_to]. rewrite Hnd. apply lookup_insert_eq. }
    pose proof (LinkBlock_relinked _ _ _ _ Hfin) as [Heq Hnodes].
    assert (links_to s' = links_to s3) as Hlt by (rewrite Heq; done).
    intros q bq' e' Hset. rewrite Hlt in Hset.
    apply (LinkBlock_closure m p block1 s3 s' Hp3); [|exact Hfin|exact Hset].
    intros q0 Hq0. change (effectiveAddress block1) with (effectiveAddress b) in Hq0.
    rewrite <- Hlt in Hq0. destruct (wf_links _ Hwf' _ _ Hq0) as (bq0 & Hbq0 & _).
    specialize (Hnodes q0). rewrite Hbq0 in Hnodes. inversion Hnodes. eauto.
  - intros q bq' e' d Hq He Hd.
    destruct (wf_target _ Hwf' q bq' e' d Hq He Hd) as (_ & bd & Hbd & Hea & Hm). eauto.
Qed.

End LinkingAtFinalization.

Lemma waiting_source_reachable : reachable (H := dolphin) waiting_source.
Proof.
  assert (reachable (H := dolphin)
            (AllocateBlock (H := dolphin) (machine 0x2000 0x30) 0x2000 dangling_exit).2) as Hr.
  { eapply reachable_step; [apply dangling_exit_reachable|apply step_AllocateBlock]. }
  eapply reachable_step; [exact Hr|].
  eapply (step_emit_code (H := dolphin) _ 1%nat 0x8000 0x8010 64 [0x1000]).
  - intros a Hin.
    destruct (wf_links _ (reachable_wf _ Hr) a 1%nat Hin) as (b & Hb & Hexit & _).
    vm_compute in Hb. injection Hb as <-. cbn in Hexit. by apply elem_of_nil in Hexit.
  - vm_compute. reflexivity.
Qed.

(** [FinalizeBlock] with [block_link] on block 1 of [waiting_source], the
    block at 0x2000 with an exit to 0x1000: block 0 at 0x1000, whose exit
    to 0x2000 was waiting, is linked into the new block, and the exit of
    the new block is linked into block 0. *)
Lemma FinalizeBlock_links_both_ways_witness :
  reachable (H := dolphin) waiting_source /\
  exists b0 s' b0' b1',
    nodes waiting_source !! 0%nat = Some b0 /\
    linkData b0 = [{| exitAddress := 0x2000; linkStatus := false; exitTarget := None |}] /\
    FinalizeBlock (H := dolphin) (machine 0x2000 0x30) 1%nat true {[0x2000]}
      waiting_source = Ok s' /\
    reachable (H := dolphin) s' /\
    nodes s' !! 0%nat = Some b0' /\ (exitAddress <$> linkData b0') = [0x2000] /\
    nodes s' !! 1%nat = Some b1' /\ (exitAddress <$> linkData b1') = [0x1000] /\
    (forall e, e ∈ linkData b0' -> linkStatus e = true) /\
    (forall e, e ∈ linkData b1' -> linkStatus e = true).
Proof.
  split; [apply waiting_source_reachable|].
  assert (exists b0, nodes waiting_source !! 0%nat = Some b0 /\
            linkData b0 = [{| exitAddress := 0x2000; linkStatus := false;
                              exitTarget := None |}]) as (b0 & Hb0 & Hexits0)
    by (eexists; split; [vm_compute; reflexivity|reflexivity]).
  assert (exists b1, nodes waiting_source !! 1%nat = Some b1 /\ physical_addresses b1 = ∅ /\
            effectiveAddress b1 = 0x2000 /\ msrBits b1 = 0x30) as (b1 & Hb1 & Hfp & Hea & Hmsr)
    by (eexists; split; [vm_compute; reflexivity|repeat split; reflexivity]).
  destruct (FinalizeBlock_links_both_ways (H := dolphin) (machine 0x2000 0x30) 1%nat b1
              {[0x2000]} waiting_source waiting_source_reachable Hb1 Hfp)
    as (s' & Hrun & Hr' & Hclosed & _).
  { intros a Ha. apply elem_of_singleton in Ha as ->. unfold is_u32. lia. }
  assert (s' = state_of (FinalizeBlock (H := dolphin) (machine 0x2000 0x30) 1%nat true
                           {[0x2000]} waiting_source)) as Hs' by (by rewrite Hrun).
  assert (exists b0', nodes s' !! 0%nat = Some b0' /\ msrBits b0' = 0x30 /\
            (exitAddress <$> linkData b0') = [0x2000]) as (b0' & Hb0' & Hmsr0 & Hex0)
    by (rewrite Hs'; eexists; split; [vm_compute; reflexivity|split; reflexivity]).
  assert (exists b1', nodes s' !! 1%nat = Some b1' /\ msrBits b1' = 0x30 /\
            (exitAddress <$> linkData b1') = [0x1000]) as (b1' & Hb1' & Hmsr1 & Hex1)
    by (rewrite Hs'; eexists; split; [vm_compute; reflexivity|split; reflexivity]).
  assert (0%nat ∈ bucket (links_to s') 0x2000) as Hwaits
    by (rewrite Hs'; vm_compute; reflexivity).
  assert (GetBlockFromStartAddress (H := dolphin) (machine 0x2000 0x30) 0x2000 0x30 s'
          = Some 1%nat) as Hfind1 by (rewrite Hs'; vm_compute; reflexivity).
  assert (GetBlockFromStartAddress (H := dolphin) (machine 0x2000 0x30) 0x1000 0x30 s'
          = Some 0%nat) as Hfind0 by (rewrite Hs'; vm_compute; reflexivity).
  exists b0, s', b0', b1'.
  split; [exact Hb0|]. split; [exact Hexits0|]. split; [exact Hrun|]. split; [exact Hr'|].
  split; [exact Hb0'|]. split; [exact Hex0|]. split; [exact Hb1'|]. split; [exact Hex1|].
  split.
  - intros e He.
    assert (exitAddress e = 0x2000) as Hto.
    { assert (exitAddress e ∈ exitAddress <$> linkData b0') as Hin
        by (apply list_elem_of_fmap; eauto).
      rewrite Hex0 in Hin. by apply list_elem_of_singleton in Hin. }
    destruct (Hclosed 0%nat b0' e) as [Hlinked|Hnone]; [|exact Hb0'|exact He|exact Hlinked|].
    + right. rewrite Hea, Hmsr0, Hmsr. split; [exact Hwaits|reflexivity].
    + rewrite Hto, Hmsr0, Hfind1 in Hnone. discriminate Hnone.
  - intros e He.
    assert (exitAddress e = 0x1000) as Hto.
    { assert (exitAddress e ∈ exitAddress <$> linkData b1') as Hin
        by (apply list_elem_of_fmap; eauto).
      rewrite Hex1 in Hin. by apply list_elem_of_singleton in Hin. }
    destruct (Hclosed 1%nat b1' e) as [Hlinked|Hnone]; [|exact Hb1'|exact He|exact Hlinked|].
    + left. reflexivity.
    + rewrite Hto, Hmsr1, Hfind0 in Hnone. discriminate Hnone.
Defined.


(** ** The end of the address space *)

(** C9: [ErasePhysicalRange] on the last cache line of the address space.
    The block of [top_line_block] has its code at 0xFFFFFFE0, inside the
    range of 0x20 bytes from 0xFFFFFFE0 on. [address + length] is 0 in
    [u32], so the bound of the scan over the range index is the first macro
    block at or above 0, which is the one the scan starts at: nothing is
    scanned, the call returns, and the block is still stored and still
    found by the lookup for its address and mode. *)
Theorem ErasePhysicalRange_misses_wrapped_range :
  reachable (H := dolphin) top_line_block /\
  exists b,
    nodes top_line_block !! 0%nat = Some b /\
    effectiveAddress b = 0xFFFFFFE0 /\ msrBits b = 0x30 /\
    footprint_overlaps b 0xFFFFFFE0 0x20 /\
    wrap (0xFFFFFFE0 + 0x20) = 0 /\
    exists s',
      ErasePhysicalRange (H := dolphin) 0xFFFFFFE0 0x20 top_line_block = Ok s' /\
      nodes s' !! 0%nat = Some b /\
      (0xFFFFFFE0, 0%nat) ∈ block_map s' /\
      GetBlockFromStartAddress (H := dolphin) (machine 0 0) 0xFFFFFFE0 0x30 s'
        = Some 0%nat.
Proof.
  split; [apply top_line_block_reachable|].
  eexists. split; [vm_compute; reflexivity|].
  split; [reflexivity|]. split; [reflexivity|]. split.
  { exists 0xFFFFFFE0. split; [vm_compute; reflexivity|lia]. }
  split; [reflexivity|].
  eexists. split; [vm_compute; reflexivity|].
  split; [vm_compute; reflexivity|]. split; [|vm_compute; reflexivity].
  apply list_elem_of_here.
Qed.

Lemma erase_words_wraps fuel i s :
  0 <= i < 2 ^ 32 -> i mod 4 = 0 -> erase_words fuel i 0xFFFFFFFE s = OutOfFuel.
Proof.
  revert i s. induction fuel as [|fuel IH]; intros i s Hi Hal;
    pose proof (Z.div_mod i 4 ltac:(lia)) as Hdiv; rewrite Hal in Hdiv;
    change (2 ^ 32) with 4294967296 in Hi;
    assert (i < 0xFFFFFFFE) as Hlt by lia; cbn [erase_words].
  - by rewrite bool_decide_true.
  - rewrite bool_decide_true by done. apply IH.
    + apply wrap_is_u32.
    + unfold wrap. change (2 ^ 32) with (4 * 1073741824).
      rewrite Z.rem_mul_r by lia. rewrite Z.mul_comm, Z.mod_add by lia.
      rewrite Z.mod_mod by lia. rewrite Z.add_mod, Hal by lia. done.
Qed.

(** C10: [InvalidateICache] near the end of the address space. The 14 bytes
    from 0xFFFFFFF0 on lie in one translation unit, so the splitting loop
    hands them to [InvalidateICacheInternal] as one piece. With [forced]
    false the loop over the word addresses of the piece runs while
    [i < 0xFFFFFFFE]; from 0xFFFFFFFC the step [i += 4] takes [i] to 0, and
    no multiple of 4 below 2^32 reaches the bound: with whatever fuel, the
    loop does not return, and so [InvalidateICache] does not. *)
Theorem InvalidateICache_word_loop_never_ends :
  InvalidateICache_chunks (H := dolphin) (machine 0 0) 0xFFFFFFF0 0xE
    = Ok [(0xFFFFFFF0, 0xE)] /\
  wrap (0xFFFFFFF0 + 0xE) = 0xFFFFFFFE /\
  (forall fuel s, erase_words fuel 0xFFFFFFF0 0xFFFFFFFE s = OutOfFuel) /\
  InvalidateICacheInternal (H := dolphin) 0xFFFFFFF0 0xFFFFFFF0 0xE false empty_cache
    = OutOfFuel /\
  InvalidateICache (H := dolphin) (machine 0 0) 0xFFFFFFF0 0xE false empty_cache
    = OutOfFuel.
Proof.
  split; [vm_compute; reflexivity|]. split; [reflexivity|].
  split; [|split; vm_compute; reflexivity].
  intros fuel s. apply erase_words_wraps; [lia|reflexivity].
Qed.

(** ** The pieces of the range-splitting loop *)

Section Pieces.

Context `{Constants}.

Lemma same_page_unit shift address length :
  0 <= shift < 32 -> is_u32 address -> is_u32 length -> 0 < length ->
  same_page shift address length = true ->
  wrap (address + length - 1) / 2 ^ shift = address / 2 ^ shift.
Proof.
  intros Hs Ha Hl Hpos Hsame. unfold same_page in Hsame.
  apply bool_decide_eq_true in Hsame. unfold is_u32 in Hl.
  rewrite (wrap_small (length - 1)) in Hsame by (unfold is_u32; lia).
  replace (address + (length - 1)) with (address + length - 1) in Hsame by lia.
  rewrite !page_mask_align in Hsame by (done || apply wrap_is_u32).
  assert (0 < 2 ^ shift) as HP by (apply Z.pow_pos_nonneg; lia).
  set (P := 2 ^ shift) in *. set (x := wrap (address + length - 1)) in *.
  pose proof (Z.div_mod address P ltac:(lia)).
  pose proof (Z.div_mod x P ltac:(lia)).
  nia.
Qed.

Lemma partitions_nonempty address length chunks :
  partitions address length chunks -> 0 < length -> chunks <> [].
Proof. intros Hpart Hpos ->. simpl in Hpart. lia. Qed.

(** The loop with a [visit] that only takes note of the pieces: enough fuel
    gives the list, the list cuts the range up, and it cuts it at the
    boundaries of the translation units. *)
Lemma InvalidateICache_loop_units fuel m address length acc :
  0 <= BAT_INDEX_SHIFT < 32 -> 0 <= HW_PAGE_INDEX_SHIFT < 32 ->
  is_u32 address -> is_u32 length -> (Z.to_nat length <= fuel)%nat ->
  exists chunks,
    InvalidateICache_loop (fun _ a l acc => Ok (acc ++ [(a, l)])) fuel m address length acc
      = Ok (acc ++ chunks) /\
    partitions address length chunks /\
    cut_at_units m chunks /\
    (address + length <= 2 ^ 32 -> Forall (fun c => c.1 + c.2 <= 2 ^ 32) chunks).
Proof.
  intros Hb Hp. revert address length acc.
  induction fuel as [|fuel IH]; intros address length acc Ha Hl Hfuel.
  - assert (length = 0) as -> by (unfold is_u32 in Hl; lia).
    exists []. simpl. rewrite app_nil_r. done.
  - cbn [InvalidateICache_loop]. case_bool_decide as Hpos.
    + set (shift := page_shift (JitCache_TranslateAddress m address)).
      assert (0 <= shift < 32) as Hs by by apply page_shift_range.
      destruct (same_page shift address length) eqn:Hsame.
      * exists [(address, length)]. split; [done|]. split.
        { simpl. split; [done|]. split; [lia|]. lia. }
        split.
        { simpl. split; [|done]. apply same_page_unit; [done..|lia|done]. }
        intros Hno. constructor; [done|constructor].
      * pose proof (length_this_page_bounds shift address length Hs Ha Hl
                      ltac:(lia) Hsame) as Hltp.
        pose proof (length_this_page_eq shift address Hs Ha) as Heq.
        set (ltp := length_this_page shift address) in *.
        cbn [bind].
        unfold is_u32 in Hl.
        rewrite (wrap_small (length - ltp)) by (unfold is_u32; lia).
        destruct (IH (wrap (address + ltp)) (length - ltp) (acc ++ [(address, ltp)]))
          as (chunks & Hrun & Hpart & Hcut & Hfit);
          [apply wrap_is_u32|unfold is_u32; lia|lia|].
        assert (0 < 2 ^ shift) as HP by (apply Z.pow_pos_nonneg; lia).
        pose proof (Z.mod_pos_bound address (2 ^ shift) HP) as Hr.
        exists ((address, ltp) :: chunks). split; [|split; [|split]].
        -- rewrite Hrun. by rewrite <- app_assoc.
        -- simpl. split; [done|]. split; [lia|done].
        -- pose proof (partitions_nonempty _ _ _ Hpart ltac:(lia)) as Hne.
           destruct chunks as [|c rest]; [done|].
           split; [|exact Hcut]. fold shift. split; [lia|].
           rewrite Heq.
           replace (address + (2 ^ shift - address mod 2 ^ shift))
             with (address - address mod 2 ^ shift + 1 * 2 ^ shift) by lia.
           rewrite Z.mod_add by lia.
           rewrite (Z.div_mod address (2 ^ shift)) at 1 by lia.
           replace (2 ^ shift * (address / 2 ^ shift) + address mod 2 ^ shift
                    - address mod 2 ^ shift)
             with (address / 2 ^ shift * 2 ^ shift) by lia.
           apply Z.mod_mul. lia.
        -- intros Hno. unfold is_u32 in Ha. constructor; [simpl; lia|].
           apply Hfit. rewrite wrap_small by (unfold is_u32; lia). lia.
    + exists []. rewrite app_nil_r. split; [done|]. simpl. unfold is_u32 in Hl.
      split; [lia|]. split; [done|]. constructor.
Qed.

Lemma visit_chunks_returns {A : Type}
    (visit : TranslateResult -> Z -> Z -> A -> Result A) m chunks :
  (forall t a l s, exists s', visit t a l s = Ok s') ->
  forall s, exists s', visit_chunks visit m chunks s = Ok s'.
Proof.
  intros Hvisit. induction chunks as [|[a l] chunks IH]; intros s; simpl; [eauto|].
  destruct (Hvisit (JitCache_TranslateAddress m a) a l s) as [s1 ->]. apply IH.
Qed.

(** X23: the pieces of the range-splitting loop. For every address and
    length the loop of [InvalidateICache] cuts the range into pieces that
    follow one another from the first address on, none empty, with lengths
    that add up to the length asked for. Every piece but the last ends
    where the translation unit of its first address ends, and the last byte
    of the last piece is in the unit of its first byte; no piece runs past
    the end of the address space when the range does not. Whatever the loop
    does with a piece, it does it with these pieces in this order, so it
    returns when the work on every piece returns; [InvalidateICache] is
    [invalidate_chunk] run on them. *)
Theorem InvalidateICache_splits_range m address length :
  0 <= BAT_INDEX_SHIFT < 32 -> 0 <= HW_PAGE_INDEX_SHIFT < 32 ->
  is_u32 address -> is_u32 length ->
  exists chunks,
    InvalidateICache_chunks m address length = Ok chunks /\
    partitions address length chunks /\
    cut_at_units m chunks /\
    (address + length <= 2 ^ 32 -> Forall (fun c => c.1 + c.2 <= 2 ^ 32) chunks) /\
    (forall (A : Type) (visit : TranslateResult -> Z -> Z -> A -> Result A) (s : A),
       InvalidateICache_loop visit (Z.to_nat length) m address length s
       = visit_chunks visit m chunks s) /\
    (forall (A : Type) (visit : TranslateResult -> Z -> Z -> A -> Result A),
       (forall t a l s, exists s', visit t a l s = Ok s') ->
       forall s, exists s',
         InvalidateICache_loop visit (Z.to_nat length) m address length s = Ok s') /\
    (forall forced s,
       InvalidateICache m address length forced s
       = visit_chunks (invalidate_chunk forced) m chunks s).
Proof.
  intros Hb Hp Ha Hl.
  destruct (InvalidateICache_loop_units (Z.to_nat length) m address length []
              Hb Hp Ha Hl ltac:(lia)) as (chunks & Hrun & Hpart & Hcut & Hfit).
  assert (forall (A : Type) (visit : TranslateResult -> Z -> Z -> A -> Result A) (s : A),
            InvalidateICache_loop visit (Z.to_nat length) m address length s
            = visit_chunks visit m chunks s) as Hloop.
  { intros A visit s. by apply (InvalidateICache_loop_visit _ _ _ _ _ []). }
  exists chunks. split; [exact Hrun|]. split; [exact Hpart|]. split; [exact Hcut|].
  split; [exact Hfit|]. split; [exact Hloop|]. split.
  - intros A visit Hvisit s. rewrite Hloop. by apply visit_chunks_returns.
  - intros forced s. apply Hloop.
Qed.

End Pieces.

(** A range of 32 bytes that crosses the BAT boundary at 0x20000 is cut in
    two at the boundary. *)
Lemma InvalidateICache_splits_range_witness :
  0 <= BAT_INDEX_SHIFT (Constants := dolphin) < 32 /\
  0 <= HW_PAGE_INDEX_SHIFT (Constants := dolphin) < 32 /\
  exists chunks,
    InvalidateICache_chunks (H := dolphin) (machine 0 0) 0x1FFF0 0x20 = Ok chunks /\
    chunks = [(0x1FFF0, 0x10); (0x20000, 0x10)] /\
    partitions 0x1FFF0 0x20 chunks /\
    cut_at_units (H := dolphin) (machine 0 0) chunks.
Proof.
  assert (0 <= BAT_INDEX_SHIFT (Constants := dolphin) < 32) as Hb by (simpl; lia).
  assert (0 <= HW_PAGE_INDEX_SHIFT (Constants := dolphin) < 32) as Hp by (simpl; lia).
  split; [exact Hb|]. split; [exact Hp|].
  destruct (InvalidateICache_splits_range (H := dolphin) (machine 0 0) 0x1FFF0 0x20 Hb Hp)
    as (chunks & Hrun & Hpart & Hcut & _); [unfold is_u32; lia..|].
  exists chunks. split; [exact Hrun|]. split; [|split; [exact Hpart|exact Hcut]].
  assert (InvalidateICache_chunks (H := dolphin) (machine 0 0) 0x1FFF0 0x20
          = Ok [(0x1FFF0, 0x10); (0x20000, 0x10)]) as Hval by (vm_compute; reflexivity).
  rewrite Hval in Hrun. by injection Hrun as <-.
Defined.
